(** * mesos-term: sandbox access control and terminal sessions

    A shallow embedding of the request handlers of mesos-term:

    - the sandbox controller (descriptor cache, authorization gateway and
      the browse / read handlers),
    - the [AllowConfiguredUsers] middleware of [express_helpers.ts],
    - the terminal registry and websocket relay of [src/app.js].

    JavaScript objects used as dictionaries are finite maps, [Date]s are
    integers (milliseconds since the epoch), exceptions are values of
    the type [Error], and [async] code runs in a small state-and-error
    monad whose state carries the clock. *)

From stdpp Require Import base numbers option list strings pretty gmap fin_maps.

Local Open Scope Z_scope.

(** ** Exceptions and asynchronous collaborators *)

(** The exception classes the handlers discriminate with [instanceof],
    the [TypeError] raised by the runtime when a property of [undefined]
    is read, and any other thrown value. *)
Inductive Error :=
| MesosAgentNotFoundError
| TaskNotFoundError
| FileNotFoundError
| UnauthorizedAccessError (reason : string)
| TypeError (msg : string)
| OtherError (msg : string).

Global Instance Error_eq_dec : EqDecision Error.
Proof. solve_decision. Defined.

(** A promise of an external collaborator: started at a clock reading,
    it settles with a value or a rejection after some latency (ms). *)
Definition Async (A : Type) : Type := Z → (Error + A) * N.

Definition async_ret {A} (a : A) : Async A := λ _, (inr a, 0%N).

Definition async_bind {A B} (m : Async A) (f : A → Async B) : Async B :=
  λ t, match m t with
       | (inl e, d) => (inl e, d)
       | (inr a, d) =>
           match f a (t + Z.of_N d) with
           | (r, d') => (r, (d + d')%N)
           end
       end.

(** ** The sandbox descriptor cache ([cacheSandboxDescriptor]) *)

Module Cache.
Section cache.
(** The cached value; [SandboxDescriptor] in the only instance. *)
Context {D : Type}.

Record Entry := { expireAt : Z; locator : D }.

(** The state a cache closure works on: the wall clock, the [cache]
    object, and the log of calls made to [fetcher]. The keys of [cache]
    are the task IDs; the properties an object inherits from its
    prototype are left out, none of them carries an [expireAt]. *)
Record World := { now : Z; cache : gmap string Entry; fetched : list string }.

Definition M (A : Type) : Type := World → (Error + A) * World.

Variable fetcher : string → Async D.

(** [Moment(new Date()).add(10, 'second').toDate()], in milliseconds. *)
Definition ttl : Z := 10000.

(** The interval callback. The first loop collects the task IDs whose
    entry satisfies [expireAt < new Date()], the second deletes them.
    The callback is synchronous: one clock reading serves for the loop. *)
Definition expiredTaskIDs (t : Z) (c : gmap string Entry) : list string :=
  (filter (λ kv, expireAt kv.2 < t) (map_to_list c)).*1.

Definition clearExpiredEntries (w : World) : World :=
  {| now := now w;
     cache := foldl (λ c taskID, delete taskID c) (cache w)
                    (expiredTaskIDs (now w) (cache w));
     fetched := fetched w |}.

(** The closure returned by [cacheSandboxDescriptor]. The clock is read
    once for the test and once more, after the fetcher has settled, for
    the new entry. A rejected fetch leaves the [cache] object as it was.
    A call runs to its end before the next event: two calls that overlap
    at the [await] are not modelled. *)
Definition refetch (taskID : string) : M D := λ w,
  match fetcher taskID (now w) with
  | (inl err, d) =>
      (inl err, {| now := now w + Z.of_N d; cache := cache w;
                   fetched := fetched w ++ [taskID] |})
  | (inr res, d) =>
      let t' := now w + Z.of_N d in
      (inr res, {| now := t';
                   cache := <[taskID := {| expireAt := t' + ttl; locator := res |}]> (cache w);
                   fetched := fetched w ++ [taskID] |})
  end.

Definition resolve (taskID : string) : M D := λ w,
  match cache w !! taskID with
  | Some e =>
      if bool_decide (expireAt e > now w) then (inr (locator e), w)
      else refetch taskID w
  | None => refetch taskID w
  end.

(** Time passing between two events of the loop. *)
Definition elapse (d : N) (w : World) : World :=
  {| now := now w + Z.of_N d; cache := cache w; fetched := fetched w |}.

(** What happens to a cache: time passes, the interval fires, or a
    caller resolves a task ID. *)
Inductive Event :=
| Tick (d : N)
| Sweep
| Resolve (taskID : string).

Definition step (ev : Event) (w : World) : option (Error + D) * World :=
  match ev with
  | Tick d => (None, elapse d w)
  | Sweep => (None, clearExpiredEntries w)
  | Resolve taskID =>
      match resolve taskID w with
      | (r, w') => (Some r, w')
      end
  end.

(** The values the callers get, in order, and the world left. *)
Fixpoint run (evs : list Event) (w : World) : list (Error + D) * World :=
  match evs with
  | [] => ([], w)
  | ev :: evs' =>
      match step ev w with
      | (o, w') =>
          match run evs' w' with
          | (os, w'') => (option_list o ++ os, w'')
          end
      end
  end.

Definition is_sweep (ev : Event) : bool :=
  match ev with Sweep => true | _ => false end.

(** The entry a caller would be served from: present and not expired. *)
Definition live (w : World) (taskID : string) : option Entry :=
  match cache w !! taskID with
  | Some e => if bool_decide (expireAt e > now w) then Some e else None
  | None => None
  end.

(** Worlds no caller can tell apart: the same clock, the same calls to
    the fetcher so far, the same entries among those still served. *)
Definition agree (w1 w2 : World) : Prop :=
  now w1 = now w2 ∧ fetched w1 = fetched w2 ∧ ∀ taskID, live w1 taskID = live w2 taskID.

(** The same schedule with the interval never firing. *)
Definition without_sweeps (evs : list Event) : list Event :=
  filter (λ ev, is_sweep ev = false) evs.

End cache.
End Cache.

Arguments Cache.Entry : clear implicits.
Arguments Cache.World : clear implicits.
Arguments Cache.M : clear implicits.
Arguments Cache.Event : clear implicits.

(** ** The sandbox controller *)

Module Sandbox.

(** What the controller reads of a [TaskInfo] ([../mesos]); [labels] and
    [user] are the access-control fields read by the authorizations. *)
Record TaskInfo := {
  agent_url : string;
  statuses : list string;
  framework_id : string;
  container_id : string;
  labels : gmap string string;
  task_user : option string }.

(** [slaveState.flags.work_dir] and [slaveState.id]. *)
Record SlaveState := { work_dir : string; slave_id : string }.

Record SandboxDescriptor := {
  agentURL : string;
  workDir : string;
  slaveID : string;
  frameworkID : string;
  containerID : string;
  task : TaskInfo;
  last_status : string }.

(** The object [readSandboxFile] resolves to: the handler only touches
    its [eof] property, the rest is carried along. *)
Record FileChunk (Payload : Type) := { payload : Payload; eof : bool }.
Arguments payload {_} _.
Arguments eof {_} _.

(** [req.user]: [memberOf] is absent for a directory entry without groups. *)
Record User := { cn : string; memberOf : option (list string) }.

(** [req.user], the [req.query] parameters the handlers read and, for
    [AllowConfiguredUsers], [req.body.task_id]. *)
Record Request := {
  user : User;
  query_taskID : string;
  query_access_token : option string;
  query_path : string;
  query_offset : string;
  query_size : string;
  body_task_id : option string }.

(** The [env] flags read by the middlewares. *)
Record EnvVars := {
  AUTHORIZATIONS_ENABLED : bool;
  AUTHORIZE_ALL_SANDBOXES : bool;
  SUPER_ADMINS : list string }.

(** The functions imported from [../mesos] and [../authorizations]. *)
Record Collaborators (Listing Payload : Type) := {
  getTaskInfo : string → Async TaskInfo;
  getMesosSlaveState : string → Async SlaveState;
  browseSandbox :
    string → string → string → string → string → string → string → Async Listing;
  readSandboxFile :
    string → string → string → string → string → string → string →
    string → string → Async (FileChunk Payload);
  CheckTaskAuthorization : User → TaskInfo → option string → Async unit }.
Arguments getTaskInfo {_ _} _.
Arguments getMesosSlaveState {_ _} _.
Arguments browseSandbox {_ _} _.
Arguments readSandboxFile {_ _} _.
Arguments CheckTaskAuthorization {_ _} _.

(** What [res.send] is given. *)
Inductive Body (Listing Payload : Type) :=
| BEmpty
| BText (s : string)
| BListing (files : Listing)
| BFile (files : FileChunk Payload).
Arguments BEmpty {_ _}.
Arguments BText {_ _} _.
Arguments BListing {_ _} _.
Arguments BFile {_ _} _.

(** [res]: the status code set so far and, once [send] has been called,
    the status and body that went to the client. *)
Record Response (Listing Payload : Type) := {
  statusCode : Z;
  sent : option (Z * Body Listing Payload) }.
Arguments statusCode {_ _} _.
Arguments sent {_ _} _.

(** Whether JavaScript takes a string-valued property for true. *)
Definition truthy (s : option string) : bool :=
  match s with
  | Some s => negb (String.eqb s "")
  | None => false
  end.

(** The calls a handler makes to the outside, in order. *)
Inductive Call :=
| CCheckAuthorization (taskID : string)
| CBrowse (taskID path : string)
| CRead (taskID path : string)
| CNext
| CConsoleError.

Global Instance Call_eq_dec : EqDecision Call.
Proof. solve_decision. Defined.

Section handlers.
Context {Listing Payload : Type}.
Variable env : EnvVars.
Variable ext : Collaborators Listing Payload.

(** The state of one request: the process-wide cache with the clock, the
    response object and the log of outside calls. *)
Record HWorld := {
  cw : Cache.World SandboxDescriptor;
  res : Response Listing Payload;
  calls : list Call }.

Definition H (A : Type) : Type := HWorld → (Error + A) * HWorld.

Definition h_ret {A} (a : A) : H A := λ w, (inr a, w).

Definition h_bind {A B} (m : H A) (f : A → H B) : H B :=
  λ w, match m w with
       | (inl e, w') => (inl e, w')
       | (inr a, w') => f a w'
       end.

(** [try { m } catch (err) { h err }]: what [m] did to the state stays. *)
Definition try_catch {A} (m : H A) (h : Error → H A) : H A :=
  λ w, match m w with
       | (inl e, w') => h e w'
       | (inr a, w') => (inr a, w')
       end.

Definition log (c : Call) : H unit :=
  λ w, (inr (), {| cw := cw w; res := res w; calls := calls w ++ [c] |}).

(** [await p] for a collaborator's promise [p]: the clock moves on. *)
Definition await {A} (p : Async A) : H A :=
  λ w, match p (Cache.now (cw w)) with
       | (r, d) => (r, {| cw := Cache.elapse d (cw w); res := res w; calls := calls w |})
       end.

(** [res.status(code)]. *)
Definition status (code : Z) : H unit :=
  λ w, (inr (), {| cw := cw w;
                   res := {| statusCode := code; sent := sent (res w) |};
                   calls := calls w |}).

(** [res.send(body)]. On a response that is out already, a [send] with
    a text or an object sets a header first, which throws; [send()]
    without a body sets none and only ends the response again, which
    does nothing. *)
Definition send (body : Body Listing Payload) : H unit :=
  λ w, match sent (res w) with
       | Some _ =>
           match body with
           | BEmpty => (inr (), w)
           | _ => (inl (OtherError "ERR_HTTP_HEADERS_SENT"), w)
           end
       | None => (inr (), {| cw := cw w;
                             res := {| statusCode := statusCode (res w);
                                       sent := Some (statusCode (res w), body) |};
                             calls := calls w |})
       end.

#[local] Instance H_ret : MRet H := @h_ret.
#[local] Instance H_bind : MBind H := λ A B f m, h_bind m f.

(** The fetcher given to [cacheSandboxDescriptor]: the task, then the
    state of its agent; the last status of the task, ['UNKNOWN'] when
    the task has none. *)
Definition sandboxFetcher (taskID : string) : Async SandboxDescriptor :=
  async_bind (getTaskInfo ext taskID) (λ taskInfo,
  async_bind (getMesosSlaveState ext (agent_url taskInfo)) (λ slaveState,
    let status :=
      if bool_decide (0 < length (statuses taskInfo))%nat
      then default "undefined"
             (statuses taskInfo !! (length (statuses taskInfo) - 1)%nat)
      else "UNKNOWN" in
    async_ret {| agentURL := agent_url taskInfo;
                 workDir := work_dir slaveState;
                 slaveID := slave_id slaveState;
                 frameworkID := framework_id taskInfo;
                 containerID := container_id taskInfo;
                 task := taskInfo;
                 last_status := status |})).

(** [sandboxCache(taskID)], on the cache of the request's world. *)
Definition sandboxCache (taskID : string) : H SandboxDescriptor :=
  λ w, match Cache.resolve sandboxFetcher taskID (cw w) with
       | (r, c) => (r, {| cw := c; res := res w; calls := calls w |})
       end.

(** How a [catch] block ends: with a [return], or by running off its
    end into the statements after the [try]. *)
Inductive Flow := Returned | FellThrough.

(** [app.get('/api/sandbox/*', ...)]: the middleware in front of every
    sandbox route; [next] is the route that follows it. *)
Definition gateway_try (req : Request) : H Flow :=
  if AUTHORIZATIONS_ENABLED env && negb (AUTHORIZE_ALL_SANDBOXES env) then
    sandbox ← sandboxCache (query_taskID req);
    _ ← log (CCheckAuthorization (query_taskID req));
    _ ← await (CheckTaskAuthorization ext (user req) (task sandbox)
                 (query_access_token req));
    mret FellThrough
  else mret FellThrough.

Definition gateway_catch (err : Error) : H Flow :=
  _ ← log CConsoleError;
  match err with
  | MesosAgentNotFoundError =>
      _ ← status 400; _ ← send (BText "Mesos agent not found"); mret Returned
  | UnauthorizedAccessError _ =>
      _ ← status 403; _ ← send (BText "Unauthorized"); mret Returned
  | TaskNotFoundError =>
      _ ← status 404; _ ← send (BText "Task not found"); mret Returned
  | _ =>
      _ ← status 500; _ ← send BEmpty; mret FellThrough
  end.

Definition gateway (req : Request) (next : H unit) : H unit :=
  flow ← try_catch (gateway_try req) gateway_catch;
  match flow with
  | Returned => mret ()
  | FellThrough => _ ← log CNext; next
  end.

(** The [catch] block shared by the browse, read and download routes. *)
Definition route_catch (err : Error) : H unit :=
  _ ← log CConsoleError;
  match err with
  | MesosAgentNotFoundError => _ ← status 400; send (BText "Mesos agent not found")
  | FileNotFoundError => _ ← status 404; send (BText "File not found")
  | UnauthorizedAccessError _ => _ ← status 403; send (BText "Unauthorized")
  | TaskNotFoundError => _ ← status 404; send (BText "Task not found")
  | _ => _ ← status 503; send BEmpty
  end.

(** [app.get('/api/sandbox/browse', ...)]. *)
Definition browse (req : Request) : H unit :=
  try_catch
    (sandbox ← sandboxCache (query_taskID req);
     _ ← log (CBrowse (query_taskID req) (query_path req));
     files ← await (browseSandbox ext (agentURL sandbox) (workDir sandbox)
                      (slaveID sandbox) (frameworkID sandbox) (query_taskID req)
                      (containerID sandbox) (query_path req));
     send (BListing files))
    route_catch.

(** [app.get('/api/sandbox/read', ...)]. *)
Definition read (req : Request) : H unit :=
  try_catch
    (sandbox ← sandboxCache (query_taskID req);
     _ ← log (CRead (query_taskID req) (query_path req));
     files ← await (readSandboxFile ext (agentURL sandbox) (workDir sandbox)
                      (slaveID sandbox) (frameworkID sandbox) (query_taskID req)
                      (containerID sandbox) (query_path req)
                      (query_offset req) (query_size req));
     let files :=
       if negb (bool_decide (last_status sandbox = "TASK_RUNNING")
                || bool_decide (last_status sandbox = "TASK_STARTING"))
       then {| payload := payload files; eof := true |}
       else files in
     send (BFile files))
    route_catch.

(** A request for [/api/sandbox/browse] or [/api/sandbox/read] as express
    routes it: through the middleware, which hands over with [next]. *)
Definition GET_browse (req : Request) : H unit := gateway req (browse req).
Definition GET_read (req : Request) : H unit := gateway req (read req).

(** [AllowConfiguredUsers] of [express_helpers.ts]; an array is true
    whatever it holds, an absent property and the empty string are false. *)
Definition AllowConfiguredUsers (req : Request) (next : H unit) : H unit :=
  if truthy (Some (cn (user req))) && bool_decide (is_Some (memberOf (user req))) then
    flow ← try_catch
      (if negb (truthy (body_task_id req)) then
         _ ← status 406; _ ← send (BText "Request must contain key `task_id`.");
         mret Returned
       else
         task_info ← await (getTaskInfo ext (default "" (body_task_id req)));
         _ ← log (CCheckAuthorization (default "" (body_task_id req)));
         _ ← await (CheckTaskAuthorization ext (user req) task_info None);
         mret FellThrough)
      (λ err, _ ← log CConsoleError; _ ← status 403; _ ← send BEmpty; mret Returned);
    match flow with
    | Returned => mret ()
    | FellThrough => _ ← log CNext; next
    end
  else
    _ ← status 403; send BEmpty.

(** A fresh request: the response object is new, nothing is logged. *)
Definition request_on (c : Cache.World SandboxDescriptor) : HWorld :=
  {| cw := c; res := {| statusCode := 200; sent := None |}; calls := [] |}.

End handlers.
End Sandbox.

(** ** The authorization evaluator *)

Module Authorizations.
Import Sandbox.

(** Modelled from the spec: the module [../authorizations] is not among
    the sources. Everything in this module follows the Authorization
    Evaluator of the specification; a decision is allow or deny with a
    reason. *)
Inductive Decision := Allow | Deny (reason : string).

Definition comma : Ascii.ascii := Ascii.ascii_of_nat 44.

(** Modelled from the spec: the names of a comma-separated allow-list
    ([label.split(',')] in [get_task_id.ts]). *)
Fixpoint split_comma (s : string) : list string :=
  match s with
  | EmptyString => [EmptyString]
  | String c s' =>
      if Ascii.eqb c comma then EmptyString :: split_comma s'
      else match split_comma s' with
           | w :: ws => String c w :: ws
           | [] => [String c EmptyString]
           end
  end.

(** Modelled from the spec: the surface a decision is asked for, a
    terminal session or a sandbox. *)
Inductive Surface := TerminalSurface | SandboxSurface.

Section evaluator.
Variable env : EnvVars.
(** The token scheme is the collaborator's. *)
Variable validate_token : string → TaskInfo → bool.
(** Whether the task is a privileged or root-owned container. *)
Variable root_container : TaskInfo → bool.

(** Modelled from the spec: rule 1, the surfaces configured exempt. *)
Definition exempt (s : Surface) : bool :=
  match s with
  | SandboxSurface => AUTHORIZE_ALL_SANDBOXES env
  | TerminalSurface => false
  end.

(** Modelled from the spec: rule 2, the allow-list label of a task
    ([debug_allowed_to] in the scenario of the specification). *)
Definition allow_list (t : TaskInfo) : option (list string) :=
  split_comma <$> labels t !! "debug_allowed_to".

(** Modelled from the spec: rule 3, the owning user of the task. *)
Definition is_owner (p : User) (t : TaskInfo) : bool :=
  bool_decide (task_user t = Some (cn p)).

(** Modelled from the spec: rule 4, a group of the principal is among
    the super-admin groups. *)
Definition is_super_admin (p : User) : bool :=
  existsb (λ g, bool_decide (g ∈ SUPER_ADMINS env)) (default [] (memberOf p)).

(** Modelled from the spec: rule 5, a token is supplied and validates. *)
Definition token_valid (token : option string) (t : TaskInfo) : bool :=
  match token with
  | Some tok => validate_token tok t
  | None => false
  end.

(** Modelled from the spec: [CheckTaskAuthorization] lives in
    [../authorizations], which is not among the sources; these are the
    six rules of the Authorization Evaluator in their order, the first
    that matches deciding. Rule 2 matches a task that carries the
    allow-list label and decides both ways, "allow iff principal's name
    appears in that list": a label can deny, as the specification has it
    for the super-admins, "allowed on any task when no allow-list label
    denies it". *)
Definition authorize (s : Surface) (p : User) (t : TaskInfo)
    (token : option string) : Decision :=
  if negb (AUTHORIZATIONS_ENABLED env) || exempt s then Allow
  else match allow_list t with
  | Some names =>
      if bool_decide (cn p ∈ names) then Allow
      else Deny "unauthorized access to container"
  | None =>
      if is_owner p t then Allow
      else if is_super_admin p then Allow
      else if token_valid token t then Allow
      else if root_container t then Deny "unauthorized access to root container"
      else Deny "unauthorized access to container"
  end.

(** Modelled from the spec: the promise [CheckTaskAuthorization] returns
    resolves on allow and rejects with [UnauthorizedAccessError] on deny. *)
Definition CheckTaskAuthorization (s : Surface) (p : User) (t : TaskInfo)
    (token : option string) : Async unit :=
  λ _, match authorize s p t token with
       | Allow => (inr (), 0%N)
       | Deny reason => (inl (UnauthorizedAccessError reason), 0%N)
       end.

End evaluator.

(** Modelled from the spec: the collaborators [ext] with the evaluator
    above in the place of the authorizations, as the terminal routes use
    them. *)
Definition with_evaluator {Listing Payload : Type} (env : EnvVars)
    (validate_token : string → TaskInfo → bool) (root_container : TaskInfo → bool)
    (ext : Collaborators Listing Payload) : Collaborators Listing Payload :=
  {| getTaskInfo := getTaskInfo ext;
     getMesosSlaveState := getMesosSlaveState ext;
     browseSandbox := browseSandbox ext;
     readSandboxFile := readSandboxFile ext;
     Sandbox.CheckTaskAuthorization :=
       CheckTaskAuthorization env validate_token root_container TerminalSurface |}.

End Authorizations.

(** ** The terminal registry and relay ([src/app.js]) *)

Module Terminals.

(** The two closures registered with [term.on('data', ...)]: the one of
    the POST handler, which appends to [logs[term.pid]], and the one of
    the websocket handler, which forwards to its [ws]. Both capture
    objects, named here by their index in the heap. *)
Inductive DataListener :=
| LogData (term : nat)
| WsSend (ws : nat).

Global Instance DataListener_eq_dec : EqDecision DataListener.
Proof. solve_decision. Defined.

(** A pty object. [emitted] keeps what the process has emitted since it
    was spawned (the history no code reads, used to state properties);
    [size] is the last [resize(cols, rows)], [written] what [write] was
    given, [killed] whether [kill] was called. *)
Record Term := {
  pid : Z;
  task_id : string;
  on_data : list DataListener;
  emitted : list string;
  written : list string;
  size : option (option Z * option Z);
  killed : bool }.

(** A websocket: whether the transport is open, the messages sent to the
    client, and the term captured by the [message] and [close] listeners
    the handler registers together. *)
Record Channel := {
  opened : bool;
  received : list string;
  peer : option nat }.

(** The globals [terminals] and [logs], and the objects they and the
    closures refer to. *)
Record State := {
  heap : list Term;
  sockets : list Channel;
  terminals : gmap Z nat;
  logs : gmap Z string }.

Definition T (A : Type) : Type := State → (Error + A) * State.

Definition t_ret {A} (a : A) : T A := λ st, (inr a, st).

Definition t_bind {A B} (m : T A) (f : A → T B) : T B :=
  λ st, match m st with
        | (inl e, st') => (inl e, st')
        | (inr a, st') => f a st'
        end.

Definition t_try {A} (m : T A) (h : Error → T A) : T A :=
  λ st, match m st with
        | (inl e, st') => h e st'
        | (inr a, st') => (inr a, st')
        end.

#[local] Instance T_ret : MRet T := @t_ret.
#[local] Instance T_bind : MBind T := λ A B f m, t_bind m f.

Definition throw {A} (e : Error) : T A := λ st, (inl e, st).

Definition set_heap (h : list Term) (st : State) : State :=
  {| heap := h; sockets := sockets st; terminals := terminals st; logs := logs st |}.
Definition set_sockets (s : list Channel) (st : State) : State :=
  {| heap := heap st; sockets := s; terminals := terminals st; logs := logs st |}.
Definition set_terminals (m : gmap Z nat) (st : State) : State :=
  {| heap := heap st; sockets := sockets st; terminals := m; logs := logs st |}.
Definition set_logs (m : gmap Z string) (st : State) : State :=
  {| heap := heap st; sockets := sockets st; terminals := terminals st; logs := m |}.

(** [parseInt] gives a number or [NaN]; no key of [terminals] is [NaN]. *)
Definition get (handle : option Z) (st : State) : option nat :=
  h ← handle; terminals st !! h.

(** [ws.send(data)]: throws unless the socket is open. *)
Definition ws_send (ws : nat) (data : string) : T unit := λ st,
  match sockets st !! ws with
  | Some c =>
      if opened c then
        (inr (), set_sockets (<[ws := {| opened := true;
                                         received := received c ++ [data];
                                         peer := peer c |}]> (sockets st)) st)
      else (inl (OtherError "not opened"), st)
  | None => (inl (OtherError "not opened"), st)
  end.

(** [logs[term.pid] += data]; [undefined + data] is the string
    ["undefined"] followed by [data]. *)
Definition log_append (term : nat) (data : string) : T unit := λ st,
  match heap st !! term with
  | Some t =>
      (inr (), set_logs (<[pid t := default "undefined" (logs st !! pid t) +:+ data]> (logs st)) st)
  | None => (inr (), st)
  end.

Definition run_listener (l : DataListener) (data : string) : T unit :=
  match l with
  | LogData term => log_append term data
  | WsSend ws => t_try (ws_send ws data) (λ ex, mret ())
  end.

(** [emit('data', data)]: the listeners run in the order they were
    registered; one that throws stops the others. *)
Fixpoint emit (ls : list DataListener) (data : string) : T unit :=
  match ls with
  | [] => mret ()
  | l :: ls' => _ ← run_listener l data; emit ls' data
  end.

Definition update_term (term : nat) (f : Term → Term) (st : State) : State :=
  match heap st !! term with
  | Some t => set_heap (<[term := f t]> (heap st)) st
  | None => st
  end.

Definition add_listener (l : DataListener) (t : Term) : Term :=
  {| pid := pid t; task_id := task_id t; on_data := on_data t ++ [l];
     emitted := emitted t; written := written t; size := size t; killed := killed t |}.
Definition add_emitted (data : string) (t : Term) : Term :=
  {| pid := pid t; task_id := task_id t; on_data := on_data t;
     emitted := emitted t ++ [data]; written := written t; size := size t;
     killed := killed t |}.
Definition add_written (msg : string) (t : Term) : Term :=
  {| pid := pid t; task_id := task_id t; on_data := on_data t;
     emitted := emitted t; written := written t ++ [msg]; size := size t;
     killed := killed t |}.
Definition set_size (cols rows : option Z) (t : Term) : Term :=
  {| pid := pid t; task_id := task_id t; on_data := on_data t;
     emitted := emitted t; written := written t; size := Some (cols, rows);
     killed := killed t |}.
Definition kill (t : Term) : Term :=
  {| pid := pid t; task_id := task_id t; on_data := on_data t;
     emitted := emitted t; written := written t; size := size t; killed := true |}.

(** [app.post('/terminals/:task_id')]; [spawned] is what [pty.spawn]
    does: it throws, or gives a term with the pid the system chose.
    The result is the body sent. *)
Definition post_terminal (task_id : string) (spawned : Error + Z) : T string :=
  if String.eqb task_id "" then mret "You must provide a valid task id."
  else match spawned with
  | inl e => throw e
  | inr p => λ st,
      let term := length (heap st) in
      let t := {| pid := p; task_id := task_id; on_data := [LogData term];
                  emitted := []; written := []; size := None; killed := false |} in
      (inr (pretty p),
       {| heap := heap st ++ [t]; sockets := sockets st;
          terminals := <[p := term]> (terminals st);
          logs := <[p := ""]> (logs st) |})
  end.

(** [app.post('/terminals/:pid/size')]: [term.resize] on [undefined] is a
    [TypeError]. *)
Definition post_size (handle cols rows : option Z) : T unit := λ st,
  match get handle st with
  | Some term => (inr (), update_term term (set_size cols rows) st)
  | None => (inl (TypeError "Cannot read property 'resize' of undefined"), st)
  end.

(** [term.on('data', ...)], [ws.on('message', ...)] and
    [ws.on('close', ...)] of the websocket handler. *)
Definition subscribe (term ws : nat) : T unit := λ st,
  (inr (),
   update_term term (add_listener (WsSend ws))
     (set_sockets (alter (λ c, {| opened := opened c; received := received c;
                                  peer := Some term |}) ws (sockets st)) st)).

(** [app.ws('/terminals/:pid')], run with a websocket that has just been
    opened: reading [term.pid] of [undefined] is a [TypeError];
    [ws.send(undefined)] sends an empty frame. *)
Definition ws_connect (handle : option Z) : T unit := λ st,
  let ws := length (sockets st) in
  let st := set_sockets (sockets st ++ [{| opened := true; received := []; peer := None |}]) st in
  match get handle st ≫= (λ term, (term,.) <$> heap st !! term) with
  | None => (inl (TypeError "Cannot read property 'pid' of undefined"), st)
  | Some (term, t) =>
      t_bind (ws_send ws (default "" (logs st !! pid t)))
             (λ _, subscribe term ws) st
  end.

(** The process writes [data]: the [data] event of the term. *)
Definition term_data (term : nat) (data : string) : T unit := λ st,
  match heap st !! term with
  | Some t => emit (on_data t) data (update_term term (add_emitted data) st)
  | None => (inr (), st)
  end.

(** The [message] event of a websocket: [term.write(msg)]. *)
Definition ws_message (ws : nat) (msg : string) : T unit := λ st,
  match sockets st !! ws ≫= peer with
  | Some term => (inr (), update_term term (add_written msg) st)
  | None => (inr (), st)
  end.

(** The [close] event of a websocket: the transport is closed, then the
    listener kills the term and deletes both table entries. *)
Definition ws_close (ws : nat) : T unit := λ st,
  let st := set_sockets (alter (λ c, {| opened := false; received := received c;
                                        peer := peer c |}) ws (sockets st)) st in
  match sockets st !! ws ≫= peer with
  | Some term =>
      match heap st !! term with
      | Some t =>
          (inr (), set_logs (delete (pid t) (logs st))
                     (set_terminals (delete (pid t) (terminals st))
                        (update_term term kill st)))
      | None => (inr (), st)
      end
  | None => (inr (), st)
  end.

(** What happens to the server, one event at a time. *)
Inductive Event :=
| Open (task_id : string) (spawned : Error + Z)
| Resize (handle cols rows : option Z)
| Connect (handle : option Z)
| Data (term : nat) (data : string)
| Message (ws : nat) (msg : string)
| Close (ws : nat).

Definition handle (ev : Event) (st : State) : option Error * State :=
  let outcome {A} (r : (Error + A) * State) : option Error * State :=
    (match r.1 with inl e => Some e | inr _ => None end, r.2) in
  match ev with
  | Open task_id spawned => outcome (post_terminal task_id spawned st)
  | Resize h cols rows => outcome (post_size h cols rows st)
  | Connect h => outcome (ws_connect h st)
  | Data term data => outcome (term_data term data st)
  | Message ws msg => outcome (ws_message ws msg st)
  | Close ws => outcome (ws_close ws st)
  end.

(** The state the handlers leave stays, whether they threw or not. *)
Definition run (evs : list Event) (st : State) : State :=
  foldl (λ st ev, (handle ev st).2) st evs.

Definition init : State :=
  {| heap := []; sockets := []; terminals := ∅; logs := ∅ |}.

(** The bytes a process has emitted since it was spawned. *)
Definition history (t : Term) : string := foldr String.append "" (emitted t).

(** Whether [ws.send] would go through. *)
Definition writable (ws : nat) (st : State) : bool :=
  match sockets st !! ws with
  | Some c => opened c
  | None => false
  end.

(** The messages a websocket has carried to its client. *)
Definition inbox (ws : nat) (st : State) : option (list string) :=
  received <$> sockets st !! ws.

(** The chunks a term emits in the course of some events, in order. *)
Fixpoint data_of (term : nat) (evs : list Event) : list string :=
  match evs with
  | [] => []
  | Data term' data :: evs' =>
      if decide (term' = term) then data :: data_of term evs' else data_of term evs'
  | _ :: evs' => data_of term evs'
  end.

(** Whether the events hold the close of a websocket, or a spawn that
    takes a pid. *)
Definition closes (ws : nat) (ev : Event) : bool :=
  match ev with
  | Close ws' => bool_decide (ws' = ws)
  | _ => false
  end.

Definition spawns (p : Z) (ev : Event) : bool :=
  match ev with
  | Open task_id (inr p') => negb (String.eqb task_id "") && bool_decide (p' = p)
  | _ => false
  end.

(** The system gives a new process a pid no term of the run has had. *)
Definition admissible (ev : Event) (st : State) : Prop :=
  match ev with
  | Open _ (inr p) => ∀ t, t ∈ heap st → pid t ≠ p
  | _ => True
  end.

(** How many listeners of a list forward to a websocket. *)
Definition forwards (ws : nat) (ls : list DataListener) : nat :=
  length (filter (λ l, l = WsSend ws) ls).

(** A websocket is attached to a term, and to that term only: it is
    open, the term forwards to it once, no other term does. *)
Definition subscribed (ws term : nat) (st : State) : Prop :=
  writable ws st = true
  ∧ is_Some (heap st !! term)
  ∧ ∀ j tj, heap st !! j = Some tj →
      forwards ws (on_data tj) = if decide (j = term) then 1%nat else 0%nat.

(** What the tables and the listeners of every state of a run satisfy:
    a registered handle is the pid of its term and its log is what the
    term has emitted; no two terms share a pid; a term has its logging
    listener first, then forwarding listeners to websockets that exist. *)
Record invariant (st : State) : Prop := {
  inv_registered : ∀ p term, terminals st !! p = Some term →
    ∃ t, heap st !! term = Some t ∧ pid t = p ∧ logs st !! p = Some (history t);
  inv_pids : ∀ i j ti tj,
    heap st !! i = Some ti → heap st !! j = Some tj → pid ti = pid tj → i = j;
  inv_listeners : ∀ i t, heap st !! i = Some t →
    ∃ wss, on_data t = LogData i :: (WsSend <$> wss)
           ∧ Forall (λ ws, (ws < length (sockets st))%nat) wss }.

Inductive reachable : State → Prop :=
| reachable_init : reachable init
| reachable_step st ev :
    reachable st → admissible ev st → reachable (handle ev st).2.

End Terminals.

(** ** Sample data *)

Module Samples.
Import Sandbox.

Definition task_t1 : TaskInfo :=
  {| agent_url := "http://agent-1:5051";
     statuses := ["TASK_STARTING"; "TASK_RUNNING"];
     framework_id := "framework-1";
     container_id := "container-1";
     labels := ∅;
     task_user := Some "carol" |}.

(** A finished task: its last status is neither starting nor running. *)
Definition task_t2 : TaskInfo :=
  {| agent_url := "http://agent-1:5051";
     statuses := ["TASK_RUNNING"; "TASK_FINISHED"];
     framework_id := "framework-1";
     container_id := "container-2";
     labels := ∅;
     task_user := Some "carol" |}.

(** A cluster that knows the tasks [t-1] and [t-2], with the
    authorizations given. *)
Definition cluster (check : User → TaskInfo → option string → Async unit) :
    Collaborators (list string) string :=
  {| getTaskInfo := λ taskID _,
       if String.eqb taskID "t-1" then (inr task_t1, 3%N)
       else if String.eqb taskID "t-2" then (inr task_t2, 3%N)
       else (inl TaskNotFoundError, 3%N);
     getMesosSlaveState := λ _ _,
       (inr {| work_dir := "/var/lib/mesos"; slave_id := "agent-1" |}, 2%N);
     browseSandbox := λ _ _ _ _ _ _ _ _, (inr ["stdout"; "stderr"], 4%N);
     readSandboxFile := λ _ _ _ _ _ _ _ _ _ _,
       (inr {| payload := "hello"; eof := false |}, 4%N);
     CheckTaskAuthorization := check |}.

Definition env_on : EnvVars :=
  {| AUTHORIZATIONS_ENABLED := true;
     AUTHORIZE_ALL_SANDBOXES := false;
     SUPER_ADMINS := ["admins"] |}.

Definition request (u : User) (taskID : string) : Request :=
  {| user := u;
     query_taskID := taskID;
     query_access_token := Some "token";
     query_path := "stdout";
     query_offset := "0";
     query_size := "50";
     body_task_id := Some taskID |}.

Definition carol : User := {| cn := "carol"; memberOf := Some [] |}.

(** Carol as a directory without group attributes returns her. *)
Definition carol_without_groups : User := {| cn := "carol"; memberOf := None |}.

Definition world0 : Cache.World SandboxDescriptor :=
  {| Cache.now := 0; Cache.cache := ∅; Cache.fetched := [] |}.

(** Authorizations that let everybody in, and ones whose token check
    fails with an error of the token library. *)
Definition check_allows : User → TaskInfo → option string → Async unit :=
  λ _ _ _ _, (inr (), 1%N).
Definition check_breaks : User → TaskInfo → option string → Async unit :=
  λ _ _ _ _, (inl (OtherError "jwt malformed"), 1%N).
Definition check_denies : User → TaskInfo → option string → Async unit :=
  λ _ _ _ _, (inl (UnauthorizedAccessError "Unauthorized access to container."), 1%N).

End Samples.

(** ** Arrays and strings of the runtime *)

Module JS.

(** [array.indexOf(x)]: the first index at which [x] is found, or -1. *)
Fixpoint indexOf (x : string) (l : list string) : Z :=
  match l with
  | [] => -1
  | y :: l' =>
      if String.eqb y x then 0
      else let i := indexOf x l' in
           if bool_decide (i = -1) then -1 else i + 1
  end.

(** [s.split(sep)] for a separator of one character. *)
Fixpoint split (sep : Ascii.ascii) (s : string) : list string :=
  match s with
  | EmptyString => [EmptyString]
  | String c s' =>
      if Ascii.eqb c sep then EmptyString :: split sep s'
      else match split sep s' with
           | w :: ws => String c w :: ws
           | [] => [String c EmptyString]
           end
  end.

(** [array.join(sep)]. *)
Fixpoint join (sep : string) (l : list string) : string :=
  match l with
  | [] => ""
  | x :: l' =>
      match l' with
      | [] => x
      | _ :: _ => x +:+ sep +:+ join sep l'
      end
  end.

(** Whether a character occurs in a string. *)
Fixpoint occurs (c : Ascii.ascii) (s : string) : bool :=
  match s with
  | EmptyString => false
  | String c' s' => Ascii.eqb c' c || occurs c s'
  end.

Definition semicolon : Ascii.ascii := Ascii.ascii_of_nat 59.
Definition quote : string := String (Ascii.ascii_of_nat 34) EmptyString.

End JS.

(** ** The start of [src/app.js] and its middlewares *)

Module AppJs.

(** [process.exit(code)] after a line on the console. *)
Record Exit := { exit_code : Z; exit_message : string }.

(** [getOrExit(var_name)] on the environment of the process: an empty
    value counts as none. *)
Definition getOrExit (env : gmap string string) (var_name : string) : Exit + string :=
  match env !! var_name with
  | Some v =>
      if String.eqb v "" then
        inl {| exit_code := 1; exit_message := var_name +:+ " env var must be provided" |}
      else inr v
  | None =>
      inl {| exit_code := 1; exit_message := var_name +:+ " env var must be provided" |}
  end.

(** The top-level variables of the script. *)
Record Config := {
  MESOS_TASK_EXEC_PATH : string;
  SESSION_SECRET : string;
  LDAP_URL : string;
  LDAP_BASE_DN : string;
  LDAP_USER : string;
  LDAP_PASSWORD : string;
  allowed_groups : option (list string) }.

(** [LDAP_ALLOWED_GROUPS.split(';')], left undefined when the variable is
    not set or empty. *)
Definition read_allowed_groups (env : gmap string string) : option (list string) :=
  match env !! "LDAP_ALLOWED_GROUPS" with
  | Some v => if String.eqb v "" then None else Some (JS.split JS.semicolon v)
  | None => None
  end.

(** The six [getOrExit] calls in the order of the script, then the
    allowed groups. *)
Definition configure (env : gmap string string) : Exit + Config :=
  match getOrExit env "MESOS_TASK_EXEC_PATH" with inl e => inl e | inr v1 =>
  match getOrExit env "SESSION_SECRET" with inl e => inl e | inr v2 =>
  match getOrExit env "LDAP_URL" with inl e => inl e | inr v3 =>
  match getOrExit env "LDAP_BASE_DN" with inl e => inl e | inr v4 =>
  match getOrExit env "LDAP_USER" with inl e => inl e | inr v5 =>
  match getOrExit env "LDAP_PASSWORD" with inl e => inl e | inr v6 =>
    inr {| MESOS_TASK_EXEC_PATH := v1; SESSION_SECRET := v2; LDAP_URL := v3;
           LDAP_BASE_DN := v4; LDAP_USER := v5; LDAP_PASSWORD := v6;
           allowed_groups := read_allowed_groups env |}
  end end end end end end.

(** The variables [configure] asks for, in its order. *)
Definition required : list string :=
  ["MESOS_TASK_EXEC_PATH"; "SESSION_SECRET"; "LDAP_URL"; "LDAP_BASE_DN";
   "LDAP_USER"; "LDAP_PASSWORD"].

(** Whether a variable is set to a value that is not empty. *)
Definition provided (env : gmap string string) (var_name : string) : bool :=
  match env !! var_name with
  | Some v => negb (String.eqb v "")
  | None => false
  end.

(** [intersection(array1, array2)]. *)
Definition intersection (array1 array2 : list string) : list string :=
  filter (λ n, JS.indexOf n array2 ≠ -1) array1.

(** What [res.send] and [res.render] are given. *)
Inductive Content :=
| Text (s : string)
| Render (view task_id : string).

(** [res]: the status set, the headers set, and what was sent. *)
Record Res := {
  statusCode : Z;
  headers : list (string * string);
  sent : option (Z * Content) }.

(** [req]: what [basicAuth(req)] finds, [req.user] once passport has
    set it, [req.url] and [req.params.task_id]. *)
Record Req := {
  credentials : option (string * string);
  user : option Sandbox.User;
  url : string;
  task_id : string }.

Definition M (A : Type) : Type := Res → (Error + A) * Res.

Definition m_ret {A} (a : A) : M A := λ w, (inr a, w).

Definition m_bind {A B} (m : M A) (f : A → M B) : M B :=
  λ w, match m w with
       | (inl e, w') => (inl e, w')
       | (inr a, w') => f a w'
       end.

#[local] Instance M_ret : MRet M := @m_ret.
#[local] Instance M_bind : MBind M := λ A B f m, m_bind m f.

Definition throw {A} (e : Error) : M A := λ w, (inl e, w).

Definition status (code : Z) : M unit :=
  λ w, (inr (), {| statusCode := code; headers := headers w; sent := sent w |}).

Definition header (name value : string) : M unit :=
  λ w, (inr (), {| statusCode := statusCode w; headers := headers w ++ [(name, value)];
                   sent := sent w |}).

(** [res.send] and [res.render]; a response goes out once. *)
Definition send (c : Content) : M unit :=
  λ w, match sent w with
       | Some _ => (inl (OtherError "ERR_HTTP_HEADERS_SENT"), w)
       | None => (inr (), {| statusCode := statusCode w; headers := headers w;
                             sent := Some (statusCode w, c) |})
       end.

Definition fresh : Res := {| statusCode := 200; headers := []; sent := None |}.

(** [protectWithBasicAuth]. *)
Definition protectWithBasicAuth (req : Req) (next : M unit) : M unit :=
  match credentials req with
  | Some _ => next
  | None =>
      _ ← status 401;
      _ ← header "WWW-Authenticate"
            ("Basic realm=" +:+ JS.quote +:+ "must be authenticated" +:+ JS.quote);
      send (Text "Unauthorized")
  end.

(** [isUserAllowed(groups)]: an array, even an empty one, is true; the
    [filter] of [intersection] is called on [req.user.memberOf]. *)
Definition isUserAllowed (groups : option (list string)) (req : Req) (next : M unit) :
    M unit :=
  match groups with
  | None => next
  | Some groups =>
      match user req ≫= Sandbox.memberOf with
      | None => throw (TypeError "Cannot read property 'filter' of undefined")
      | Some memberOf =>
          if bool_decide (0 < length (intersection memberOf groups))%nat then next
          else _ ← status 403; send (Text "Unauthorized")
      end
  end.

(** Whether a user passes [isUserAllowed(groups)]: no groups are set, or
    one of the user's is among them. *)
Definition passes (groups : option (list string)) (u : Sandbox.User) : bool :=
  match groups with
  | None => true
  | Some groups =>
      match Sandbox.memberOf u with
      | Some memberOf => bool_decide (Exists (λ g, g ∈ groups) memberOf)
      | None => false
      end
  end.

Definition with_user (req : Req) (u : Sandbox.User) : Req :=
  {| credentials := credentials req; user := Some u; url := url req;
     task_id := task_id req |}.

Section guard.
(** [passport.authenticate('ldapauth', ...)]: it answers the request
    itself, or it sets [req.user] and hands over. *)
Variable authenticate : Req → Res → Res + Sandbox.User.

Definition passport_authenticate (req : Req) (next : Req → M unit) : M unit :=
  λ w, match authenticate req w with
       | inl w' => (inr (), w')
       | inr u => next (with_user req u) w
       end.

(** The three [app.use] in front of the routes, in their order. *)
Definition guard (groups : option (list string)) (req : Req) (route : Req → M unit) :
    M unit :=
  protectWithBasicAuth req
    (passport_authenticate req (λ req', isUserAllowed groups req' (route req'))).

End guard.

(** [app.get('/')], [app.get('/ping')] and [app.get('/:task_id')]. *)
Definition get_root : M unit := send (Text "Please provide a task ID like /mytask-id").
Definition get_ping : M unit := send (Text "pong").
Definition get_task (req : Req) : M unit :=
  if String.eqb (url req) "/favicon.ico" then status 404
  else match user req with
       | None => throw (TypeError "Cannot read property 'cn' of undefined")
       | Some _ => send (Render "index" (task_id req))
       end.

End AppJs.

(** ** The rest of [express_helpers.ts] *)

Module ExpressHelpers.
Import Sandbox.

(** What [app.set] stores under the two keys. *)
Inductive Setting (Logger : Type) :=
| SEnv (e : EnvVars)
| SLogger (l : Logger)
| SOther (v : string).
Arguments SEnv {_} _.
Arguments SLogger {_} _.
Arguments SOther {_} _.

Definition ENV_VARS_KEY : string := "env_vars".
Definition LOGGER_KEY : string := "logger".

Section settings.
Context {Logger : Type}.
Variable env : EnvVars.

(** [setup(app, logger)], on the settings table of [app]. *)
Definition setup (app : gmap string (Setting Logger)) (logger : Logger) :
    gmap string (Setting Logger) :=
  <[LOGGER_KEY := SLogger logger]> (<[ENV_VARS_KEY := SEnv env]> app).

(** [getEnv(req)] and [getLogger(req)], on the table of [req.app]. *)
Definition getEnv (app : gmap string (Setting Logger)) : option (Setting Logger) :=
  app !! ENV_VARS_KEY.
Definition getLogger (app : gmap string (Setting Logger)) : option (Setting Logger) :=
  app !! LOGGER_KEY.

End settings.

Section middlewares.
Context {Listing Payload : Type}.
Variable env : EnvVars.
(** [isSuperAdmin(cn, memberOf, superAdmins)] of [../authorizations]. *)
Variable isSuperAdmin : string → list string → list string → bool.

(** [SuperAdminsOnly]. *)
Definition SuperAdminsOnly (req : Request) (next : @H Listing Payload unit) :
    @H Listing Payload unit :=
  if truthy (Some (cn (user req)))
     && match memberOf (user req) with
        | Some groups => isSuperAdmin (cn (user req)) groups (SUPER_ADMINS env)
        | None => false
        end
  then next
  else h_bind (status 403) (λ _, send BEmpty).

End middlewares.
End ExpressHelpers.

(** ** The download route of the sandbox controller *)

Module Download.
Import Sandbox.


(** What the route reads and changes of [res]: the status set, whether
    the head of the response has gone out, and what [send] sent. *)
Record Res := {
  statusCode : Z;
  headersSent : bool;
  sent : option (Z * option string) }.

(** The two functions of [../mesos] that pipe into [res]: started at a
    clock reading with the response as it is, they settle after some
    latency and leave the response as they made it. *)
Record Streams := {
  downloadSandboxDirectory :
    string → string → string → string → string → string → string →
    Z → Res → (Error + unit) * N * Res;
  downloadSandboxFileAsStream :
    string → string → string → string → string → string → string →
    Z → Res → (Error + unit) * N * Res }.

(** [checkInvalidHeaderChar] of Node: a header value may hold the tab,
    the printable ASCII characters and the characters from 0x80 to 0xff.
    The characters of a string here are bytes; those above 0xff, which
    Node refuses too, are not among them. *)
Fixpoint checkInvalidHeaderChar (value : string) : bool :=
  match value with
  | EmptyString => false
  | String c rest =>
      let n := Ascii.nat_of_ascii c in
      negb (Nat.eqb n 9 || (Nat.leb 32 n && Nat.leb n 126) || Nat.leb 128 n)
      || checkInvalidHeaderChar rest
  end.

(** The calls the handler makes on [res] and to the outside, in order,
    those that throw among them. *)
Inductive Effect :=
| SetHeader (name value : string)
| DownloadDirectory (descriptor : SandboxDescriptor) (taskID path : string)
| DownloadFile (descriptor : SandboxDescriptor) (taskID path : string)
| EndResponse
| ConsoleError
| Status (code : Z)
| Send (body : option string).

Section route.
Context {Listing Payload : Type}.
Variable ext : Collaborators Listing Payload.
Variable streams : Streams.

(** The cache with its clock, the response, and the calls so far. *)
Record DWorld := {
  dcache : Cache.World SandboxDescriptor;
  dres : Res;
  effects : list Effect }.

Definition D (A : Type) : Type := DWorld → (Error + A) * DWorld.

Definition d_bind {A B} (m : D A) (f : A → D B) : D B :=
  λ w, match m w with
       | (inl e, w') => (inl e, w')
       | (inr a, w') => f a w'
       end.


#[local] Instance D_ret : MRet D := λ A a w, (inr a, w).

Definition effect (e : Effect) : D unit :=
  λ w, (inr (), {| dcache := dcache w; dres := dres w; effects := effects w ++ [e] |}).

Definition set_res (r : Res) (w : DWorld) : DWorld :=
  {| dcache := dcache w; dres := r; effects := effects w |}.

(** [res.set(name, value)]: [setHeader] throws once the head of the
    response has gone out, and else when the value holds a character
    that no header may hold. *)
Definition set (name value : string) : D unit :=
  d_bind (effect (SetHeader name value)) (λ _ w,
       if headersSent (dres w) then (inl (OtherError "ERR_HTTP_HEADERS_SENT"), w)
       else if checkInvalidHeaderChar value then (inl (TypeError "ERR_INVALID_CHAR"), w)
       else (inr (), w)).

(** [res.status(code)]. *)
Definition status (code : Z) : D unit :=
  d_bind (effect (Status code)) (λ _ w,
    (inr (), set_res {| statusCode := code; headersSent := headersSent (dres w);
                        sent := sent (dres w) |} w)).

(** [res.send(body)]. Once the head has gone out a text makes [send]
    set a header, which throws, and [send()] sets none and returns. *)
Definition send (body : option string) : D unit :=
  d_bind (effect (Send body)) (λ _ w,
    if headersSent (dres w) then
      match body with
      | Some _ => (inl (OtherError "ERR_HTTP_HEADERS_SENT"), w)
      | None => (inr (), w)
      end
    else (inr (), set_res {| statusCode := statusCode (dres w); headersSent := true;
                             sent := Some (statusCode (dres w), body) |} w)).







(** The status and the text the [catch] block has for an error. *)
Definition answer (err : Error) : Z * option string :=
  match err with
  | MesosAgentNotFoundError => (400, Some "Mesos agent not found")
  | FileNotFoundError => (404, Some "File not found")
  | UnauthorizedAccessError _ => (403, Some "Unauthorized")
  | TaskNotFoundError => (404, Some "Task not found")
  | _ => (503, None)
  end.

End route.
End Download.

(** ** The terminal page ([controllers/get_task_id.ts]) *)

Module GetTaskId.

(** What the controller reads of a [Task]. *)
Record Task := {
  labels : gmap string string;
  task_user : option string }.

Inductive Page :=
| Rendered (view task_id user : string)
| Message (text : string).

(** What [isUserAllowedToDebug(req, res, next)] does: it calls [next],
    answers the request itself, or throws. *)
Inductive Verdict :=
| Pass
| Answer (code : Z) (text : string)
| Raise (e : Error).

(** The two tables behind [getAdminsByTaskId] and [getUserByTaskId], the
    response, and the requests the logger was given. *)
Record World := {
  now : Z;
  adminsByTaskId : gmap string (list string);
  userByTaskId : gmap string string;
  statusCode : Z;
  sent : option (Z * Page);
  logged : list string }.

Record Req := {
  url : string;
  task_id : string;
  user : Sandbox.User }.

Section controller.
(** [Constants.DEBUG_ALLOWED_TO_KEY]. *)
Variable DEBUG_ALLOWED_TO_KEY : string.
Variable getTaskInfo : string → Async Task.
Variable isUserAllowedToDebug :
  gmap string (list string) → gmap string string → Req → Verdict.

Definition C (A : Type) : Type := World → (Error + A) * World.

Definition c_bind {A B} (m : C A) (f : A → C B) : C B :=
  λ w, match m w with
       | (inl e, w') => (inl e, w')
       | (inr a, w') => f a w'
       end.

(** [promise.catch(h)]: a rejection and what the [then] callback throws
    both end in [h]. *)
Definition c_catch {A} (m : C A) (h : Error → C A) : C A :=
  λ w, match m w with
       | (inl e, w') => h e w'
       | (inr a, w') => (inr a, w')
       end.

#[local] Instance C_ret : MRet C := λ A a w, (inr a, w).
#[local] Instance C_bind : MBind C := λ A B f m, c_bind m f.

Definition c_throw {A} (e : Error) : C A := λ w, (inl e, w).

Definition c_await {A} (p : Async A) : C A :=
  λ w, match p (now w) with
       | (r, d) =>
           (r, {| now := now w + Z.of_N d; adminsByTaskId := adminsByTaskId w;
                  userByTaskId := userByTaskId w; statusCode := statusCode w;
                  sent := sent w; logged := logged w |})
       end.

Definition c_status (code : Z) : C unit :=
  λ w, (inr (), {| now := now w; adminsByTaskId := adminsByTaskId w;
                   userByTaskId := userByTaskId w; statusCode := code;
                   sent := sent w; logged := logged w |}).

Definition c_send (p : Page) : C unit :=
  λ w, match sent w with
       | Some _ => (inl (OtherError "ERR_HTTP_HEADERS_SENT"), w)
       | None =>
           (inr (), {| now := now w; adminsByTaskId := adminsByTaskId w;
                       userByTaskId := userByTaskId w; statusCode := statusCode w;
                       sent := Some (statusCode w, p); logged := logged w |})
       end.

Definition c_log (task_id : string) : C unit :=
  λ w, (inr (), {| now := now w; adminsByTaskId := adminsByTaskId w;
                   userByTaskId := userByTaskId w; statusCode := statusCode w;
                   sent := sent w; logged := logged w ++ [task_id] |}).

Definition set_admins (task_id : string) (admins : list string) : C unit :=
  λ w, (inr (), {| now := now w;
                   adminsByTaskId := <[task_id := admins]> (adminsByTaskId w);
                   userByTaskId := userByTaskId w; statusCode := statusCode w;
                   sent := sent w; logged := logged w |}).

Definition set_user (task_id : string) (u : string) : C unit :=
  λ w, (inr (), {| now := now w; adminsByTaskId := adminsByTaskId w;
                   userByTaskId := <[task_id := u]> (userByTaskId w);
                   statusCode := statusCode w; sent := sent w; logged := logged w |}).

(** [renderTerminal]: [task.user || '(no user)']. *)
Definition renderTerminal (req : Req) (task : Task) : C unit :=
  _ ← c_log (task_id req);
  c_send (Rendered "index" (task_id req)
            (if Sandbox.truthy (task_user task) then default "" (task_user task)
             else "(no user)")).

Definition on_error (err : Error) : C unit :=
  c_send (Message "Error while retrieving task labels.").

(** [isUserAllowedToDebug(req, res, function() { renderTerminal(...) })],
    which reads the two tables. *)
Definition debug_or_refuse (req : Req) (task : Task) : C unit :=
  λ w, match isUserAllowedToDebug (adminsByTaskId w) (userByTaskId w) req with
       | Pass => renderTerminal req task w
       | Answer code text => c_bind (c_status code) (λ _, c_send (Message text)) w
       | Raise e => (inl e, w)
       end.

(** [authenticated]. *)
Definition authenticated (req : Req) : C unit :=
  if String.eqb (url req) "/favicon.ico" then c_status 404
  else
    c_catch
      (task ← c_await (getTaskInfo (task_id req));
       _ ← match labels task !! DEBUG_ALLOWED_TO_KEY with
           | Some label => set_admins (task_id req) (JS.split Authorizations.comma label)
           | None => mret ()
           end;
       _ ← (if Sandbox.truthy (task_user task)
            then set_user (task_id req) (default "" (task_user task))
            else mret ());
       debug_or_refuse req task)
      on_error.

(** [anonymous]. *)
Definition anonymous (req : Req) : C unit :=
  c_catch
    (task ← c_await (getTaskInfo (task_id req));
     renderTerminal req task)
    on_error.

Definition fresh (admins : gmap string (list string)) (users : gmap string string) : World :=
  {| now := 0; adminsByTaskId := admins; userByTaskId := users; statusCode := 200;
     sent := None; logged := [] |}.

End controller.
End GetTaskId.

(** ** What the terminal page records and shows *)

Module GetTaskIdTables.
Import GetTaskId.

(** [task.user || '(no user)']. *)
Definition shown (task : Task) : string :=
  if Sandbox.truthy (task_user task) then default "" (task_user task) else "(no user)".

Section tables.
Variable DEBUG_ALLOWED_TO_KEY : string.

(** The two tables once the [then] callback of [authenticated] has
    written the task of the request into them. *)
Definition recorded_admins (req : Req) (task : Task) (w : World) :
    gmap string (list string) :=
  match labels task !! DEBUG_ALLOWED_TO_KEY with
  | Some label => <[task_id req := JS.split Authorizations.comma label]> (adminsByTaskId w)
  | None => adminsByTaskId w
  end.

Definition recorded_users (req : Req) (task : Task) (w : World) : gmap string string :=
  if Sandbox.truthy (task_user task)
  then <[task_id req := default "" (task_user task)]> (userByTaskId w)
  else userByTaskId w.

End tables.

(** A task labelled for two administrators, and a visitor of its page. *)
Definition labelled : Task :=
  {| labels := {[ "DEBUG_GRANTED_TO" := "alice,bob" ]}; task_user := Some "root" |}.

Definition visitor : Req :=
  {| url := "/t1"; task_id := "t1"; user := Samples.carol |}.

End GetTaskIdTables.

(** ** Where the entries of the cache come from *)

Module CacheHistory.
Import Cache.

Section history.
Context {D : Type}.
Variable fetcher : string → Async D.

(** Every entry holds what the fetcher resolved to for its own task ID,
    in a call begun at [since] or later and settled by now, and expires
    [ttl] after that call settled. *)
Definition stored_by (since : Z) (w : World D) : Prop :=
  ∀ (taskID : string) (e : Entry D),
    cache w !! taskID = Some e →
    ∃ (t : Z) (d : N),
      fetcher taskID t = (inr (locator e), d)
      ∧ since ≤ t
      ∧ t + Z.of_N d ≤ now w
      ∧ expireAt e = t + Z.of_N d + ttl.

(** Whether an event is a call for the given task ID. *)
Definition resolves (taskID : string) (ev : Event) : bool :=
  match ev with
  | Resolve k => bool_decide (k = taskID)
  | _ => false
  end.

End history.
End CacheHistory.

(** ** How a request to a sandbox route ends *)

Module SandboxOutcomes.
Import Sandbox.

Section outcomes.
Context {Listing Payload : Type}.

(** One answer went to the client and no second one. Either it went
    under one of the statuses the handlers set and the handler returned;
    or it is the 500 of the middleware, after which the route ran on the
    answered response: the route then returns, or its [catch] throws on
    the [send] of a text. *)
Definition answered (r : (Error + unit) * @HWorld Listing Payload) : Prop :=
  ∃ (code : Z) (body : Body Listing Payload),
    sent (res r.2) = Some (code, body)
    ∧ (r.1 = inr () ∧ code ∈ [200; 400; 403; 404; 503]
       ∨ code = 500 ∧ body = BEmpty
         ∧ (r.1 = inr () ∨ r.1 = inl (OtherError "ERR_HTTP_HEADERS_SENT"))).

End outcomes.
End SandboxOutcomes.

(** ** Runs of the terminal server *)

Module Sessions.
Import Terminals.

(** Every event of a run is admissible in the state it meets. *)
Fixpoint admissible_run (evs : list Event) (st : State) : Prop :=
  match evs with
  | [] => True
  | ev :: evs' => admissible ev st ∧ admissible_run evs' (handle ev st).2
  end.

(** A term is registered under its pid exactly as long as [kill] has
    not been called on it. *)
Definition registered_while_alive (st : State) : Prop :=
  ∀ i t, heap st !! i = Some t →
    (killed t = false ↔ terminals st !! pid t = Some i).

(** What a client has seen of a session, its messages put end to end. *)
Definition seen (messages : list string) : string :=
  foldr String.append "" messages.

End Sessions.

(** * Properties *)

(** ** The descriptor cache *)

Module CacheFacts.
Import Cache.

Section facts.
Context {D : Type}.
Variable fetcher : string → Async D.
Implicit Types (w : World D) (e : Entry D) (c : gmap string (Entry D)).

Lemma elapse_0 w : elapse 0 w = w.
Proof. destruct w. unfold elapse; simpl. f_equal. lia. Qed.

Lemma lookup_foldl_delete c (ks : list string) (k : string) :
  foldl (λ c taskID, delete taskID c) c ks !! k
  = if decide (k ∈ ks) then None else c !! k.
Proof.
  revert c. induction ks as [|k' ks IH]; intros c.
  - case_decide as Hin; [by apply elem_of_nil in Hin | done].
  - cbn [foldl]. rewrite IH.
    destruct (decide (k ∈ ks)) as [Hin|Hin].
    + by rewrite decide_True by set_solver.
    + destruct (decide (k = k')) as [->|Hne].
      * by rewrite lookup_delete_eq, decide_True by set_solver.
      * rewrite lookup_delete_ne by done.
        rewrite decide_False; [done|]. by intros [?|?]%elem_of_cons.
Qed.

Lemma elem_of_expiredTaskIDs (t : Z) c (k : string) :
  k ∈ expiredTaskIDs t c ↔ ∃ e, c !! k = Some e ∧ expireAt e < t.
Proof.
  unfold expiredTaskIDs. rewrite list_elem_of_fmap. split.
  - intros [[k' e] [-> [Hlt Hin]%list_elem_of_filter]]. simpl in *.
    exists e. by apply elem_of_map_to_list in Hin.
  - intros (e & Hk & Hlt). exists (k, e). split; [done|].
    apply list_elem_of_filter. split; [done|]. by apply elem_of_map_to_list.
Qed.

(** The sweep deletes the entries that have expired and no other. *)
Lemma lookup_clearExpiredEntries w (k : string) :
  cache (clearExpiredEntries w) !! k
  = match cache w !! k with
    | Some e => if decide (expireAt e < now w) then None else Some e
    | None => None
    end.
Proof.
  unfold clearExpiredEntries; simpl. rewrite lookup_foldl_delete.
  destruct (decide (k ∈ _)) as [Hin|Hin].
  - apply elem_of_expiredTaskIDs in Hin as (e & -> & Hlt).
    by rewrite decide_True.
  - destruct (cache w !! k) as [e|] eqn:Hk; [|done].
    rewrite decide_False; [done|]. intros Hlt. apply Hin.
    apply elem_of_expiredTaskIDs. eauto.
Qed.

Lemma resolve_hit w (taskID : string) e :
  cache w !! taskID = Some e → now w < expireAt e →
  resolve fetcher taskID w = (inr (locator e), w).
Proof.
  intros He Hlt. unfold resolve. rewrite He.
  rewrite bool_decide_eq_true_2; [done | lia].
Qed.

Lemma resolve_expired w (taskID : string) e :
  cache w !! taskID = Some e → expireAt e ≤ now w →
  resolve fetcher taskID w = refetch fetcher taskID w.
Proof.
  intros He Hle. unfold resolve. rewrite He.
  rewrite bool_decide_eq_false_2; [done | lia].
Qed.

Lemma resolve_absent w (taskID : string) :
  cache w !! taskID = None →
  resolve fetcher taskID w = refetch fetcher taskID w.
Proof. intros He. unfold resolve. by rewrite He. Qed.

Lemma resolve_live w (taskID : string) :
  resolve fetcher taskID w
  = match live w taskID with
    | Some e => (inr (locator e), w)
    | None => refetch fetcher taskID w
    end.
Proof.
  unfold resolve, live. destruct (cache w !! taskID) as [e|]; [|done].
  by destruct (bool_decide _).
Qed.

Lemma live_elapse w (d : N) (taskID : string) :
  live (elapse d w) taskID
  = match live w taskID with
    | Some e => if bool_decide (expireAt e > now w + Z.of_N d) then Some e else None
    | None => None
    end.
Proof.
  unfold live, elapse; simpl. destruct (cache w !! taskID) as [e|]; [|done].
  repeat case_bool_decide; try done; lia.
Qed.

Lemma live_clearExpiredEntries w (taskID : string) :
  live (clearExpiredEntries w) taskID = live w taskID.
Proof.
  unfold live. rewrite lookup_clearExpiredEntries.
  destruct (cache w !! taskID) as [e|]; [|done]. simpl.
  destruct (decide (expireAt e < now w)); repeat case_bool_decide; try done; lia.
Qed.

Lemma agree_refl w : agree w w.
Proof. by repeat split. Qed.

Lemma agree_sym w1 w2 : agree w1 w2 → agree w2 w1.
Proof. intros (?&?&?). by repeat split. Qed.

Lemma agree_trans w1 w2 w3 : agree w1 w2 → agree w2 w3 → agree w1 w3.
Proof.
  intros (?&?&H12) (?&?&H23). repeat split; [congruence..|].
  intros k. by rewrite H12.
Qed.

Lemma agree_clearExpiredEntries w : agree (clearExpiredEntries w) w.
Proof. repeat split. apply live_clearExpiredEntries. Qed.

Lemma agree_elapse w1 w2 (d : N) :
  agree w1 w2 → agree (elapse d w1) (elapse d w2).
Proof.
  intros (Hn & Hf & Hl). repeat split; simpl; [congruence | done |].
  intros k. by rewrite !live_elapse, Hl, Hn.
Qed.

Lemma live_insert_fresh (t : Z) (f : list string) c (taskID k : string) (res : D) :
  live {| now := t; cache := <[taskID := {| expireAt := t + ttl; locator := res |}]> c;
          fetched := f |} k
  = if decide (taskID = k) then Some {| expireAt := t + ttl; locator := res |}
    else live {| now := t; cache := c; fetched := f |} k.
Proof.
  unfold live; simpl. destruct (decide (taskID = k)) as [->|Hne].
  - rewrite lookup_insert_eq. rewrite bool_decide_eq_true_2; [done|]. simpl. unfold ttl. lia.
  - by rewrite lookup_insert_ne.
Qed.

Lemma agree_refetch w1 w2 (taskID : string) :
  agree w1 w2 →
  (refetch fetcher taskID w1).1 = (refetch fetcher taskID w2).1
  ∧ agree (refetch fetcher taskID w1).2 (refetch fetcher taskID w2).2.
Proof.
  intros Hag. pose proof (agree_elapse _ _ (fetcher taskID (now w1)).2 Hag) as Hel.
  destruct w1 as [t c1 f], w2 as [t2 c2 f2], Hag as (Hn & Hf & Hl).
  destruct Hel as (_ & _ & Hl'). simpl in *. subst t2 f2.
  unfold refetch; simpl.
  destruct (fetcher taskID t) as [[err|res] d]; simpl in *.
  - split; [done|]. repeat split; simpl. exact Hl'.
  - split; [done|]. repeat split; simpl.
    intros k. rewrite !live_insert_fresh. destruct (decide _); [done|].
    exact (Hl' k).
Qed.

Lemma agree_resolve w1 w2 (taskID : string) :
  agree w1 w2 →
  (resolve fetcher taskID w1).1 = (resolve fetcher taskID w2).1
  ∧ agree (resolve fetcher taskID w1).2 (resolve fetcher taskID w2).2.
Proof.
  intros Hag. rewrite !resolve_live. pose proof Hag as (_ & _ & Hl).
  rewrite <- Hl. destruct (live w1 taskID); [done|]. by apply agree_refetch.
Qed.

Lemma without_sweeps_cons (ev : Event) (evs : list Event) :
  without_sweeps (ev :: evs)
  = if is_sweep ev then without_sweeps evs else ev :: without_sweeps evs.
Proof. by destruct ev. Qed.

Lemma agree_run (evs : list Event) w1 w2 :
  agree w1 w2 →
  (run fetcher evs w1).1 = (run fetcher (without_sweeps evs) w2).1
  ∧ agree (run fetcher evs w1).2 (run fetcher (without_sweeps evs) w2).2.
Proof.
  revert w1 w2. induction evs as [|ev evs IH]; intros w1 w2 Hag; [done|].
  rewrite without_sweeps_cons.
  destruct ev as [d| |taskID]; cbn [is_sweep run step].
  - destruct (IH _ _ (agree_elapse _ _ d Hag)) as [Hr Ha].
    destruct (run fetcher evs _), (run fetcher (without_sweeps evs) _); done.
  - destruct (IH (clearExpiredEntries w1) w2) as [Hr Ha].
    { eapply agree_trans; [apply agree_clearExpiredEntries | done]. }
    destruct (run fetcher evs _), (run fetcher (without_sweeps evs) _); done.
  - destruct (agree_resolve _ _ taskID Hag) as [Hr Ha].
    destruct (resolve fetcher taskID w1) as [r1 w1'],
             (resolve fetcher taskID w2) as [r2 w2']. simpl in *. subst r2.
    destruct (IH _ _ Ha) as [Hr' Ha'].
    destruct (run fetcher evs _), (run fetcher (without_sweeps evs) _).
    simpl in *. by subst.
Qed.

Lemma refetch_spec w (taskID : string) :
  let w' := (refetch fetcher taskID w).2 in
  (refetch fetcher taskID w).1 = (fetcher taskID (now w)).1
  ∧ fetched w' = fetched w ++ [taskID]
  ∧ now w' = now w + Z.of_N (fetcher taskID (now w)).2
  ∧ match (fetcher taskID (now w)).1 with
    | inr res =>
        cache w' = <[taskID := {| expireAt := now w' + 10000; locator := res |}]> (cache w)
    | inl _ => cache w' = cache w
    end.
Proof.
  unfold refetch. by destruct (fetcher taskID (now w)) as [[err|res] d].
Qed.

(** C2. A call of [resolve] that finds an entry stored less than 10 s
    ago returns the descriptor of that entry and leaves the world as it
    was: the fetcher is not called, and so it is for every later call
    inside these 10 s. A call that comes 10 s or more after the entry was
    stored calls the fetcher once; when the fetcher resolves, its
    descriptor is returned and stored with [expireAt] 10 s after the
    clock reading at that moment, so that a second call less than 10 s
    later is served the same descriptor without a fetch; when the fetcher
    rejects, the [cache] object is left as it was. *)
Theorem resolve_fresh_or_refetch w (taskID : string) e (stored : Z) :
  cache w !! taskID = Some e →
  expireAt e = stored + 10000 →
  if decide (now w - stored < 10000) then
    resolve fetcher taskID w = (inr (locator e), w)
    ∧ ∀ d : N, now w + Z.of_N d - stored < 10000 →
        resolve fetcher taskID (elapse d w) = (inr (locator e), elapse d w)
  else
    let w' := (resolve fetcher taskID w).2 in
    (resolve fetcher taskID w).1 = (fetcher taskID (now w)).1
    ∧ fetched w' = fetched w ++ [taskID]
    ∧ now w' = now w + Z.of_N (fetcher taskID (now w)).2
    ∧ match (fetcher taskID (now w)).1 with
      | inr res =>
          cache w' = <[taskID := {| expireAt := now w' + 10000; locator := res |}]> (cache w)
          ∧ ∀ d : N, Z.of_N d < 10000 →
              resolve fetcher taskID (elapse d w') = (inr res, elapse d w')
      | inl _ => cache w' = cache w
      end.
Proof.
  intros He Hst. destruct (decide _) as [Hlt|Hge].
  - split; [apply resolve_hit; [done | lia]|].
    intros d Hd. apply (resolve_hit (elapse d w) taskID e); simpl; [done | lia].
  - rewrite (resolve_expired w taskID e) by (done || lia).
    destruct (refetch_spec w taskID) as (Hr & Hf & Hn & Hc).
    repeat (split; [done|]).
    destruct ((fetcher taskID (now w)).1) as [err|res]; [done|].
    split; [done|]. intros d Hd.
    set (w' := (refetch fetcher taskID w).2) in *.
    pose proof (resolve_hit (elapse d w') taskID
                  {| expireAt := now w' + 10000; locator := res |}) as Hhit.
    simpl in Hhit. apply Hhit; [|lia].
    by rewrite Hc, lookup_insert_eq.
Qed.

(** C9. The sweep deletes the entries whose [expireAt] lies before the
    clock reading and keeps every other entry; and no caller can tell
    whether it has run: a call of [resolve] made at any time after a
    sweep returns what it would have returned without the sweep, and a
    whole schedule of calls, sweeps and waiting returns the same values,
    in the same order, as the schedule in which the interval never
    fires. *)
Theorem sweep_is_advisory w (evs : list Event) :
  (∀ taskID : string,
     cache (clearExpiredEntries w) !! taskID
     = match cache w !! taskID with
       | Some e => if decide (expireAt e < now w) then None else Some e
       | None => None
       end)
  ∧ (∀ (taskID : string) (d : N),
       (resolve fetcher taskID (elapse d (clearExpiredEntries w))).1
       = (resolve fetcher taskID (elapse d w)).1)
  ∧ (run fetcher evs w).1 = (run fetcher (without_sweeps evs) w).1.
Proof.
  split; [apply lookup_clearExpiredEntries|]. split.
  - intros taskID d. apply agree_resolve, agree_elapse, agree_clearExpiredEntries.
  - apply agree_run, agree_refl.
Qed.

End facts.

(** A cache of numbers whose fetcher answers [7] after 5 ms, holding for
    task [t-1] the value [1], stored at 0 and read at 9 s. *)
Lemma resolve_fresh_or_refetch_witness :
  let fetcher : string → Async nat := λ _ _, (inr 7%nat, 5%N) in
  let w := {| now := 9000;
              cache := {[ "t-1" := {| expireAt := 10000; locator := 1%nat |} ]};
              fetched := [] |} in
  resolve fetcher "t-1" w = (inr 1%nat, w).
Proof.
  intros fetcher w.
  exact (proj1 (resolve_fresh_or_refetch fetcher w "t-1"
                  {| expireAt := 10000; locator := 1%nat |} 0 eq_refl eq_refl)).
Defined.

End CacheFacts.

(** ** The sandbox controller *)

Module SandboxFacts.
Import Sandbox.

Section facts.
Context {Listing Payload : Type}.
Variable env : EnvVars.
Variable ext : Collaborators Listing Payload.
Implicit Types (w : @HWorld Listing Payload) (req : Request).

(** Resolving a descriptor leaves the response and the call log alone. *)
Lemma sandboxCache_frame (taskID : string) w :
  res (sandboxCache ext taskID w).2 = res w
  ∧ calls (sandboxCache ext taskID w).2 = calls w.
Proof.
  unfold sandboxCache. by destruct (Cache.resolve _ _ _).
Qed.

Lemma sandboxCache_res (taskID : string) w r w1 :
  sandboxCache ext taskID w = (r, w1) → res w1 = res w ∧ calls w1 = calls w.
Proof.
  intros Heq. pose proof (sandboxCache_frame taskID w) as Hf.
  by rewrite Heq in Hf.
Qed.

(** The authorization step of the gateway does not touch the response. *)
Lemma gateway_try_res req w : res (gateway_try env ext req w).2 = res w.
Proof.
  unfold gateway_try. destruct (_ && _); [|done].
  unfold mbind, H_bind, h_bind.
  destruct (sandboxCache ext (query_taskID req) w) as [[err|sb] w1] eqn:Hsb;
    apply sandboxCache_res in Hsb as [Hres _]; [done|].
  simpl. unfold await; simpl.
  by destruct (CheckTaskAuthorization ext _ _ _ _) as [[err|[]] d].
Qed.

(** With enforcement switched off, or every sandbox exempt, the gateway
    asks nothing and hands over. *)
Lemma gateway_try_exempt req w :
  AUTHORIZATIONS_ENABLED env && negb (AUTHORIZE_ALL_SANDBOXES env) = false →
  gateway_try env ext req w = (inr FellThrough, w).
Proof. intros Hoff. unfold gateway_try. by rewrite Hoff. Qed.

(** When the authorization step rejects. For the three errors the
    gateway maps, the response is sent and the handler returns: the
    route behind it is not run, whatever it is. For every other error
    the answer is 500 and the route is run all the same. *)
Lemma gateway_on_rejection req (next : H unit) w err w1 :
  gateway_try env ext req w = (inl err, w1) →
  sent (res w) = None →
  match err with
  | MesosAgentNotFoundError =>
      gateway env ext req next w
      = (inr (), {| cw := cw w1;
                    res := {| statusCode := 400;
                              sent := Some (400, BText "Mesos agent not found") |};
                    calls := calls w1 ++ [CConsoleError] |})
  | UnauthorizedAccessError _ =>
      gateway env ext req next w
      = (inr (), {| cw := cw w1;
                    res := {| statusCode := 403; sent := Some (403, BText "Unauthorized") |};
                    calls := calls w1 ++ [CConsoleError] |})
  | TaskNotFoundError =>
      gateway env ext req next w
      = (inr (), {| cw := cw w1;
                    res := {| statusCode := 404; sent := Some (404, BText "Task not found") |};
                    calls := calls w1 ++ [CConsoleError] |})
  | _ =>
      gateway env ext req next w
      = next {| cw := cw w1;
                res := {| statusCode := 500; sent := Some (500, BEmpty) |};
                calls := calls w1 ++ [CConsoleError; CNext] |}
  end.
Proof.
  intros Htry Hfresh. pose proof (gateway_try_res req w) as Hres.
  rewrite Htry in Hres; simpl in Hres.
  unfold gateway, mbind, H_bind, h_bind, try_catch. rewrite Htry.
  destruct err; unfold gateway_catch, mbind, H_bind, h_bind, log, status, send;
    simpl; rewrite Hres, Hfresh; simpl; by rewrite <- ?(assoc_L (++)).
Qed.

(** When the authorization step goes through, the route is run next. *)
Lemma gateway_passes req (next : H unit) w w1 :
  gateway_try env ext req w = (inr FellThrough, w1) →
  gateway env ext req next w
  = next {| cw := cw w1; res := res w1; calls := calls w1 ++ [CNext] |}.
Proof.
  intros Htry. unfold gateway, mbind, H_bind, h_bind, try_catch. by rewrite Htry.
Qed.

(** [AllowConfiguredUsers], the middleware of the terminal routes, ends
    every branch of its [catch] with a [return]: whatever the lookup of
    the task or the authorizations reject with, the answer is 403 and
    the route is not run. *)
Lemma AllowConfiguredUsers_stops req (next : H unit) w (err : Error) :
  sent (res w) = None →
  cn (user req) ≠ "" →
  is_Some (memberOf (user req)) →
  truthy (body_task_id req) = true →
  (let lookup := getTaskInfo ext (default "" (body_task_id req)) (Cache.now (cw w)) in
   lookup.1 = inl err
   ∨ ∃ t, lookup.1 = inr t
          ∧ (CheckTaskAuthorization ext (user req) t None
               (Cache.now (cw w) + Z.of_N lookup.2)).1 = inl err) →
  (AllowConfiguredUsers ext req next w).1 = inr ()
  ∧ sent (res (AllowConfiguredUsers ext req next w).2) = Some (403, BEmpty)
  ∧ CNext ∉ drop (length (calls w)) (calls (AllowConfiguredUsers ext req next w).2).
Proof.
  intros Hfresh Hcn Hgroups Hid Hrej. unfold AllowConfiguredUsers.
  rewrite bool_decide_eq_true_2 by done. simpl.
  apply String.eqb_neq in Hcn. rewrite Hcn, Hid. simpl.
  unfold mbind, H_bind, h_bind, try_catch, await, log, status, send. simpl in *.
  destruct (getTaskInfo ext _ _) as [[e|t] d]; simpl in *.
  - rewrite Hfresh. simpl. rewrite drop_app_length.
    split; [done|]. split; [done|]. by intros [?|?%elem_of_nil]%elem_of_cons.
  - destruct Hrej as [[=]|(t' & [= <-] & Hcheck)].
    destruct (CheckTaskAuthorization ext _ _ _ _) as [[e|[]] d']; [|done].
    simpl. rewrite Hfresh. simpl. rewrite <- (assoc_L (++)), drop_app_length.
    split; [done|]. split; [done|].
    by intros [?|[?|?%elem_of_nil]%elem_of_cons]%elem_of_cons.
Qed.

(** What the routes answer to an error, by its class. *)
Lemma route_catch_spec (err : Error) w :
  sent (res w) = None →
  route_catch err w
  = (inr (),
     {| cw := cw w;
        res := match err with
               | MesosAgentNotFoundError =>
                   {| statusCode := 400; sent := Some (400, BText "Mesos agent not found") |}
               | FileNotFoundError =>
                   {| statusCode := 404; sent := Some (404, BText "File not found") |}
               | UnauthorizedAccessError _ =>
                   {| statusCode := 403; sent := Some (403, BText "Unauthorized") |}
               | TaskNotFoundError =>
                   {| statusCode := 404; sent := Some (404, BText "Task not found") |}
               | _ => {| statusCode := 503; sent := Some (503, BEmpty) |}
               end;
        calls := calls w ++ [CConsoleError] |}).
Proof.
  intros Hfresh.
  destruct err; unfold route_catch, mbind, H_bind, h_bind, log, status, send;
    simpl; by rewrite Hfresh.
Qed.

Lemma gateway_catch_spec (err : Error) w :
  sent (res w) = None →
  gateway_catch err w
  = (inr match err with
         | MesosAgentNotFoundError | UnauthorizedAccessError _ | TaskNotFoundError => Returned
         | _ => FellThrough
         end,
     {| cw := cw w;
        res := match err with
               | MesosAgentNotFoundError =>
                   {| statusCode := 400; sent := Some (400, BText "Mesos agent not found") |}
               | UnauthorizedAccessError _ =>
                   {| statusCode := 403; sent := Some (403, BText "Unauthorized") |}
               | TaskNotFoundError =>
                   {| statusCode := 404; sent := Some (404, BText "Task not found") |}
               | _ => {| statusCode := 500; sent := Some (500, BEmpty) |}
               end;
        calls := calls w ++ [CConsoleError] |}).
Proof.
  intros Hfresh.
  destruct err; unfold gateway_catch, mbind, H_bind, h_bind, log, status, send;
    simpl; by rewrite Hfresh.
Qed.

(** The steps before [res.send] in a route leave the response unsent. *)
Lemma await_res {A} (p : Async A) w : res (await p w).2 = res w.
Proof. unfold await. by destruct (p _). Qed.

Lemma read_settles req w :
  sent (res w) = None → (read ext req w).1 = inr ().
Proof.
  intros Hfresh. unfold read, try_catch, mbind, H_bind, h_bind.
  destruct (sandboxCache ext (query_taskID req) w) as [[err|sb] w1] eqn:Hsb;
    apply sandboxCache_res in Hsb as [Hres _].
  { rewrite route_catch_spec; [done | by rewrite Hres]. }
  simpl. unfold await; simpl.
  destruct (readSandboxFile ext _ _ _ _ _ _ _ _ _ _) as [[err|files] d]; simpl.
  { rewrite route_catch_spec; [done | by rewrite Hres]. }
  unfold send; simpl. by rewrite Hres, Hfresh.
Qed.

Lemma browse_settles req w :
  sent (res w) = None → (browse ext req w).1 = inr ().
Proof.
  intros Hfresh. unfold browse, try_catch, mbind, H_bind, h_bind.
  destruct (sandboxCache ext (query_taskID req) w) as [[err|sb] w1] eqn:Hsb;
    apply sandboxCache_res in Hsb as [Hres _].
  { rewrite route_catch_spec; [done | by rewrite Hres]. }
  simpl. unfold await; simpl.
  destruct (browseSandbox ext _ _ _ _ _ _ _ _) as [[err|files] d]; simpl.
  { rewrite route_catch_spec; [done | by rewrite Hres]. }
  unfold send; simpl. by rewrite Hres, Hfresh.
Qed.

(** C8, as amended. At the request boundary of the sandbox routes every
    error is caught and answered, none escapes the handler:
    [MesosAgentNotFoundError] is answered 400, [UnauthorizedAccessError]
    403, [FileNotFoundError] and [TaskNotFoundError] both 404, with the
    bodies "File not found" and "Task not found", and any other error
    503 with an empty body (500 in the gateway, which knows no
    [FileNotFoundError]). *)
Theorem errors_are_answered (err : Error) req w :
  sent (res w) = None →
  (route_catch err w).1 = inr ()
  ∧ sent (res (route_catch err w).2)
    = Some match err with
           | MesosAgentNotFoundError => (400, BText "Mesos agent not found")
           | UnauthorizedAccessError _ => (403, BText "Unauthorized")
           | FileNotFoundError => (404, BText "File not found")
           | TaskNotFoundError => (404, BText "Task not found")
           | _ => (503, BEmpty)
           end
  ∧ sent (res (gateway_catch err w).2)
    = Some match err with
           | MesosAgentNotFoundError => (400, BText "Mesos agent not found")
           | UnauthorizedAccessError _ => (403, BText "Unauthorized")
           | TaskNotFoundError => (404, BText "Task not found")
           | _ => (500, BEmpty)
           end
  ∧ (browse ext req w).1 = inr ()
  ∧ (read ext req w).1 = inr ().
Proof.
  intros Hfresh.
  rewrite route_catch_spec, gateway_catch_spec by done.
  split; [done|]. split; [by destruct err|]. split; [by destruct err|].
  split; [by apply browse_settles | by apply read_settles].
Qed.

(** The status the fetcher records is the last of the task's statuses,
    and ['UNKNOWN'] when the task has none. *)
Lemma sandboxFetcher_last_status (taskID : string) (t : Z) sb (d : N) :
  sandboxFetcher ext taskID t = (inr sb, d) →
  last_status sb = default "UNKNOWN" (last (statuses (task sb))).
Proof.
  unfold sandboxFetcher, async_bind, async_ret.
  destruct (getTaskInfo ext taskID t) as [[err|taskInfo] d1]; [done|].
  destruct (getMesosSlaveState ext _ _) as [[err|slaveState] d2]; [done|].
  intros [= <- _]. simpl. rewrite last_lookup.
  destruct (statuses taskInfo) as [|s l] eqn:Hl; [done|].
  rewrite bool_decide_eq_true_2 by (simpl; lia).
  replace (length (s :: l) - 1)%nat with (pred (length (s :: l))) by (simpl; lia).
  destruct ((s :: l) !! pred (length (s :: l))) eqn:Hlast; [done|].
  apply lookup_ge_None in Hlast. simpl in Hlast. lia.
Qed.

(** What the cache serves was produced by the fetcher, so it carries a
    status of that form too; stated for a cache filled by [resolve]. *)
Lemma read_spec req w sb w1 files (d : N) :
  sent (res w) = None →
  sandboxCache ext (query_taskID req) w = (inr sb, w1) →
  readSandboxFile ext (agentURL sb) (workDir sb) (slaveID sb) (frameworkID sb)
    (query_taskID req) (containerID sb) (query_path req) (query_offset req)
    (query_size req) (Cache.now (cw w1)) = (inr files, d) →
  read ext req w
  = (inr (),
     {| cw := Cache.elapse d (cw w1);
        res := {| statusCode := statusCode (res w);
                  sent := Some (statusCode (res w),
                    BFile (if negb (bool_decide (last_status sb = "TASK_RUNNING")
                                    || bool_decide (last_status sb = "TASK_STARTING"))
                           then {| payload := payload files; eof := true |}
                           else files)) |};
        calls := calls w ++ [CRead (query_taskID req) (query_path req)] |}).
Proof.
  intros Hfresh Hsb Hread. pose proof (sandboxCache_res _ _ _ _ Hsb) as [Hres Hcalls].
  unfold read, try_catch, mbind, H_bind, h_bind. rewrite Hsb. simpl.
  unfold await; simpl. rewrite Hread. simpl.
  unfold send; simpl. by rewrite Hres, Hcalls, Hfresh.
Qed.

(** C10. When a read succeeds (the descriptor is resolved and the
    sandbox gives a chunk) and the last status of the descriptor is
    neither [TASK_RUNNING] nor [TASK_STARTING], the chunk is sent with
    [eof] set, whatever the sandbox reported. The status of a descriptor
    is the last status of its task and ['UNKNOWN'] for a task without
    statuses, which falls under this case. *)
Theorem read_forces_eof req w sb w1 files (d : N) :
  sent (res w) = None →
  sandboxCache ext (query_taskID req) w = (inr sb, w1) →
  readSandboxFile ext (agentURL sb) (workDir sb) (slaveID sb) (frameworkID sb)
    (query_taskID req) (containerID sb) (query_path req) (query_offset req)
    (query_size req) (Cache.now (cw w1)) = (inr files, d) →
  last_status sb ≠ "TASK_RUNNING" →
  last_status sb ≠ "TASK_STARTING" →
  ((read ext req w).1 = inr ()
   ∧ sent (res (read ext req w).2)
     = Some (statusCode (res w), BFile {| payload := payload files; eof := true |}))
  ∧ (∀ (taskID : string) (t : Z) fetched (d' : N),
       sandboxFetcher ext taskID t = (inr fetched, d') →
       (statuses (task fetched) = [] → last_status fetched = "UNKNOWN")
       ∧ (∀ s, last (statuses (task fetched)) = Some s → last_status fetched = s)).
Proof.
  intros Hfresh Hsb Hread Hrun Hstart. split.
  - rewrite (read_spec req w sb w1 files d) by done. simpl.
    by rewrite !bool_decide_eq_false_2.
  - intros taskID t fetched d' Hf.
    apply sandboxFetcher_last_status in Hf. split.
    + intros Hnil. by rewrite Hf, Hnil.
    + intros s Hs. by rewrite Hf, Hs.
Qed.

End facts.

Import Samples.

(** C1, the defect. Authorizations are enforced and the token check of
    the request fails with an error that is none of the three the
    gateway maps: the gateway answers 500 and, its last branch having no
    [return], goes on to [next()]. The read route runs and the sandbox
    file is read although authorization did not pass; only the [send]
    of the file fails, the response being out already, and the [catch]
    of the route ends on [res.status(503); res.send()], which sends
    nothing more: the client has the 500 and the handler returns. *)
Lemma gateway_runs_route_after_500 :
  let r := GET_read env_on (cluster check_breaks) (request carol "t-1") (request_on world0) in
  calls r.2 = [CCheckAuthorization "t-1"; CConsoleError; CNext;
               CRead "t-1" "stdout"; CConsoleError]
  ∧ sent (res r.2) = Some (500, BEmpty)
  ∧ statusCode (res r.2) = 503
  ∧ r.1 = inr ().
Proof. vm_compute. done. Qed.

(** The same request when the authorizations deny: 403, and the route is
    not run. *)
Lemma gateway_denies_sample :
  let r := GET_read env_on (cluster check_denies) (request carol "t-1") (request_on world0) in
  calls r.2 = [CCheckAuthorization "t-1"; CConsoleError]
  ∧ sent (res r.2) = Some (403, BText "Unauthorized")
  ∧ r.1 = inr ().
Proof. vm_compute. done. Qed.

(** C8 as stated fails: a file and a task that are not found are both
    answered with status 404. *)
Lemma not_found_errors_share_status :
  let w := request_on (Listing := list string) (Payload := string) world0 in
  FileNotFoundError ≠ TaskNotFoundError
  ∧ statusCode (res (route_catch FileNotFoundError w).2) = 404
  ∧ statusCode (res (route_catch TaskNotFoundError w).2) = 404.
Proof. done. Qed.

(** A read of task [t-1] on a fresh response, and the answer to a file
    that is not found. *)
Lemma errors_are_answered_witness :
  let w := request_on world0 in
  (read (cluster check_allows) (request carol "t-1") w).1 = inr ()
  ∧ sent (res (route_catch FileNotFoundError w).2) = Some (404, BText "File not found").
Proof.
  intros w.
  destruct (errors_are_answered (cluster check_allows) FileNotFoundError
              (request carol "t-1") w eq_refl) as (_ & Hroute & _ & _ & Hread).
  exact (conj Hread Hroute).
Defined.

(** Task [t-2] has finished: the chunk the sandbox reports as not final
    is sent with [eof] set. *)
Lemma read_forces_eof_witness :
  sent (res (read (cluster check_allows) (request carol "t-2") (request_on world0)).2)
  = Some (200, BFile {| payload := "hello"; eof := true |}).
Proof.
  refine (proj2 (proj1 (read_forces_eof (cluster check_allows) (request carol "t-2")
                          (request_on world0) _ _ {| payload := "hello"; eof := false |}
                          4%N _ _ _ _ _))).
  - reflexivity.
  - vm_compute. reflexivity.
  - vm_compute. reflexivity.
  - vm_compute. discriminate.
  - vm_compute. discriminate.
Defined.

End SandboxFacts.

(** ** Authorization of the owner *)

Module AuthorizationFacts.
Import Sandbox Authorizations.

Section facts.
Context {Listing Payload : Type}.
Variable env : EnvVars.
Variable validate_token : string → TaskInfo → bool.
Variable root_container : TaskInfo → bool.
Variable ext : Collaborators Listing Payload.
Implicit Types (w : @HWorld Listing Payload) (req : Request) (p : User) (t : TaskInfo).

(** Ownership decides before the groups and the token are looked at. *)
Lemma authorize_owner (s : Surface) p t (token : option string) :
  task_user t = Some (cn p) →
  (∀ names, allow_list t = Some names → cn p ∈ names) →
  authorize env validate_token root_container s p t token = Allow.
Proof.
  intros Hown Hlist. unfold authorize.
  destruct (negb _ || exempt env s); [done|].
  destruct (allow_list t) as [names|].
  - by rewrite bool_decide_eq_true_2 by (by apply Hlist).
  - unfold is_owner. by rewrite bool_decide_eq_true_2.
Qed.

(** The guard in front of the evaluator: without a name or without a
    [memberOf] property the answer is 403, the task is not looked up. *)
Lemma AllowConfiguredUsers_guard req (next : H unit) w :
  sent (res w) = None →
  cn (user req) = "" ∨ memberOf (user req) = None →
  AllowConfiguredUsers ext req next w
  = (inr (), {| cw := cw w;
                res := {| statusCode := 403; sent := Some (403, BEmpty) |};
                calls := calls w |}).
Proof.
  intros Hfresh Hguard. unfold AllowConfiguredUsers.
  assert (truthy (Some (cn (user req))) && bool_decide (is_Some (memberOf (user req)))
          = false) as ->.
  { destruct Hguard as [-> | ->]; [done|].
    rewrite bool_decide_eq_false_2; [by rewrite andb_false_r | by intros [? ?]]. }
  unfold mbind, H_bind, h_bind, status, send; simpl. by rewrite Hfresh.
Qed.

(** [AllowConfiguredUsers] with the evaluator behind it: the request
    of an owner whose name is not empty and whose group-membership set
    is present, be it empty, is handed on to the route. *)
Lemma AllowConfiguredUsers_admits_owner req (next : H unit) w t (d : N)
    (groups : list string) :
  cn (user req) ≠ "" →
  memberOf (user req) = Some groups →
  truthy (body_task_id req) = true →
  getTaskInfo ext (default "" (body_task_id req)) (Cache.now (cw w)) = (inr t, d) →
  task_user t = Some (cn (user req)) →
  (∀ names, allow_list t = Some names → cn (user req) ∈ names) →
  AllowConfiguredUsers (with_evaluator env validate_token root_container ext) req next w
  = next {| cw := Cache.elapse d (cw w);
            res := res w;
            calls := calls w ++ [CCheckAuthorization (default "" (body_task_id req)); CNext] |}.
Proof.
  intros Hcn Hgroups Hid Htask Hown Hlist.
  unfold AllowConfiguredUsers.
  assert (truthy (Some (cn (user req))) && bool_decide (is_Some (memberOf (user req)))
          = true) as ->.
  { simpl. rewrite bool_decide_eq_true_2 by (by rewrite Hgroups).
    apply String.eqb_neq in Hcn. by rewrite Hcn. }
  rewrite Hid. simpl.
  unfold mbind, H_bind, h_bind, try_catch, await. simpl. rewrite Htask. simpl.
  unfold CheckTaskAuthorization.
  rewrite (authorize_owner TerminalSurface (user req) t None Hown Hlist). simpl.
  by rewrite CacheFacts.elapse_0, <- (assoc_L (++)).
Qed.


End facts.

Import Samples.

(** In front of the evaluator: Carol owns task [t-1], and the directory
    gave her no [memberOf]; [AllowConfiguredUsers] answers 403 before
    the task is looked up or the evaluator asked. *)
Lemma guard_refuses_without_groups :
  let ext := with_evaluator env_on (λ _ _, false) (λ _, false) (cluster check_allows) in
  let r := AllowConfiguredUsers ext (request carol_without_groups "t-1") (h_ret ())
             (request_on world0) in
  task_user task_t1 = Some (cn carol_without_groups)
  ∧ memberOf carol_without_groups = None
  ∧ sent (res r.2) = Some (403, BEmpty)
  ∧ calls r.2 = [].
Proof. done. Qed.



End AuthorizationFacts.

(** ** The terminal registry and relay *)

Module TerminalFacts.
Import Terminals.

Implicit Types (st : State) (t : Term) (c : Channel) (l : DataListener)
  (ls : list DataListener) (ev : Event) (evs : list Event).

(** *** Sending and forwarding *)

Lemma ws_send_open ws (data : string) st c :
  sockets st !! ws = Some c → opened c = true →
  ws_send ws data st
  = (inr (), set_sockets (<[ws := {| opened := true; received := received c ++ [data];
                                     peer := peer c |}]> (sockets st)) st).
Proof. intros Hc Ho. unfold ws_send. by rewrite Hc, Ho. Qed.

Lemma ws_send_not_writable ws (data : string) st :
  writable ws st = false →
  ws_send ws data st = (inl (OtherError "not opened"), st).
Proof.
  unfold writable, ws_send. destruct (sockets st !! ws) as [c|]; [|done].
  by intros ->.
Qed.

Lemma run_listener_returns l (data : string) st :
  (run_listener l data st).1 = inr ().
Proof.
  destruct l as [term|ws]; simpl.
  - unfold log_append. by destruct (heap st !! term).
  - unfold t_try, ws_send. destruct (sockets st !! ws) as [c|]; [|done].
    by destruct (opened c).
Qed.

Lemma emit_returns ls (data : string) st : (emit ls data st).1 = inr ().
Proof.
  revert st. induction ls as [|l ls IH]; intros st; [done|].
  simpl. unfold mbind, T_bind, t_bind.
  pose proof (run_listener_returns l data st) as Hl.
  destruct (run_listener l data st) as [[e|[]] st']; [done|]. apply IH.
Qed.

Lemma term_data_returns term (data : string) st :
  (term_data term data st).1 = inr ().
Proof.
  unfold term_data. destruct (heap st !! term); [|done]. apply emit_returns.
Qed.

(** C7. A [data] event never ends in an exception, in whatever state
    the websockets are: if the socket of a forwarding listener is
    writable the chunk is sent, and if it is not, [ws.send] throws, the
    listener swallows the exception and nothing changes. *)
Theorem forwarding_failures_are_swallowed st term ws (data : string) :
  (term_data term data st).1 = inr ()
  ∧ (handle (Data term data) st).1 = None
  ∧ (if writable ws st
     then run_listener (WsSend ws) data st = ws_send ws data st
     else ws_send ws data st = (inl (OtherError "not opened"), st)
          ∧ run_listener (WsSend ws) data st = (inr (), st)).
Proof.
  split; [apply term_data_returns|]. split.
  { simpl. by rewrite term_data_returns. }
  destruct (writable ws st) eqn:Hw.
  - unfold writable in Hw. destruct (sockets st !! ws) as [c|] eqn:Hc; [|done].
    simpl. unfold t_try. by rewrite (ws_send_open ws data st c).
  - simpl. unfold t_try. by rewrite ws_send_not_writable.
Qed.

(** *** Resizing *)

Lemma update_term_lookup term (f : Term → Term) st t :
  heap st !! term = Some t →
  heap (update_term term f st) !! term = Some (f t)
  ∧ (∀ j, j ≠ term → heap (update_term term f st) !! j = heap st !! j)
  ∧ sockets (update_term term f st) = sockets st
  ∧ terminals (update_term term f st) = terminals st
  ∧ logs (update_term term f st) = logs st.
Proof.
  intros Ht. unfold update_term. rewrite Ht. simpl. repeat split.
  - apply list_lookup_insert_eq. by eapply lookup_lt_Some.
  - intros j Hj. by apply list_lookup_insert_ne.
Qed.

(** C6. A resize with a handle that is not in the registry (unknown,
    closed before, or not a number) fails: the handler throws when it
    calls [resize] on the missing entry, and the state is as before, no
    term has been touched. With a handle of the registry the handler
    returns and the term behind the handle has been given the new
    geometry, every other term staying as it was. *)
Theorem resize_needs_a_session st (h cols rows : option Z) :
  match get h st with
  | None =>
      post_size h cols rows st
      = (inl (TypeError "Cannot read property 'resize' of undefined"), st)
  | Some term =>
      (post_size h cols rows st).1 = inr ()
      ∧ ∀ t, heap st !! term = Some t →
          heap (post_size h cols rows st).2 !! term = Some (set_size cols rows t)
          ∧ size (set_size cols rows t) = Some (cols, rows)
          ∧ ∀ j, j ≠ term → heap (post_size h cols rows st).2 !! j = heap st !! j
  end.
Proof.
  unfold post_size. destruct (get h st) as [term|]; [|done].
  split; [done|]. intros t Ht. simpl.
  destruct (update_term_lookup term (set_size cols rows) st t Ht) as (?&?&_).
  done.
Qed.

(** *** What the handlers leave alone *)

Lemma update_term_frame term (f : Term → Term) st :
  sockets (update_term term f st) = sockets st
  ∧ terminals (update_term term f st) = terminals st
  ∧ logs (update_term term f st) = logs st
  ∧ length (heap (update_term term f st)) = length (heap st).
Proof.
  unfold update_term. destruct (heap st !! term); [|done].
  simpl. by rewrite length_insert.
Qed.

Lemma run_listener_frame l (data : string) st :
  heap (run_listener l data st).2 = heap st
  ∧ terminals (run_listener l data st).2 = terminals st
  ∧ length (sockets (run_listener l data st).2) = length (sockets st).
Proof.
  destruct l as [term|ws]; simpl.
  - unfold log_append. by destruct (heap st !! term).
  - unfold t_try, ws_send. destruct (sockets st !! ws) as [c|]; [|done].
    destruct (opened c); [|done]. simpl. by rewrite length_insert.
Qed.

Lemma emit_frame ls (data : string) st :
  heap (emit ls data st).2 = heap st
  ∧ terminals (emit ls data st).2 = terminals st
  ∧ length (sockets (emit ls data st).2) = length (sockets st).
Proof.
  revert st. induction ls as [|l ls IH]; intros st; [done|].
  simpl. unfold mbind, T_bind, t_bind.
  pose proof (run_listener_returns l data st) as Hl.
  pose proof (run_listener_frame l data st) as (Hh & Ht & Hs).
  destruct (run_listener l data st) as [[e|[]] st']; [done|]. simpl in *.
  destruct (IH st') as (Hh' & Ht' & Hs'). by rewrite Hh', Ht', Hs'.
Qed.

Lemma ws_connect_frame (h : option Z) st :
  terminals (ws_connect h st).2 = terminals st
  ∧ logs (ws_connect h st).2 = logs st
  ∧ length (heap (ws_connect h st).2) = length (heap st).
Proof.
  unfold ws_connect. destruct (_ ≫= _) as [[term t]|]; [|done].
  unfold t_bind, ws_send, subscribe. simpl.
  destruct (_ !! length (sockets st)) as [c|]; [|done].
  destruct (opened c); [|done]. simpl.
  set (st' := set_sockets _ _).
  destruct (update_term_frame term (add_listener (WsSend (length (sockets st)))) st')
    as (_ & Ht & Hl & Hh).
  by rewrite Ht, Hl, Hh.
Qed.

(** A handle that is not in the registry stays out of it as long as no
    process is spawned with that pid. *)
Lemma handle_keeps_unregistered (p : Z) ev st :
  terminals st !! p = None → spawns p ev = false →
  terminals (handle ev st).2 !! p = None.
Proof.
  intros Hp Hsp. destruct ev as [tid spawned|h cols rows|h|term data|ws msg|ws]; simpl.
  - unfold post_terminal. destruct (String.eqb tid "") eqn:Htid; [done|].
    destruct spawned as [e|p']; [done|]. simpl in *. rewrite Htid in Hsp. simpl in Hsp.
    apply bool_decide_eq_false in Hsp. by rewrite lookup_insert_ne.
  - unfold post_size. destruct (get h st) as [term|]; [|done]. simpl.
    by destruct (update_term_frame term (set_size cols rows) st) as (_ & -> & _).
  - by destruct (ws_connect_frame h st) as (-> & _).
  - unfold term_data. destruct (heap st !! term) as [t|]; [|done].
    destruct (emit_frame (on_data t) data (update_term term (add_emitted data) st))
      as (_ & -> & _).
    by destruct (update_term_frame term (add_emitted data) st) as (_ & -> & _).
  - unfold ws_message. destruct (_ ≫= _) as [term|]; [|done]. simpl.
    by destruct (update_term_frame term (add_written msg) st) as (_ & -> & _).
  - unfold ws_close. destruct (_ ≫= _) as [term|]; [|done]. simpl.
    destruct (heap st !! term) as [t|]; [|done]. simpl.
    destruct (decide (pid t = p)) as [->|Hne].
    + apply lookup_delete_eq.
    + by rewrite lookup_delete_ne.
Qed.

Lemma run_cons ev evs st : run (ev :: evs) st = run evs (handle ev st).2.
Proof. done. Qed.

Lemma run_keeps_unregistered (p : Z) evs st :
  terminals st !! p = None → forallb (λ ev, negb (spawns p ev)) evs = true →
  terminals (run evs st) !! p = None.
Proof.
  revert st. induction evs as [|ev evs IH]; intros st Hp Hevs; [done|].
  simpl in Hevs. apply andb_true_iff in Hevs as [Hev Hevs].
  apply negb_true_iff in Hev. simpl. apply IH; [|done].
  by apply handle_keeps_unregistered.
Qed.

(** C4. When the websocket attached to a session closes, the handler
    returns with the term killed and both table entries of its pid
    deleted: the buffer is gone and the session is out of the registry.
    From then on, as long as no process is spawned with the same pid,
    the lookup of the handle finds nothing, and a resize or an attach of
    the handle fails on the missing entry. *)
Theorem close_destroys_session st ws c term t evs :
  sockets st !! ws = Some c →
  peer c = Some term →
  heap st !! term = Some t →
  forallb (λ ev, negb (spawns (pid t) ev)) evs = true →
  (ws_close ws st).1 = inr ()
  ∧ killed <$> heap (ws_close ws st).2 !! term = Some true
  ∧ logs (ws_close ws st).2 !! pid t = None
  ∧ terminals (ws_close ws st).2 !! pid t = None
  ∧ get (Some (pid t)) (run evs (ws_close ws st).2) = None
  ∧ (∀ cols rows,
       (post_size (Some (pid t)) cols rows (run evs (ws_close ws st).2)).1
       = inl (TypeError "Cannot read property 'resize' of undefined"))
  ∧ (ws_connect (Some (pid t)) (run evs (ws_close ws st).2)).1
    = inl (TypeError "Cannot read property 'pid' of undefined").
Proof.
  intros Hc Hpeer Ht Hevs.
  assert (ws_close ws st
          = (inr (), set_logs (delete (pid t) (logs st))
                       (set_terminals (delete (pid t) (terminals st))
                          (update_term term kill
                             (set_sockets (alter (λ c, {| opened := false;
                                                          received := received c;
                                                          peer := peer c |}) ws (sockets st))
                                st))))) as Hclose.
  { unfold ws_close. simpl. rewrite list_lookup_alter_eq, Hc. simpl.
    rewrite Hpeer. simpl. by rewrite Ht. }
  rewrite Hclose. simpl.
  set (st0 := set_sockets _ st) in *.
  destruct (update_term_lookup term kill st0 t Ht) as (Hk & _).
  assert (get (Some (pid t)) (run evs (set_logs (delete (pid t) (logs st))
            (set_terminals (delete (pid t) (terminals st)) (update_term term kill st0))))
          = None) as Hget.
  { simpl. apply run_keeps_unregistered; [|done]. simpl. apply lookup_delete_eq. }
  split; [done|]. split; [by rewrite Hk|].
  split; [apply lookup_delete_eq|]. split; [apply lookup_delete_eq|].
  split; [done|]. split.
  - intros cols rows. unfold post_size. by rewrite Hget.
  - unfold ws_connect. simpl. simpl in Hget. by rewrite Hget.
Qed.

(** *** What an attached websocket receives *)

Lemma writable_Some ws st :
  writable ws st = true ↔ ∃ c, sockets st !! ws = Some c ∧ opened c = true.
Proof.
  unfold writable. destruct (sockets st !! ws) as [c|]; split.
  - intros Ho. by exists c.
  - by intros (c' & [= <-] & Ho).
  - done.
  - by intros (c' & [=] & _).
Qed.

Lemma forwards_cons ws l ls :
  forwards ws (l :: ls)
  = ((if decide (l = WsSend ws) then 1 else 0) + forwards ws ls)%nat.
Proof.
  unfold forwards. rewrite filter_cons. by destruct (decide (l = WsSend ws)).
Qed.

Lemma forwards_app ws ls1 ls2 :
  forwards ws (ls1 ++ ls2) = (forwards ws ls1 + forwards ws ls2)%nat.
Proof. unfold forwards. by rewrite filter_app, length_app. Qed.

Lemma forwards_fresh ws (wss : list nat) :
  Forall (λ ws', ws' ≠ ws) wss → forwards ws (WsSend <$> wss) = 0%nat.
Proof.
  induction 1 as [|ws' wss Hne _ IH]; [done|].
  rewrite fmap_cons, forwards_cons, IH, decide_False; [done | congruence].
Qed.

(** A chunk emitted to a list of listeners reaches an open websocket once
    for each listener that forwards to it, and leaves it open. *)
Lemma emit_inbox ws ls (data : string) st c :
  sockets st !! ws = Some c → opened c = true →
  sockets (emit ls data st).2 !! ws
  = Some {| opened := true;
            received := received c ++ replicate (forwards ws ls) data;
            peer := peer c |}.
Proof.
  revert st c. induction ls as [|l ls IH]; intros st c Hc Ho.
  { simpl. rewrite app_nil_r, Hc. destruct c; simpl in *; by subst. }
  rewrite forwards_cons. cbn [emit]. unfold mbind, T_bind, t_bind.
  destruct l as [term|ws']; cbn [run_listener].
  - rewrite decide_False by done.
    unfold log_append. destruct (heap st !! term) as [t|]; by apply IH.
  - unfold t_try. destruct (decide (ws' = ws)) as [->|Hne].
    + rewrite (ws_send_open ws data st c) by done.
      rewrite decide_True by done.
      erewrite IH; [|simpl; apply list_lookup_insert_eq; by eapply lookup_lt_Some|done].
      simpl. by rewrite <- (assoc_L (++)).
    + rewrite decide_False by congruence.
      unfold ws_send. destruct (sockets st !! ws') as [c'|]; [|by apply IH].
      destruct (opened c'); [|by apply IH].
      apply IH; [|done]. simpl. by rewrite list_lookup_insert_ne.
Qed.

Lemma update_term_lookup_inv term (f : Term → Term) st j tj :
  heap (update_term term f st) !! j = Some tj →
  ∃ tj0, heap st !! j = Some tj0 ∧ (tj = tj0 ∨ (j = term ∧ tj = f tj0)).
Proof.
  unfold update_term. destruct (heap st !! term) as [t|] eqn:Ht; [|by eauto].
  simpl. destruct (decide (j = term)) as [->|Hne].
  - rewrite list_lookup_insert_eq by (by eapply lookup_lt_Some).
    intros [= <-]. eauto.
  - rewrite list_lookup_insert_ne by done. eauto.
Qed.

Lemma update_term_is_Some term (f : Term → Term) st j :
  is_Some (heap st !! j) → is_Some (heap (update_term term f st) !! j).
Proof.
  intros [tj Hj]. unfold update_term. destruct (heap st !! term) as [t|] eqn:Ht; [|eauto].
  simpl. apply lookup_lt_is_Some. rewrite length_insert.
  by eapply lookup_lt_Some.
Qed.

(** Updating a field of a term other than its listeners. *)
Lemma subscribed_update_term ws term st i (f : Term → Term) :
  (∀ t, on_data (f t) = on_data t) →
  subscribed ws term st → subscribed ws term (update_term i f st).
Proof.
  intros Hf (Hw & Hterm & Hfw). split; [|split].
  - unfold writable in *. by destruct (update_term_frame i f st) as (-> & _).
  - by apply update_term_is_Some.
  - intros j tj Hj. apply update_term_lookup_inv in Hj as (tj0 & Hj0 & [->| [-> ->]]).
    + by apply Hfw.
    + rewrite Hf. by apply Hfw.
Qed.

Lemma inbox_update_term ws st i (f : Term → Term) :
  inbox ws (update_term i f st) = inbox ws st.
Proof. unfold inbox. by destruct (update_term_frame i f st) as (-> & _). Qed.

Lemma subscribed_sockets ws term st st' :
  heap st' = heap st →
  (∀ c, sockets st !! ws = Some c → sockets st' !! ws = Some c) →
  subscribed ws term st → subscribed ws term st'.
Proof.
  intros Hh Hs (Hw & Hterm & Hfw). split; [|split].
  - apply writable_Some in Hw as (c & Hc & Ho). apply writable_Some. eauto.
  - by rewrite Hh.
  - intros j tj. rewrite Hh. apply Hfw.
Qed.

Lemma post_terminal_subscribed ws term (tid : string) (spawned : Error + Z) st :
  subscribed ws term st →
  subscribed ws term (post_terminal tid spawned st).2
  ∧ inbox ws (post_terminal tid spawned st).2 = inbox ws st.
Proof.
  intros Hsub. unfold post_terminal. destruct (String.eqb tid ""); [done|].
  destruct spawned as [e|p]; [done|]. simpl. split; [|done].
  destruct Hsub as (Hw & [t Hterm] & Hfw). split; [done|]. split; simpl.
  - exists t. by apply lookup_app_l_Some.
  - intros j tj [[_ Hj]|[-> <-]]%lookup_snoc_Some; [by apply Hfw|].
    simpl. rewrite decide_False; [done|].
    apply lookup_lt_Some in Hterm. lia.
Qed.

Lemma ws_connect_subscribed ws term (h : option Z) st :
  subscribed ws term st →
  subscribed ws term (ws_connect h st).2
  ∧ inbox ws (ws_connect h st).2 = inbox ws st.
Proof.
  intros Hsub. pose proof Hsub as (Hw & Hterm & Hfw).
  apply writable_Some in Hw as (c & Hc & Ho).
  pose proof (lookup_lt_Some _ _ _ Hc) as Hlt.
  unfold ws_connect.
  set (new := {| opened := true; received := []; peer := None |}).
  set (st1 := set_sockets (sockets st ++ [new]) st).
  assert (subscribed ws term st1 ∧ inbox ws st1 = inbox ws st) as [Hsub1 Hin1].
  { split.
    - apply (subscribed_sockets ws term st); [done| |done].
      intros c' Hc'. simpl. by apply lookup_app_l_Some.
    - unfold inbox. simpl. by rewrite lookup_app_l. }
  destruct (get h st1 ≫= _) as [[term' t']|]; [|done].
  unfold t_bind. rewrite (ws_send_open _ _ st1 new); [|simpl|done]; last first.
  { rewrite lookup_app_r by done. by rewrite Nat.sub_diag. }
  unfold subscribe. cbn [fst snd].
  set (st2 := set_sockets _ (set_sockets _ st1)).
  assert (subscribed ws term st2 ∧ inbox ws st2 = inbox ws st) as [Hsub2 Hin2].
  { assert (sockets st2 !! ws = sockets st1 !! ws) as Hsame.
    { simpl. rewrite list_lookup_alter_ne by lia.
      rewrite list_lookup_insert_ne by lia. done. }
    split.
    - apply (subscribed_sockets ws term st1); [done| |done].
      intros c'. by rewrite Hsame.
    - unfold inbox. by rewrite Hsame. }
  split; [|by rewrite inbox_update_term].
  destruct Hsub2 as (Hw2 & Hterm2 & Hfw2). split; [|split].
  - unfold writable in *. by destruct (update_term_frame term'
      (add_listener (WsSend (length (sockets st)))) st2) as (-> & _).
  - by apply update_term_is_Some.
  - intros j tj Hj. apply update_term_lookup_inv in Hj as (tj0 & Hj0 & [->| [-> ->]]).
    + by apply Hfw2.
    + simpl. rewrite forwards_app, (Hfw2 _ _ Hj0), forwards_cons.
      rewrite (decide_False (P := WsSend (length (sockets st)) = WsSend ws)).
      * unfold forwards. simpl. lia.
      * intros [= ?]. lia.
Qed.

Lemma term_data_subscribed ws term j (data : string) st m :
  subscribed ws term st → inbox ws st = Some m →
  subscribed ws term (term_data j data st).2
  ∧ inbox ws (term_data j data st).2
    = Some (m ++ if decide (j = term) then [data] else []).
Proof.
  intros Hsub Hm. unfold term_data.
  destruct (heap st !! j) as [tj|] eqn:Hj.
  2:{ split; [done|]. simpl. rewrite Hm. destruct (decide _); [|by rewrite app_nil_r].
      subst j. destruct Hsub as (_ & [? ?] & _). congruence. }
  set (st1 := update_term j (add_emitted data) st).
  assert (subscribed ws term st1) as Hsub1 by (by apply subscribed_update_term).
  pose proof Hsub1 as (Hw & Hterm & Hfw).
  apply writable_Some in Hw as (c & Hc & Ho).
  pose proof (emit_inbox ws (on_data tj) data st1 c Hc Ho) as Hemit.
  destruct (emit_frame (on_data tj) data st1) as (Hheap & _ & _).
  assert (received c = m) as Hrc.
  { rewrite <- (inbox_update_term ws st j (add_emitted data)) in Hm.
    unfold inbox in Hm. fold st1 in Hm. rewrite Hc in Hm. by injection Hm. }
  split.
  - split; [|split].
    + apply writable_Some. eauto.
    + by rewrite Hheap.
    + intros k tk. rewrite Hheap. apply Hfw.
  - unfold inbox. rewrite Hemit. simpl. rewrite Hrc. do 2 f_equal.
    destruct Hsub as (_ & _ & Hfw0).
    rewrite (Hfw0 j tj Hj). by destruct (decide (j = term)).
Qed.

Lemma ws_close_subscribed ws term ws' st :
  ws' ≠ ws → subscribed ws term st →
  subscribed ws term (ws_close ws' st).2
  ∧ inbox ws (ws_close ws' st).2 = inbox ws st.
Proof.
  intros Hne Hsub. unfold ws_close.
  set (st1 := set_sockets _ st).
  assert (sockets st1 !! ws = sockets st !! ws) as Hsame.
  { simpl. by rewrite list_lookup_alter_ne. }
  assert (subscribed ws term st1 ∧ inbox ws st1 = inbox ws st) as [Hsub1 Hin1].
  { split.
    - apply (subscribed_sockets ws term st); [done| |done].
      intros c. by rewrite Hsame.
    - unfold inbox. by rewrite Hsame. }
  destruct (_ ≫= _) as [term'|]; [|done].
  destruct (heap st1 !! term') as [t'|]; [|done]. cbn [fst snd].
  pose proof (subscribed_update_term ws term st1 term' kill (λ _, eq_refl) Hsub1)
    as Hsub2.
  split.
  - apply (subscribed_sockets ws term (update_term term' kill st1)); [done| |done].
    intros c Hc. simpl.
    destruct (update_term_frame term' kill st1) as (Hs & _).
    unfold set_logs, set_terminals; simpl. done.
  - unfold inbox, set_logs, set_terminals; simpl.
    change (inbox ws (update_term term' kill st1) = inbox ws st).
    by rewrite inbox_update_term.
Qed.

Lemma handle_subscribed ws term ev st m :
  subscribed ws term st → inbox ws st = Some m → closes ws ev = false →
  subscribed ws term (handle ev st).2
  ∧ inbox ws (handle ev st).2 = Some (m ++ data_of term [ev]).
Proof.
  intros Hsub Hm Hev.
  destruct ev as [tid spawned|h cols rows|h|j data|ws' msg|ws']; simpl;
    rewrite ?app_nil_r.
  - destruct (post_terminal_subscribed ws term tid spawned st Hsub) as [? ->]. done.
  - unfold post_size. destruct (get h st); [|done]. simpl.
    rewrite inbox_update_term. split; [|done].
    by apply subscribed_update_term.
  - destruct (ws_connect_subscribed ws term h st Hsub) as [? ->]. done.
  - destruct (term_data_subscribed ws term j data st m Hsub Hm) as [? ->].
    split; [done|]. by destruct (decide (j = term)).
  - unfold ws_message. destruct (_ ≫= _); [|done]. simpl.
    rewrite inbox_update_term. split; [|done].
    by apply subscribed_update_term.
  - simpl in Hev. apply bool_decide_eq_false in Hev.
    destruct (ws_close_subscribed ws term ws' st Hev Hsub) as [? ->]. done.
Qed.

Lemma data_of_cons term ev evs :
  data_of term (ev :: evs) = data_of term [ev] ++ data_of term evs.
Proof.
  destruct ev as [| | |j data| |]; try done.
  simpl. by destruct (decide (j = term)).
Qed.

Lemma run_subscribed ws term evs st m :
  subscribed ws term st → inbox ws st = Some m →
  forallb (λ ev, negb (closes ws ev)) evs = true →
  inbox ws (run evs st) = Some (m ++ data_of term evs).
Proof.
  revert st m. induction evs as [|ev evs IH]; intros st m Hsub Hm Hevs.
  { simpl. by rewrite app_nil_r. }
  simpl in Hevs. apply andb_true_iff in Hevs as [Hev Hevs].
  apply negb_true_iff in Hev.
  destruct (handle_subscribed ws term ev st m Hsub Hm Hev) as [Hsub' Hm'].
  rewrite run_cons, (data_of_cons term ev evs), (IH _ _ Hsub' Hm' Hevs).
  by rewrite <- app_assoc.
Qed.

(** *** The invariant of a run *)

Lemma append_empty_r (s : string) : s +:+ "" = s.
Proof.
  induction s as [|a s IH]; [done|].
  change (String a s +:+ "") with (String a (s +:+ "")). by rewrite IH.
Qed.

Lemma append_assoc (a b c : string) : (a +:+ b) +:+ c = a +:+ (b +:+ c).
Proof.
  induction a as [|x a IH]; [done|].
  change (String x ((a +:+ b) +:+ c) = String x (a +:+ (b +:+ c))). by rewrite IH.
Qed.

Lemma history_snoc t (data : string) :
  history (add_emitted data t) = history t +:+ data.
Proof.
  unfold history; simpl. rewrite foldr_app. simpl. rewrite append_empty_r.
  induction (emitted t) as [|a l IH]; [done|].
  simpl. by rewrite IH, append_assoc.
Qed.

Lemma invariant_init : invariant init.
Proof. split; intros *; simpl; by rewrite ?lookup_empty, ?lookup_nil. Qed.

(** The sockets may change and grow, as long as none disappears. *)
Lemma invariant_sockets st st' :
  heap st' = heap st → terminals st' = terminals st → logs st' = logs st →
  (length (sockets st) ≤ length (sockets st'))%nat →
  invariant st → invariant st'.
Proof.
  intros Hh Ht Hl Hlen [Hreg Hpids Hls]. split.
  - intros p term. rewrite Ht, Hh, Hl. apply Hreg.
  - intros i j ti tj. rewrite Hh. apply Hpids.
  - intros i t. rewrite Hh. intros Hi. destruct (Hls i t Hi) as (wss & Hon & Hwss).
    exists wss. split; [done|]. eapply Forall_impl; [done|]. simpl. lia.
Qed.

(** A term may change in what the invariant does not speak of, and be
    given more forwarding listeners to websockets that exist. *)
Lemma invariant_update_term i (f : Term → Term) (extra : list nat) st :
  (∀ t, pid (f t) = pid t ∧ emitted (f t) = emitted t
        ∧ on_data (f t) = on_data t ++ (WsSend <$> extra)) →
  Forall (λ ws, (ws < length (sockets st))%nat) extra →
  invariant st → invariant (update_term i f st).
Proof.
  intros Hf Hextra [Hreg Hpids Hls].
  destruct (heap st !! i) as [ti|] eqn:Hi; last first.
  { unfold update_term. rewrite Hi. by split. }
  destruct (update_term_lookup i f st ti Hi) as (Hfi & Hother & Hs & Ht & Hl).
  split.
  - intros p term. rewrite Ht, Hl. intros Hp.
    destruct (Hreg p term Hp) as (t & Hterm & Hpid & Hlog).
    destruct (decide (term = i)) as [->|Hne].
    + exists (f ti). assert (t = ti) as -> by congruence.
      destruct (Hf ti) as (Hp' & He' & _). unfold history. by rewrite Hp', He'.
    + exists t. by rewrite Hother.
  - intros j k tj tk Hj Hk.
    apply update_term_lookup_inv in Hj as (tj0 & Hj0 & Hj).
    apply update_term_lookup_inv in Hk as (tk0 & Hk0 & Hk).
    assert (pid tj = pid tj0) as ->.
    { destruct Hj as [->|[_ ->]]; [done|]. apply Hf. }
    assert (pid tk = pid tk0) as ->.
    { destruct Hk as [->|[_ ->]]; [done|]. apply Hf. }
    by apply Hpids.
  - intros j tj Hj. rewrite Hs.
    apply update_term_lookup_inv in Hj as (tj0 & Hj0 & Hj).
    destruct (Hls j tj0 Hj0) as (wss & Hon & Hwss).
    destruct Hj as [->|[-> ->]]; [by exists wss|].
    exists (wss ++ extra). destruct (Hf tj0) as (_ & _ & ->).
    rewrite Hon, fmap_app. split; [done|]. by apply Forall_app.
Qed.

Lemma post_terminal_invariant (tid : string) (spawned : Error + Z) st :
  admissible (Open tid spawned) st →
  invariant st → invariant (post_terminal tid spawned st).2.
Proof.
  intros Hadm Hinv. unfold post_terminal. destruct (String.eqb tid ""); [done|].
  destruct spawned as [e|p]; [done|]. simpl in *.
  destruct Hinv as [Hreg Hpids Hls]. split; simpl.
  - intros q term. destruct (decide (p = q)) as [->|Hne].
    + rewrite lookup_insert_eq. intros [= <-]. eexists. split.
      { apply list_lookup_middle. done. }
      by rewrite lookup_insert_eq.
    + rewrite !lookup_insert_ne by done. intros Hq.
      destruct (Hreg q term Hq) as (t & Hterm & Hpid & Hlog).
      exists t. split; [|done]. by apply lookup_app_l_Some.
  - intros i j ti tj Hi Hj Heq.
    apply lookup_snoc_Some in Hi as [[_ Hi]|[-> <-]];
      apply lookup_snoc_Some in Hj as [[_ Hj]|[-> <-]]; simpl in *.
    + by eapply Hpids.
    + exfalso. eapply Hadm; [|done]. by eapply list_elem_of_lookup_2.
    + exfalso. eapply Hadm; [|done]. by eapply list_elem_of_lookup_2.
    + done.
  - intros i t [[_ Hi]|[-> <-]]%lookup_snoc_Some; [by apply Hls|].
    by exists [].
Qed.

Lemma ws_connect_invariant (h : option Z) st :
  invariant st → invariant (ws_connect h st).2.
Proof.
  intros Hinv. unfold ws_connect.
  set (new := {| opened := true; received := []; peer := None |}).
  set (st1 := set_sockets (sockets st ++ [new]) st).
  assert (invariant st1) as Hinv1.
  { apply (invariant_sockets st); [done..| |done].
    simpl. rewrite length_app. lia. }
  destruct (get h st1 ≫= _) as [[term t]|]; [|done].
  unfold t_bind. rewrite (ws_send_open _ _ st1 new); [|simpl|done]; last first.
  { rewrite lookup_app_r by done. by rewrite Nat.sub_diag. }
  unfold subscribe. cbn [fst snd].
  set (st2 := set_sockets _ (set_sockets _ st1)).
  assert (length (sockets st2) = S (length (sockets st))) as Hlen.
  { simpl. rewrite length_alter, length_insert, length_app. simpl. lia. }
  apply (invariant_update_term _ _ [length (sockets st)]).
  - intros t'. by repeat split.
  - apply Forall_singleton. lia.
  - apply (invariant_sockets st1); [done..| |done]. rewrite Hlen. simpl.
    rewrite length_app. simpl. lia.
Qed.

Lemma emit_forwarders_logs (wss : list nat) (data : string) st :
  logs (emit (WsSend <$> wss) data st).2 = logs st.
Proof.
  revert st. induction wss as [|ws wss IH]; intros st; [done|].
  rewrite fmap_cons. cbn [emit]. unfold mbind, T_bind, t_bind.
  cbn [run_listener]. unfold t_try, ws_send.
  destruct (sockets st !! ws) as [c|]; [|apply IH].
  destruct (opened c); [|apply IH]. by rewrite IH.
Qed.

Lemma term_data_invariant term (data : string) st :
  invariant st → invariant (term_data term data st).2.
Proof.
  intros Hinv. unfold term_data.
  destruct (heap st !! term) as [t|] eqn:Hterm; [|done].
  pose proof Hinv as [Hreg Hpids Hls].
  destruct (Hls term t Hterm) as (wss & Hon & Hwss).
  set (st1 := update_term term (add_emitted data) st).
  destruct (update_term_lookup term (add_emitted data) st t Hterm)
    as (Hfi & Hother & Hs & Ht & Hl). fold st1 in Hfi, Hother, Hs, Ht, Hl.
  destruct (emit_frame (on_data t) data st1) as (Hheap & Hterms & Hlen).
  assert (logs (emit (on_data t) data st1).2
          = <[pid t := default "undefined" (logs st !! pid t) +:+ data]> (logs st))
    as Hlogs.
  { rewrite Hon. cbn [emit]. unfold mbind, T_bind, t_bind. cbn [run_listener].
    unfold log_append. rewrite Hfi. rewrite emit_forwarders_logs. simpl.
    by rewrite Hl. }
  split.
  - intros p term'. rewrite Hterms, Ht, Hheap, Hlogs. intros Hp.
    destruct (Hreg p term' Hp) as (t' & Hterm' & Hpid & Hlog).
    destruct (decide (term' = term)) as [->|Hne].
    + assert (t' = t) as -> by congruence.
      exists (add_emitted data t). split; [done|]. split; [done|].
      rewrite <- Hpid, lookup_insert_eq, Hpid, Hlog. simpl.
      by rewrite history_snoc.
    + exists t'. rewrite Hother by done. split; [done|]. split; [done|].
      rewrite lookup_insert_ne; [done|]. intros Heq. apply Hne.
      eapply Hpids; [done..|]. congruence.
  - intros i j ti tj. rewrite Hheap. intros Hi Hj.
    apply update_term_lookup_inv in Hi as (ti0 & Hi0 & Hi).
    apply update_term_lookup_inv in Hj as (tj0 & Hj0 & Hj).
    assert (pid ti = pid ti0) as -> by (by destruct Hi as [->|[_ ->]]).
    assert (pid tj = pid tj0) as -> by (by destruct Hj as [->|[_ ->]]).
    by apply Hpids.
  - intros i ti. rewrite Hheap, Hlen, Hs. intros Hi.
    apply update_term_lookup_inv in Hi as (ti0 & Hi0 & Hi).
    destruct (Hls i ti0 Hi0) as (wss' & Hon' & Hwss').
    exists wss'. by destruct Hi as [->|[_ ->]].
Qed.

Lemma ws_close_invariant ws st : invariant st → invariant (ws_close ws st).2.
Proof.
  intros Hinv. unfold ws_close.
  set (st1 := set_sockets _ st).
  assert (invariant st1) as Hinv1.
  { apply (invariant_sockets st); [done..| |done]. simpl. by rewrite length_alter. }
  destruct (_ ≫= _) as [term|]; [|done].
  destruct (heap st1 !! term) as [t|] eqn:Hterm; [|done]. cbn [fst snd].
  assert (invariant (update_term term kill st1)) as [Hreg Hpids Hls].
  { apply (invariant_update_term _ _ []); [|done..].
    intros t'. repeat split. simpl. by rewrite app_nil_r. }
  destruct (update_term_frame term kill st1) as (Hs & Ht & Hl & _).
  split; simpl.
  - intros p term'. destruct (decide (pid t = p)) as [->|Hne].
    { by rewrite lookup_delete_eq. }
    rewrite !lookup_delete_ne by done. intros Hp.
    destruct (Hreg p term') as (t0 & Ht0 & Hp0 & Hlog); [by rewrite Ht|].
    exists t0. rewrite Hl in Hlog. done.
  - apply Hpids.
  - intros i ti Hi. destruct (Hls i ti Hi) as (wss & Hon & Hwss).
    by exists wss.
Qed.

Lemma handle_invariant ev st :
  invariant st → admissible ev st → invariant (handle ev st).2.
Proof.
  intros Hinv Hadm.
  destruct ev as [tid spawned|h cols rows|h|term data|ws msg|ws]; simpl.
  - by apply post_terminal_invariant.
  - unfold post_size. destruct (get h st); [|done]. simpl.
    apply (invariant_update_term _ _ []); [|done..].
    intros t'. repeat split. simpl. by rewrite app_nil_r.
  - by apply ws_connect_invariant.
  - by apply term_data_invariant.
  - unfold ws_message. destruct (_ ≫= _); [|done]. simpl.
    apply (invariant_update_term _ _ []); [|done..].
    intros t'. repeat split. simpl. by rewrite app_nil_r.
  - by apply ws_close_invariant.
Qed.

Lemma reachable_invariant st : reachable st → invariant st.
Proof.
  induction 1 as [|st ev _ IH Hadm]; [apply invariant_init|].
  by apply handle_invariant.
Qed.

(** *** Attaching *)

Lemma forwards_unattached ws i t st :
  invariant st → heap st !! i = Some t → (length (sockets st) ≤ ws)%nat →
  forwards ws (on_data t) = 0%nat.
Proof.
  intros [_ _ Hls] Hi Hws. destruct (Hls i t Hi) as (wss & -> & Hwss).
  rewrite forwards_cons, decide_False by done. simpl.
  apply forwards_fresh. eapply Forall_impl; [done|]. simpl. lia.
Qed.

(** The handler of a new websocket, for a handle of the registry: the
    log of the session is the first message, and the websocket is
    attached to the term. *)
Lemma ws_connect_attaches st (p : Z) term t :
  invariant st → terminals st !! p = Some term → heap st !! term = Some t →
  (ws_connect (Some p) st).1 = inr ()
  ∧ subscribed (length (sockets st)) term (ws_connect (Some p) st).2
  ∧ inbox (length (sockets st)) (ws_connect (Some p) st).2 = Some [history t].
Proof.
  intros Hinv Hp Hterm. pose proof Hinv as [Hreg _ _].
  destruct (Hreg p term Hp) as (t' & Hterm' & Hpid & Hlog).
  assert (t' = t) as -> by congruence.
  unfold ws_connect.
  set (ws := length (sockets st)).
  set (new := {| opened := true; received := []; peer := None |}).
  set (st1 := set_sockets (sockets st ++ [new]) st).
  assert (get (Some p) st1 ≫= (λ term, (term,.) <$> heap st1 !! term) = Some (term, t))
    as ->.
  { simpl. rewrite Hp. simpl. by rewrite Hterm. }
  unfold t_bind. rewrite (ws_send_open _ _ st1 new); [|simpl|done]; last first.
  { rewrite lookup_app_r by done. by rewrite Nat.sub_diag. }
  unfold subscribe. cbn [fst snd].
  set (st2 := set_sockets _ (set_sockets _ st1)).
  assert (sockets st2 !! ws
          = Some {| opened := true; received := [history t]; peer := Some term |}) as Hws.
  { simpl. rewrite list_lookup_alter_eq, list_lookup_insert_eq.
    - simpl. by rewrite Hpid, Hlog.
    - rewrite length_app. simpl. unfold ws. lia. }
  destruct (update_term_lookup term (add_listener (WsSend ws)) st2 t Hterm)
    as (Hfi & Hother & Hs & _).
  split; [done|]. split; [split; [|split]|].
  - apply writable_Some. rewrite Hs. eauto.
  - by rewrite Hfi.
  - intros j tj Hj. destruct (decide (j = term)) as [->|Hne].
    + rewrite Hfi in Hj. injection Hj as <-. simpl.
      rewrite forwards_app, (forwards_unattached ws term t st) by done.
      rewrite forwards_cons, decide_True by done. done.
    + rewrite Hother in Hj by done. by apply (forwards_unattached ws j tj st).
  - unfold inbox. by rewrite Hs, Hws.
Qed.

(** C3. In a run in which no pid is handed out twice, a websocket
    attached to a session of the registry is sent, as its first message,
    the bytes the process has emitted since it was spawned, those emitted
    before any viewer attached among them; after it, and until it closes,
    it is sent the chunks the process emits from then on, one message
    each, in the order of emission, and nothing else, whatever else
    happens on the server. *)
Theorem attach_replays_history st (p : Z) term t evs :
  reachable st →
  terminals st !! p = Some term →
  heap st !! term = Some t →
  forallb (λ ev, negb (closes (length (sockets st)) ev)) evs = true →
  (ws_connect (Some p) st).1 = inr ()
  ∧ inbox (length (sockets st)) (ws_connect (Some p) st).2 = Some [history t]
  ∧ inbox (length (sockets st)) (run evs (ws_connect (Some p) st).2)
    = Some (history t :: data_of term evs).
Proof.
  intros Hreach Hp Hterm Hevs. apply reachable_invariant in Hreach.
  destruct (ws_connect_attaches st p term t Hreach Hp Hterm) as (Hok & Hsub & Hin).
  split; [done|]. split; [done|].
  by rewrite (run_subscribed _ term evs _ [history t]).
Qed.

(** The session of the scenario: task [t-2] is opened, the process gets
    pid 4242 and emits [hello] before any viewer attaches. *)
Lemma scenario_reachable :
  reachable (run [Open "t-2" (inr 4242); Data 0 "hello"] init).
Proof.
  apply (reachable_step _ (Data 0 "hello")); [|done].
  apply (reachable_step init (Open "t-2" (inr 4242))); [apply reachable_init|].
  intros t Ht. by apply elem_of_nil in Ht.
Qed.

(** The viewer of the scenario attaches and the process emits [world]:
    the viewer has received [hello], then [world]. *)
Lemma attach_replays_history_witness :
  inbox 0 (run [Connect (Some 4242); Data 0 "world"]
             (run [Open "t-2" (inr 4242); Data 0 "hello"] init))
  = Some ["hello"; "world"].
Proof.
  exact (proj2 (proj2 (attach_replays_history
                         (run [Open "t-2" (inr 4242); Data 0 "hello"] init) 4242 0
                         {| pid := 4242; task_id := "t-2"; on_data := [LogData 0];
                            emitted := ["hello"]; written := []; size := None;
                            killed := false |}
                         [Data 0 "world"]
                         scenario_reachable eq_refl eq_refl eq_refl))).
Defined.

(** The viewer of the scenario disconnects; the handle 4242 is gone,
    also after a late chunk of the killed process and another spawn. *)
Lemma close_destroys_session_witness :
  let st := run [Open "t-2" (inr 4242); Data 0 "hello"; Connect (Some 4242)] init in
  get (Some 4242) st = Some 0%nat
  ∧ get (Some 4242) (run [Data 0 "late"; Open "t-3" (inr 4243)] (ws_close 0 st).2) = None.
Proof.
  intros st. split; [reflexivity|].
  refine (proj1 (proj2 (proj2 (proj2 (proj2
           (close_destroys_session st 0
              {| opened := true; received := ["hello"]; peer := Some 0%nat |} 0
              {| pid := 4242; task_id := "t-2"; on_data := [LogData 0; WsSend 0];
                 emitted := ["hello"]; written := []; size := None; killed := false |}
              [Data 0 "late"; Open "t-3" (inr 4243)] _ _ _ _)))))).
  - reflexivity.
  - reflexivity.
  - reflexivity.
  - reflexivity.
Defined.

(** [resize(handle, 40, 120)] on the session of the scenario, and on a
    handle nobody has. *)
Lemma resize_needs_a_session_witness :
  let st := run [Open "t-2" (inr 4242)] init in
  size <$> heap (post_size (Some 4242) (Some 120) (Some 40) st).2 !! 0%nat
  = Some (Some (Some 120, Some 40))
  ∧ post_size (Some 7) (Some 120) (Some 40) st
    = (inl (TypeError "Cannot read property 'resize' of undefined"), st).
Proof.
  intros st. split.
  - exact (f_equal (fmap size)
             (proj1 (proj2 (resize_needs_a_session st (Some 4242) (Some 120) (Some 40))
                       {| pid := 4242; task_id := "t-2"; on_data := [LogData 0];
                          emitted := []; written := []; size := None; killed := false |}
                       eq_refl))).
  - exact (resize_needs_a_session st (Some 7) (Some 120) (Some 40)).
Defined.

End TerminalFacts.

(** ** Arrays and strings of the runtime *)

Module JSFacts.
Import JS.

Lemma indexOf_ge (x : string) (l : list string) : -1 ≤ indexOf x l.
Proof.
  induction l as [|y l IH]; simpl; [lia|].
  destruct (String.eqb y x); [lia|]. case_bool_decide; lia.
Qed.

Lemma indexOf_elem_of (x : string) (l : list string) : indexOf x l ≠ -1 ↔ x ∈ l.
Proof.
  induction l as [|y l IH]; simpl.
  - split; [done|]. by intros ?%elem_of_nil.
  - destruct (String.eqb y x) eqn:Hyx.
    + apply String.eqb_eq in Hyx as ->. split; [left|done].
    + apply String.eqb_neq in Hyx. pose proof (indexOf_ge x l).
      rewrite elem_of_cons, <- IH. case_bool_decide; split.
      * done.
      * intros [?|?]; congruence.
      * by right.
      * lia.
Qed.

Lemma split_cons_inv (sep : Ascii.ascii) (s : string) : split sep s ≠ [].
Proof.
  destruct s as [|c s]; simpl; [done|].
  destruct (Ascii.eqb c sep); [done|]. by destruct (split sep s).
Qed.

Lemma join_cons_cons (sep x y : string) (l : list string) :
  join sep (x :: y :: l) = x +:+ sep +:+ join sep (y :: l).
Proof. done. Qed.

Lemma join_String (sep : string) (c : Ascii.ascii) (w : string) (ws : list string) :
  join sep (String c w :: ws) = String c (join sep (w :: ws)).
Proof. by destruct ws. Qed.

Lemma join_split_id (sep : Ascii.ascii) (s : string) :
  join (String sep EmptyString) (split sep s) = s.
Proof.
  induction s as [|c s IH]; [done|]. simpl.
  destruct (Ascii.eqb c sep) eqn:Hc.
  - apply Ascii.eqb_eq in Hc as ->.
    pose proof (split_cons_inv sep s).
    destruct (split sep s) as [|w ws] eqn:Hs; [done|].
    rewrite join_cons_cons, IH. done.
  - destruct (split sep s) as [|w ws] eqn:Hs; [by destruct (split_cons_inv sep s)|].
    by rewrite join_String, IH.
Qed.

(** Splitting loses nothing: joined with the separator, the pieces give
    the string back; there is always a piece, and no piece holds the
    separator. *)
Theorem join_split (sep : Ascii.ascii) (s : string) :
  join (String sep EmptyString) (split sep s) = s
  ∧ split sep s ≠ []
  ∧ Forall (λ w, occurs sep w = false) (split sep s).
Proof.
  split; [apply join_split_id|]. split; [apply split_cons_inv|].
  induction s as [|c s IH]; simpl; [by constructor|].
  destruct (Ascii.eqb c sep) eqn:Hc; [by constructor|].
  destruct (split sep s) as [|w ws]; [constructor; [|done]; simpl; by rewrite Hc|].
  inversion IH as [|?? Hw Hws]; subst. constructor; [|done].
  simpl. by rewrite Hc.
Qed.

Lemma split_no_sep (sep : Ascii.ascii) (w : string) :
  occurs sep w = false → split sep w = [w].
Proof.
  induction w as [|c w IH]; [done|]. simpl.
  intros [Hc Hw]%orb_false_iff. rewrite Hc, IH; done.
Qed.

Lemma split_app_sep (sep : Ascii.ascii) (w rest : string) :
  occurs sep w = false →
  split sep (w +:+ String sep rest) = w :: split sep rest.
Proof.
  induction w as [|c w IH]; simpl.
  - intros _. change (EmptyString +:+ String sep rest) with (String sep rest).
    simpl. by rewrite Ascii.eqb_refl.
  - intros [Hc Hw]%orb_false_iff.
    change (String c w +:+ String sep rest) with (String c (w +:+ String sep rest)).
    simpl. by rewrite Hc, IH.
Qed.

(** And the other way round: a list that is not empty, of pieces
    without the separator, is what splitting its join gives. *)
Theorem split_join (sep : Ascii.ascii) (l : list string) :
  l ≠ [] →
  Forall (λ w, occurs sep w = false) l →
  split sep (join (String sep EmptyString) l) = l.
Proof.
  intros Hne Hl. induction Hl as [|w l Hw Hl IH]; [done|].
  destruct l as [|w' l]; [by apply split_no_sep|].
  rewrite join_cons_cons.
  change (String sep EmptyString +:+ join (String sep EmptyString) (w' :: l))
    with (String sep (join (String sep EmptyString) (w' :: l))).
  rewrite split_app_sep by done. by rewrite IH.
Qed.

Lemma split_join_witness :
  split semicolon (join (String semicolon EmptyString) ["admins"; "dev"]) = ["admins"; "dev"].
Proof.
  apply split_join; [discriminate|].
  repeat constructor.
Defined.

End JSFacts.

(** ** The start of [src/app.js] and its middlewares *)

Module AppJsFacts.
Import AppJs.

Lemma elem_of_intersection (array1 array2 : list string) (x : string) :
  x ∈ intersection array1 array2 ↔ x ∈ array1 ∧ x ∈ array2.
Proof.
  unfold intersection. rewrite list_elem_of_filter, JSFacts.indexOf_elem_of.
  tauto.
Qed.

Lemma intersection_nil_iff (array1 array2 : list string) :
  intersection array1 array2 = [] ↔ ∀ x, x ∈ array1 → x ∉ array2.
Proof.
  split.
  - intros Hnil x H1 H2.
    assert (x ∈ intersection array1 array2) as Hx by (by apply elem_of_intersection).
    rewrite Hnil in Hx. by apply elem_of_nil in Hx.
  - intros Hdis. destruct (intersection array1 array2) as [|x l] eqn:Hi; [done|].
    assert (x ∈ intersection array1 array2) as Hx by (rewrite Hi; left).
    apply elem_of_intersection in Hx as [H1 H2]. by destruct (Hdis x H1).
Qed.

Lemma intersection_all (array1 array2 : list string) :
  (∀ x, x ∈ array1 → x ∈ array2) → intersection array1 array2 = array1.
Proof.
  unfold intersection. induction array1 as [|y l IH]; intros Hall; [done|].
  rewrite filter_cons_True.
  - f_equal. apply IH. intros x Hx. apply Hall. by right.
  - apply JSFacts.indexOf_elem_of, Hall. left.
Qed.

(** The intersection holds the elements of the first array that are
    found in the second, in the order and as many times as the first
    array has them; with itself an array gives itself, with the empty
    array nothing. *)
Theorem intersection_keeps_first_array (array1 array2 : list string) :
  (∀ x, x ∈ intersection array1 array2 ↔ x ∈ array1 ∧ x ∈ array2)
  ∧ sublist (intersection array1 array2) array1
  ∧ (∀ x, x ∈ array2 →
       length (filter (λ y, y = x) (intersection array1 array2))
       = length (filter (λ y, y = x) array1))
  ∧ intersection array1 [] = []
  ∧ intersection array1 array1 = array1.
Proof.
  split; [apply elem_of_intersection|]. split; [apply sublist_filter|]. split.
  { intros x Hx. unfold intersection. rewrite list_filter_filter_l; [done|].
    intros y ->. by apply JSFacts.indexOf_elem_of. }
  split.
  - apply intersection_nil_iff. intros x _. apply not_elem_of_nil.
  - by apply intersection_all.
Qed.

(** The test [intersection(a, b).length > 0] does not depend on the
    order of its arguments, although the intersection does. *)
Theorem intersection_test_symmetric (array1 array2 : list string) :
  (0 < length (intersection array1 array2))%nat
  ↔ (0 < length (intersection array2 array1))%nat.
Proof.
  assert (∀ a b : list string,
            (0 < length (intersection a b))%nat ↔ ∃ x, x ∈ a ∧ x ∈ b) as Hex.
  { intros a b. split.
    - destruct (intersection a b) as [|x l] eqn:Hi; simpl; [lia|]. intros _.
      exists x. apply elem_of_intersection. rewrite Hi. left.
    - intros (x & Hx%elem_of_intersection).
      destruct (intersection a b); [by apply elem_of_nil in Hx | simpl; lia]. }
  rewrite !Hex. split; intros (x & ? & ?); eauto.
Qed.

Lemma getOrExit_provided (env : gmap string string) (var_name : string) :
  match getOrExit env var_name with
  | inr v => provided env var_name = true ∧ env !! var_name = Some v
  | inl e => provided env var_name = false
             ∧ e = {| exit_code := 1;
                      exit_message := var_name +:+ " env var must be provided" |}
  end.
Proof.
  unfold getOrExit, provided. destruct (env !! var_name) as [v|]; [|done].
  by destruct (String.eqb v "").
Qed.

(** The script gets past its first lines exactly when the six variables
    are all set to a value that is not empty, and then holds their
    values; otherwise the process exits with code 1 and the line on the
    console names the first of them, in the order of the script, that is
    missing. The allowed groups are undefined when their variable is not
    set or empty, and else the pieces of its value between semicolons:
    the one list that is not empty, has no semicolon in any member, and
    gives the value back when its members are joined by semicolons. *)
Theorem configure_needs_all (env : gmap string string) :
  match configure env with
  | inr c =>
      forallb (provided env) required = true
      ∧ env !! "MESOS_TASK_EXEC_PATH" = Some (MESOS_TASK_EXEC_PATH c)
      ∧ env !! "SESSION_SECRET" = Some (SESSION_SECRET c)
      ∧ env !! "LDAP_URL" = Some (LDAP_URL c)
      ∧ env !! "LDAP_BASE_DN" = Some (LDAP_BASE_DN c)
      ∧ env !! "LDAP_USER" = Some (LDAP_USER c)
      ∧ env !! "LDAP_PASSWORD" = Some (LDAP_PASSWORD c)
      ∧ match allowed_groups c with
        | None => provided env "LDAP_ALLOWED_GROUPS" = false
        | Some groups =>
            groups ≠ []
            ∧ Forall (λ g, JS.occurs JS.semicolon g = false) groups
            ∧ env !! "LDAP_ALLOWED_GROUPS"
              = Some (JS.join (String JS.semicolon EmptyString) groups)
        end
  | inl e =>
      exit_code e = 1
      ∧ ∃ v, head (filter (λ v, provided env v = false) required) = Some v
             ∧ exit_message e = v +:+ " env var must be provided"
  end.
Proof.
  unfold configure, required.
  pose proof (getOrExit_provided env "MESOS_TASK_EXEC_PATH") as H1.
  pose proof (getOrExit_provided env "SESSION_SECRET") as H2.
  pose proof (getOrExit_provided env "LDAP_URL") as H3.
  pose proof (getOrExit_provided env "LDAP_BASE_DN") as H4.
  pose proof (getOrExit_provided env "LDAP_USER") as H5.
  pose proof (getOrExit_provided env "LDAP_PASSWORD") as H6.
  destruct (getOrExit env "MESOS_TASK_EXEC_PATH") as [e1|v1].
  { destruct H1 as [H1 ->]. split; [done|]. eexists. split; [|done].
    by rewrite filter_cons_True. }
  destruct H1 as [H1 L1]. rewrite (filter_cons_False _ _ _) by (by rewrite H1).
  destruct (getOrExit env "SESSION_SECRET") as [e2|v2].
  { destruct H2 as [H2 ->]. split; [done|]. eexists. split; [|done].
    by rewrite filter_cons_True. }
  destruct H2 as [H2 L2]. rewrite (filter_cons_False _ _ _) by (by rewrite H2).
  destruct (getOrExit env "LDAP_URL") as [e3|v3].
  { destruct H3 as [H3 ->]. split; [done|]. eexists. split; [|done].
    by rewrite filter_cons_True. }
  destruct H3 as [H3 L3]. rewrite (filter_cons_False _ _ _) by (by rewrite H3).
  destruct (getOrExit env "LDAP_BASE_DN") as [e4|v4].
  { destruct H4 as [H4 ->]. split; [done|]. eexists. split; [|done].
    by rewrite filter_cons_True. }
  destruct H4 as [H4 L4]. rewrite (filter_cons_False _ _ _) by (by rewrite H4).
  destruct (getOrExit env "LDAP_USER") as [e5|v5].
  { destruct H5 as [H5 ->]. split; [done|]. eexists. split; [|done].
    by rewrite filter_cons_True. }
  destruct H5 as [H5 L5]. rewrite (filter_cons_False _ _ _) by (by rewrite H5).
  destruct (getOrExit env "LDAP_PASSWORD") as [e6|v6].
  { destruct H6 as [H6 ->]. split; [done|]. eexists. split; [|done].
    by rewrite filter_cons_True. }
  destruct H6 as [H6 L6]. simpl.
  rewrite H1, H2, H3, H4, H5, H6. repeat (split; [done|]).
  unfold read_allowed_groups, provided.
  destruct (env !! "LDAP_ALLOWED_GROUPS") as [v|]; [|done].
  destruct (String.eqb v ""); [done|]. simpl.
  destruct (JSFacts.join_split JS.semicolon v) as (Hjoin & Hne & Hpieces).
  split; [done|]. split; [done|]. by rewrite Hjoin.
Qed.

Lemma intersection_test (array1 array2 : list string) :
  (0 < length (intersection array1 array2))%nat ↔ Exists (λ g, g ∈ array2) array1.
Proof.
  rewrite Exists_exists. split.
  - destruct (intersection array1 array2) as [|x l] eqn:Hi; simpl; [lia|]. intros _.
    exists x. apply elem_of_intersection. rewrite Hi. left.
  - intros (x & Hx%elem_of_intersection).
    destruct (intersection array1 array2); [by apply elem_of_nil in Hx | simpl; lia].
Qed.

(** [isUserAllowed(groups)] hands over to the route when no groups are
    configured, whoever the user is, and else when the user has a group
    that is among them; a user with no such group is answered 403
    "Unauthorized" and the route is not run; a user without [memberOf]
    makes the middleware throw. *)
Theorem isUserAllowed_decides (groups : option (list string)) (req : Req)
    (next : M unit) (w : Res) :
  sent w = None →
  isUserAllowed groups req next w
  = match groups with
    | None => next w
    | Some groups =>
        match user req ≫= Sandbox.memberOf with
        | None => (inl (TypeError "Cannot read property 'filter' of undefined"), w)
        | Some memberOf =>
            if decide (Exists (λ g, g ∈ groups) memberOf) then next w
            else (inr (), {| statusCode := 403; headers := headers w;
                             sent := Some (403, Text "Unauthorized") |})
        end
    end.
Proof.
  intros Hfresh. unfold isUserAllowed. destruct groups as [groups|]; [|done].
  destruct (user req ≫= Sandbox.memberOf) as [memberOf|]; [|done].
  destruct (decide (Exists _ memberOf)) as [Hex|Hex].
  - by rewrite bool_decide_eq_true_2 by (by apply intersection_test).
  - rewrite bool_decide_eq_false_2 by (by rewrite intersection_test).
    unfold mbind, M_bind, m_bind, status, send. simpl. by rewrite Hfresh.
Qed.

Lemma isUserAllowed_decides_witness :
  let req := {| credentials := Some ("carol", "password");
                user := Some {| Sandbox.cn := "carol"; Sandbox.memberOf := Some ["dev"] |};
                url := "/t-1"; task_id := "t-1" |} in
  isUserAllowed (Some ["admins"; "ops"]) req (get_task req) fresh
  = (inr (), {| statusCode := 403; headers := []; sent := Some (403, Text "Unauthorized") |}).
Proof.
  intros req.
  exact (isUserAllowed_decides (Some ["admins"; "ops"]) req (get_task req) fresh eq_refl).
Defined.

Section guard.
Variable authenticate : Req → Res → Res + Sandbox.User.

(** The three middlewares in front of the routes let a request through
    to its route only if it carries basic credentials, passport has
    authenticated a user for it, and that user passes the group test; the
    route then runs for the request with that user. In every other case
    what happens is the same whatever the route is: it is not run.
    Without credentials the answer is 401 with a [WWW-Authenticate]
    header. *)
Theorem guard_admits (groups : option (list string)) (req : Req)
    (route : Req → M unit) (w : Res) :
  match credentials req, authenticate req w with
  | Some _, inr u =>
      if passes groups u
      then guard authenticate groups req route w = route (with_user req u) w
      else ∀ route', guard authenticate groups req route' w
                     = guard authenticate groups req route w
  | Some _, inl w' =>
      ∀ route', guard authenticate groups req route' w = (inr (), w')
  | None, _ =>
      (∀ route', guard authenticate groups req route' w
                 = guard authenticate groups req route w)
      ∧ (sent w = None →
         guard authenticate groups req route w
         = (inr (), {| statusCode := 401;
                       headers := headers w ++
                         [("WWW-Authenticate",
                           "Basic realm=" +:+ JS.quote +:+ "must be authenticated"
                           +:+ JS.quote)];
                       sent := Some (401, Text "Unauthorized") |}))
  end.
Proof.
  unfold guard, protectWithBasicAuth, passport_authenticate.
  destruct (credentials req) as [cred|].
  - destruct (authenticate req w) as [w'|u]; [done|].
    unfold passes, isUserAllowed. destruct groups as [groups|]; [|done].
    simpl. destruct (Sandbox.memberOf u) as [memberOf|]; [|done].
    case_bool_decide as Hex.
    + by rewrite bool_decide_eq_true_2 by (by apply intersection_test).
    + intros route'. by rewrite bool_decide_eq_false_2 by (by rewrite intersection_test).
  - destruct (authenticate req w); (split; [done|]); intros Hfresh;
      unfold mbind, M_bind, m_bind, status, header, send; simpl; by rewrite Hfresh.
Qed.

End guard.

End AppJsFacts.

(** ** The rest of [express_helpers.ts] *)

Module ExpressHelpersFacts.
Import Sandbox ExpressHelpers.

(** After [setup], [getEnv] gives the environment and [getLogger] the
    logger, whatever the table held; the other settings are as before,
    and a second [setup] changes nothing. *)
Theorem setup_then_get {Logger : Type} (env : EnvVars)
    (app : gmap string (Setting Logger)) (logger : Logger) :
  getEnv (setup env app logger) = Some (SEnv env)
  ∧ getLogger (setup env app logger) = Some (SLogger logger)
  ∧ (∀ k, k ≠ ENV_VARS_KEY → k ≠ LOGGER_KEY → setup env app logger !! k = app !! k)
  ∧ setup env (setup env app logger) logger = setup env app logger.
Proof.
  unfold getEnv, getLogger, setup. split; [|split; [|split]].
  - rewrite lookup_insert_ne by done. apply lookup_insert_eq.
  - apply lookup_insert_eq.
  - intros k Hk1 Hk2. by rewrite !lookup_insert_ne.
  - apply map_eq. intros k.
    destruct (decide (k = LOGGER_KEY)) as [->|Hl]; [by rewrite !lookup_insert_eq|].
    destruct (decide (k = ENV_VARS_KEY)) as [->|He].
    + rewrite !(lookup_insert_ne _ LOGGER_KEY) by done. by rewrite !lookup_insert_eq.
    + by rewrite !lookup_insert_ne by done.
Qed.

Section facts.
Context {Listing Payload : Type}.
Variable env : EnvVars.
Variable ext : Collaborators Listing Payload.
Variable isSuperAdmin : string → list string → list string → bool.
Implicit Types (w : @HWorld Listing Payload) (req : Request).

Lemma SuperAdminsOnly_decides req (next : H unit) w :
  sent (res w) = None →
  SuperAdminsOnly env isSuperAdmin req next w
  = match memberOf (user req) with
    | Some groups =>
        if negb (String.eqb (cn (user req)) "")
           && isSuperAdmin (cn (user req)) groups (SUPER_ADMINS env)
        then next w
        else (inr (), {| cw := cw w;
                         res := {| statusCode := 403; sent := Some (403, BEmpty) |};
                         calls := calls w |})
    | None => (inr (), {| cw := cw w;
                          res := {| statusCode := 403; sent := Some (403, BEmpty) |};
                          calls := calls w |})
    end.
Proof.
  intros Hfresh. unfold SuperAdminsOnly. simpl.
  destruct (memberOf (user req)) as [groups|].
  - destruct (_ && _); [done|]. unfold h_bind, status, send. simpl. by rewrite Hfresh.
  - rewrite andb_false_r. unfold h_bind, status, send. simpl. by rewrite Hfresh.
Qed.

(** Every way through [AllowConfiguredUsers], for a response that is
    still to be sent. A user without a name or without [memberOf] is
    answered 403 at once. Else a request whose body has no [task_id], or
    an empty one, is answered 406 and nothing is looked up. Else the task
    is looked up and the authorizations asked, in this order and without
    a token: when either rejects, whatever the error, the answer is 403
    and the route is not run; the route is run only when both resolve. *)
Theorem AllowConfiguredUsers_table req (next : H unit) w :
  sent (res w) = None →
  AllowConfiguredUsers ext req next w
  = let answer code body c more :=
      (inr (), {| cw := c; res := {| statusCode := code; sent := Some (code, body) |};
                  calls := calls w ++ more |}) in
    let task_id := default "" (body_task_id req) in
    if String.eqb (cn (user req)) "" || bool_decide (memberOf (user req) = None)
    then answer 403 BEmpty (cw w) []
    else if negb (truthy (body_task_id req))
    then answer 406 (BText "Request must contain key `task_id`.") (cw w) []
    else
      match getTaskInfo ext task_id (Cache.now (cw w)) with
      | (inl err, d) => answer 403 BEmpty (Cache.elapse d (cw w)) [CConsoleError]
      | (inr task_info, d) =>
          match CheckTaskAuthorization ext (user req) task_info None
                  (Cache.now (cw w) + Z.of_N d) with
          | (inl err, d') =>
              answer 403 BEmpty (Cache.elapse d' (Cache.elapse d (cw w)))
                [CCheckAuthorization task_id; CConsoleError]
          | (inr _, d') =>
              next {| cw := Cache.elapse d' (Cache.elapse d (cw w)); res := res w;
                      calls := calls w ++ [CCheckAuthorization task_id; CNext] |}
          end
      end.
Proof.
  intros Hfresh. unfold AllowConfiguredUsers. simpl.
  destruct (String.eqb (cn (user req)) "") eqn:Hcn; simpl.
  { unfold mbind, H_bind, h_bind, status, send. simpl.
    by rewrite Hfresh, app_nil_r. }
  destruct (memberOf (user req)) as [groups|] eqn:Hm; simpl; last first.
  { unfold mbind, H_bind, h_bind, status, send. simpl.
    by rewrite Hfresh, app_nil_r. }
  destruct (truthy (body_task_id req)); simpl; last first.
  { unfold mbind, H_bind, h_bind, try_catch, status, send. simpl.
    by rewrite Hfresh, app_nil_r. }
  unfold mbind, H_bind, h_bind, try_catch, await, log, status, send. simpl.
  destruct (getTaskInfo ext _ _) as [[err|task_info] d]; simpl.
  { by rewrite Hfresh. }
  destruct (CheckTaskAuthorization ext _ _ _ _) as [[err|[]] d']; simpl.
  - by rewrite Hfresh, <- (assoc_L (++)).
  - by rewrite <- (assoc_L (++)).
Qed.

End facts.

Import Samples.

(** A request without [task_id] in its body. *)
Lemma AllowConfiguredUsers_table_witness :
  let req := {| user := carol; query_taskID := ""; query_access_token := None;
                query_path := ""; query_offset := ""; query_size := "";
                body_task_id := None |} in
  AllowConfiguredUsers (cluster check_allows) req (h_ret ()) (request_on world0)
  = (inr (), {| cw := world0;
                res := {| statusCode := 406;
                          sent := Some (406, BText "Request must contain key `task_id`.") |};
                calls := [] |}).
Proof.
  intros req.
  exact (AllowConfiguredUsers_table (cluster check_allows) req (h_ret ())
           (request_on world0) eq_refl).
Defined.

End ExpressHelpersFacts.

(** ** The download route *)

Module DownloadFacts.
Import Sandbox Download.

#[local] Arguments checkInvalidHeaderChar : simpl never.

Section facts.
Context {Listing Payload : Type}.
Variable ext : Collaborators Listing Payload.
Variable streams : Streams.



End facts.
End DownloadFacts.

(** ** The terminal page *)

Module GetTaskIdFacts.
Import GetTaskId GetTaskIdTables.

Section facts.
Variable DEBUG_ALLOWED_TO_KEY : string.
Variable getTaskInfo : string → Async Task.
Variable isUserAllowedToDebug :
  gmap string (list string) → gmap string string → Req → Verdict.
Implicit Types (w : World) (req : Req) (task : Task).

Lemma authenticated_resolved req w task d :
  String.eqb (url req) "/favicon.ico" = false →
  getTaskInfo (task_id req) (now w) = (inr task, d) →
  authenticated DEBUG_ALLOWED_TO_KEY getTaskInfo isUserAllowedToDebug req w
  = c_catch
      (debug_or_refuse isUserAllowedToDebug req task)
      on_error
      {| now := now w + Z.of_N d;
         adminsByTaskId := recorded_admins DEBUG_ALLOWED_TO_KEY req task w;
         userByTaskId := recorded_users req task w;
         statusCode := statusCode w; sent := sent w; logged := logged w |}.
Proof.
  intros Hurl Hget. unfold authenticated, recorded_admins, recorded_users.
  rewrite Hurl. unfold c_catch, mbind, C_bind, c_bind, c_await. rewrite Hget.
  by destruct (labels task !! DEBUG_ALLOWED_TO_KEY), (Sandbox.truthy (task_user task)).
Qed.

(** On the authenticated page the two tables are written before the
    decision is taken, and the decision reads what was just written.
    When the task is found, whatever the decision, the tables of the
    end are those of the start with the entry of this task replaced by
    what the task says: the administrators by the label cut at its
    commas, when the task has the label, and the user when the task has
    one. A task without the label keeps the administrators recorded for
    it before, and no other task's entry changes. The page is rendered,
    with status as it was, when the decision on these tables is to
    pass; a refusal is answered with its own status and text; an
    exception of the decision is answered with the message of a failed
    lookup. *)
Theorem authenticated_records_then_decides req w task d :
  String.eqb (url req) "/favicon.ico" = false →
  getTaskInfo (task_id req) (now w) = (inr task, d) →
  sent w = None →
  let w' := (authenticated DEBUG_ALLOWED_TO_KEY getTaskInfo isUserAllowedToDebug req w).2 in
  adminsByTaskId w' = recorded_admins DEBUG_ALLOWED_TO_KEY req task w ∧
  userByTaskId w' = recorded_users req task w ∧
  (labels task !! DEBUG_ALLOWED_TO_KEY = None →
     adminsByTaskId w' !! task_id req = adminsByTaskId w !! task_id req) ∧
  (∀ other, other ≠ task_id req →
     adminsByTaskId w' !! other = adminsByTaskId w !! other ∧
     userByTaskId w' !! other = userByTaskId w !! other) ∧
  match isUserAllowedToDebug (adminsByTaskId w') (userByTaskId w') req with
  | Pass =>
      sent w' = Some (statusCode w, Rendered "index" (task_id req) (shown task)) ∧
      logged w' = logged w ++ [task_id req]
  | Answer code text =>
      sent w' = Some (code, Message text) ∧ logged w' = logged w
  | Raise _ =>
      sent w' = Some (statusCode w, Message "Error while retrieving task labels.") ∧
      logged w' = logged w
  end.
Proof.
  intros Hurl Hget Hsent w'.
  assert (adminsByTaskId w' = recorded_admins DEBUG_ALLOWED_TO_KEY req task w ∧
          userByTaskId w' = recorded_users req task w ∧
          match isUserAllowedToDebug (recorded_admins DEBUG_ALLOWED_TO_KEY req task w)
                  (recorded_users req task w) req with
          | Pass =>
              sent w' = Some (statusCode w, Rendered "index" (task_id req) (shown task)) ∧
              logged w' = logged w ++ [task_id req]
          | Answer code text =>
              sent w' = Some (code, Message text) ∧ logged w' = logged w
          | Raise _ =>
              sent w' = Some (statusCode w, Message "Error while retrieving task labels.") ∧
              logged w' = logged w
          end) as (Ha & Hu & Hv).
  { subst w'. rewrite (authenticated_resolved _ _ _ _ Hurl Hget).
    unfold c_catch, debug_or_refuse. simpl.
    destruct (isUserAllowedToDebug _ _ req) as [|code text|e]; simpl.
    - unfold renderTerminal, mbind, C_bind, c_bind, c_log, c_send. simpl.
      by rewrite Hsent.
    - unfold c_bind, c_status, c_send. simpl. by rewrite Hsent.
    - unfold on_error, c_send. simpl. by rewrite Hsent. }
  rewrite Ha, Hu. split_and!; try done.
  - intros Hl. unfold recorded_admins. by rewrite Hl.
  - intros other Hother. unfold recorded_admins, recorded_users. split.
    + destruct (labels task !! DEBUG_ALLOWED_TO_KEY); [|done].
      by rewrite lookup_insert_ne.
    + destruct (Sandbox.truthy (task_user task)); [|done].
      by rewrite lookup_insert_ne.
Qed.

(** The authenticated page shows the terminal in one case only: the
    request is not for the favicon, the task is found, and the decision
    taken on the tables with this task recorded is to pass. *)
Theorem authenticated_renders_iff req admins users view id name code :
  let w := fresh admins users in
  sent (authenticated DEBUG_ALLOWED_TO_KEY getTaskInfo isUserAllowedToDebug req w).2
    = Some (code, Rendered view id name)
  ↔ String.eqb (url req) "/favicon.ico" = false ∧
    ∃ task d,
      getTaskInfo (task_id req) 0 = (inr task, d) ∧
      isUserAllowedToDebug (recorded_admins DEBUG_ALLOWED_TO_KEY req task w) (recorded_users req task w) req
        = Pass ∧
      code = 200 ∧ view = "index" ∧ id = task_id req ∧ name = shown task.
Proof.
  intros w. split.
  - destruct (String.eqb (url req) "/favicon.ico") eqn:Hurl.
    { unfold authenticated. by rewrite Hurl. }
    destruct (getTaskInfo (task_id req) 0) as [[err|task] d] eqn:Hget.
    { unfold authenticated. rewrite Hurl.
      unfold c_catch, mbind, C_bind, c_bind, c_await. simpl. by rewrite Hget. }
    rewrite (authenticated_resolved req w task d Hurl Hget).
    unfold c_catch, debug_or_refuse. simpl.
    destruct (isUserAllowedToDebug _ _ req) as [|c text|e] eqn:Hv; simpl; try done.
    intros [= <- <- <- <-]. split; [done|]. by exists task, d.
  - intros (Hurl & task & d & Hget & Hv & -> & -> & -> & ->).
    rewrite (authenticated_resolved req w task d Hurl Hget).
    unfold c_catch, debug_or_refuse. simpl. change (fresh admins users) with w.
    by rewrite Hv.
Qed.

(** The anonymous page asks nobody: whoever sends the request and
    whatever the tables hold, a task that is found is rendered, with
    its user or [(no user)], and a task that is not found is answered
    with the message of a failed lookup under the status the response
    had. The tables are never written. *)
Theorem anonymous_asks_nobody req w :
  sent w = None →
  let w' := (anonymous getTaskInfo req w).2 in
  adminsByTaskId w' = adminsByTaskId w ∧
  userByTaskId w' = userByTaskId w ∧
  match (getTaskInfo (task_id req) (now w)).1 with
  | inr task =>
      sent w' = Some (statusCode w, Rendered "index" (task_id req) (shown task)) ∧
      logged w' = logged w ++ [task_id req]
  | inl _ =>
      sent w' = Some (statusCode w, Message "Error while retrieving task labels.") ∧
      logged w' = logged w
  end.
Proof.
  intros Hsent. unfold anonymous, c_catch, mbind, C_bind, c_bind, c_await.
  destruct (getTaskInfo (task_id req) (now w)) as [[err|task] d]; simpl.
  - unfold on_error, c_send. simpl. by rewrite Hsent.
  - unfold renderTerminal, mbind, C_bind, c_bind, c_log, c_send. simpl.
    by rewrite Hsent.
Qed.

End facts.

Lemma authenticated_records_then_decides_witness :
  let w := fresh ∅ ∅ in
  let w' :=
    (authenticated "DEBUG_GRANTED_TO" (λ _ _, (inr labelled, 5%N))
       (λ admins _ req,
          if bool_decide (admins !! task_id req = Some ["alice"; "bob"])
          then Answer 403 "Unauthorized" else Pass)
       visitor w).2 in
  adminsByTaskId w' !! "t1" = Some ["alice"; "bob"] ∧
  sent w' = Some (403, Message "Unauthorized").
Proof.
  intros w w'.
  pose proof (authenticated_records_then_decides "DEBUG_GRANTED_TO"
                (λ _ _, (inr labelled, 5%N))
                (λ admins _ req,
                   if bool_decide (admins !! task_id req = Some ["alice"; "bob"])
                   then Answer 403 "Unauthorized" else Pass)
                visitor w labelled 5%N eq_refl eq_refl eq_refl) as (Ha & _ & _ & _ & Hv).
  fold w' in Ha, Hv. split.
  - by rewrite Ha.
  - rewrite Ha in Hv. exact (proj1 Hv).
Defined.

Lemma anonymous_asks_nobody_witness :
  sent (anonymous (λ _ _, (inr labelled, 5%N)) visitor (fresh ∅ ∅)).2
  = Some (200, Rendered "index" "t1" "root").
Proof.
  exact (proj1 (proj2 (proj2
    (anonymous_asks_nobody (λ _ _, (inr labelled, 5%N)) visitor (fresh ∅ ∅) eq_refl)))).
Defined.

End GetTaskIdFacts.

(** ** The history of the descriptor cache *)

Module CacheHistoryFacts.
Import Cache CacheHistory.

Section facts.
Context {D : Type}.
Variable fetcher : string → Async D.
Implicit Types (w : World D) (e : Entry D) (evs : list (Event)).

Lemma step_Resolve (k : string) w :
  (step fetcher (Resolve k) w).2 = (resolve fetcher k w).2.
Proof. simpl. by destruct (resolve fetcher k w). Qed.

Lemma now_step (ev : Event) w : now w ≤ now (step fetcher ev w).2.
Proof.
  destruct ev as [d| |k]; [simpl; lia | simpl; lia |].
  rewrite step_Resolve, CacheFacts.resolve_live. destruct (live w k); simpl; [lia|].
  unfold refetch. destruct (fetcher k (now w)) as [[err|v] d]; simpl; lia.
Qed.

Lemma run_world_cons (ev : Event) evs w :
  (run fetcher (ev :: evs) w).2 = (run fetcher evs (step fetcher ev w).2).2.
Proof.
  cbn [run]. destruct (step fetcher ev w) as [o w1]. simpl.
  by destruct (run fetcher evs w1).
Qed.

Lemma now_run evs w : now w ≤ now (run fetcher evs w).2.
Proof.
  revert w. induction evs as [|ev evs IH]; intros w; [simpl; lia|].
  rewrite run_world_cons. pose proof (now_step ev w). pose proof (IH (step fetcher ev w).2). lia.
Qed.

Lemma stored_by_later (since : Z) w w' :
  cache w' = cache w → now w ≤ now w' → stored_by fetcher since w → stored_by fetcher since w'.
Proof.
  intros Hc Hn Hs k e He. rewrite Hc in He.
  destruct (Hs k e He) as (t & d & ? & ? & ? & ?). exists t, d. repeat split; [done..|lia|done].
Qed.

Lemma stored_by_refetch (since : Z) w (k : string) :
  since ≤ now w → stored_by fetcher since w →
  stored_by fetcher since (refetch fetcher k w).2.
Proof.
  intros Hsince Hs. unfold refetch.
  destruct (fetcher k (now w)) as [[err|v] d] eqn:Hf; simpl.
  { eapply stored_by_later; [| |done]; simpl; [done|lia]. }
  intros k' e. simpl. destruct (decide (k = k')) as [<-|Hne].
  - rewrite lookup_insert_eq. intros [= <-]. simpl. exists (now w), d. by repeat split.
  - rewrite lookup_insert_ne by done. intros He.
    destruct (Hs k' e He) as (t & d' & ? & ? & ? & ?). exists t, d'.
    repeat split; [done..|lia|done].
Qed.

Lemma stored_by_step (since : Z) (ev : Event) w :
  since ≤ now w → stored_by fetcher since w →
  stored_by fetcher since (step fetcher ev w).2.
Proof.
  intros Hsince Hs. destruct ev as [d| |k]; [simpl..|].
  - eapply stored_by_later; [| |done]; simpl; [done|lia].
  - intros k e. rewrite (CacheFacts.lookup_clearExpiredEntries fetcher).
    destruct (cache w !! k) as [e'|] eqn:He'; [|done].
    destruct (decide (expireAt e' < now w)); [done|]. intros [= <-]. by apply Hs.
  - rewrite step_Resolve, CacheFacts.resolve_live. destruct (live w k); [done|].
    by apply stored_by_refetch.
Qed.


Lemma stored_by_run (since : Z) evs w :
  since ≤ now w → stored_by fetcher since w →
  stored_by fetcher since (run fetcher evs w).2.
Proof.
  revert w. induction evs as [|ev evs IH]; intros w Hsince Hs; [done|].
  rewrite run_world_cons. apply IH; [|by apply stored_by_step].
  pose proof (now_step ev w). lia.
Qed.

(** A cache never serves anything older than ten seconds, nor anything
    the fetcher did not say. Start from an empty cache and let any
    sequence of calls, sweeps and waits go by: a value a caller is then
    given for a task ID is what the fetcher resolved to for that very
    task ID in a call begun since the start, and that call settled less
    than 10000 ms before the caller asked, or is the call made for this
    caller. *)
Theorem served_values_are_recent evs w0 (taskID : string) (v : D) :
  cache w0 = ∅ →
  let w := (run fetcher evs w0).2 in
  (resolve fetcher taskID w).1 = inr v →
  ∃ (t : Z) (d : N),
    fetcher taskID t = (inr v, d)
    ∧ now w0 ≤ t ≤ now w
    ∧ now w - 10000 < t + Z.of_N d ≤ now (resolve fetcher taskID w).2.
Proof.
  intros Hempty w Hres.
  assert (stored_by fetcher (now w0) w) as Hs.
  { apply stored_by_run; [lia|]. intros k e. by rewrite Hempty, lookup_empty. }
  pose proof (now_run evs w0) as Hnow. fold w in Hnow.
  rewrite CacheFacts.resolve_live in Hres |- *. unfold live in *.
  destruct (cache w !! taskID) as [e|] eqn:He.
  - case_bool_decide as Hlive.
    + simpl in Hres. injection Hres as <-.
      destruct (Hs taskID e He) as (t & d & Hf & Ht & Hd & Hexp).
      exists t, d. simpl. unfold ttl in Hexp. repeat split; [done|lia..].
    + unfold refetch in *. destruct (fetcher taskID (now w)) as [[err|v'] d] eqn:Hf; [done|].
      simpl in Hres. injection Hres as <-. exists (now w), d. simpl.
      repeat split; [done|lia..].
  - unfold refetch in *. destruct (fetcher taskID (now w)) as [[err|v'] d] eqn:Hf; [done|].
    simpl in Hres. injection Hres as <-. exists (now w), d. simpl.
    repeat split; [done|lia..].
Qed.

Lemma live_later w w' (k : string) :
  cache w' !! k = cache w !! k → now w ≤ now w' → live w k = None → live w' k = None.
Proof.
  unfold live. intros -> Hn. destruct (cache w !! k) as [e|]; [|done].
  repeat case_bool_decide; try done. lia.
Qed.

Lemma live_None_step (ev : Event) w (k : string) :
  resolves k ev = false → live w k = None → live (step fetcher ev w).2 k = None.
Proof.
  intros Hev Hdead. destruct ev as [d| |k']; [simpl..|].
  - eapply live_later; [| |done]; simpl; [done|lia].
  - by rewrite (CacheFacts.live_clearExpiredEntries fetcher).
  - simpl in Hev. apply bool_decide_eq_false in Hev.
    rewrite step_Resolve, CacheFacts.resolve_live. destruct (live w k'); [done|].
    unfold refetch. destruct (fetcher k' (now w)) as [[err|v] d]; simpl.
    + eapply live_later; [| |done]; simpl; [done|lia].
    + eapply live_later; [| |done]; simpl; [by rewrite lookup_insert_ne|lia].
Qed.

Lemma live_None_run evs w (k : string) :
  forallb (λ ev, negb (resolves k ev)) evs = true →
  live w k = None → live (run fetcher evs w).2 k = None.
Proof.
  revert w. induction evs as [|ev evs IH]; intros w Hq Hdead; [done|].
  simpl in Hq. apply andb_true_iff in Hq as [Hev Hq]. apply negb_true_iff in Hev.
  rewrite run_world_cons. apply IH; [done|]. by apply live_None_step.
Qed.

(** Failures are not cached. When a call is rejected, the cache is left
    as it was, an expired entry of the task included, and whatever
    happens next short of another call for the same task ID (time
    passing, sweeps, calls for other tasks), the next call for it asks
    the fetcher again and returns what the fetcher says then. *)
Theorem rejected_fetch_is_not_cached w (taskID : string) (err : Error) evs :
  (resolve fetcher taskID w).1 = inl err →
  forallb (λ ev, negb (resolves taskID ev)) evs = true →
  let w1 := (resolve fetcher taskID w).2 in
  let w2 := (run fetcher evs w1).2 in
  cache w1 = cache w
  ∧ (resolve fetcher taskID w2).1 = (fetcher taskID (now w2)).1
  ∧ fetched (resolve fetcher taskID w2).2 = fetched w2 ++ [taskID].
Proof.
  intros Hrej Hquiet w1 w2.
  assert (cache w1 = cache w ∧ live w1 taskID = None) as [Hc Hdead].
  { subst w1. rewrite CacheFacts.resolve_live in Hrej |- *.
    destruct (live w taskID) eqn:Hl; [done|].
    unfold refetch in *. destruct (fetcher taskID (now w)) as [[e|v] d]; [|done].
    simpl. split; [done|]. eapply live_later; [| |exact Hl]; simpl; [done|lia]. }
  split; [done|].
  pose proof (live_None_run evs w1 taskID Hquiet Hdead) as Hdead2. fold w2 in Hdead2.
  rewrite CacheFacts.resolve_live, Hdead2.
  destruct (CacheFacts.refetch_spec fetcher w2 taskID) as (Hr & Hf & _). done.
Qed.

End facts.

(** A fetcher that fails until time 100 and answers with the time of
    the call afterwards, 5 ms later. *)
Lemma served_values_are_recent_witness :
  let fetcher : string → Async Z :=
    λ _ t, if bool_decide (t < 100) then (inl TaskNotFoundError, 5%N) else (inr t, 5%N) in
  let w0 : World Z := {| now := 100; cache := ∅; fetched := [] |} in
  ∃ (t : Z) (d : N),
    fetcher "t-1" t = (inr 100, d) ∧ 100 ≤ t ≤ 4105 ∧ 4105 - 10000 < t + Z.of_N d ≤ 4105.
Proof.
  intros fetcher w0.
  exact (served_values_are_recent fetcher
           [Resolve "t-1"; Tick 4000; Sweep] w0 "t-1" 100 eq_refl eq_refl).
Defined.

Lemma rejected_fetch_is_not_cached_witness :
  let fetcher : string → Async Z :=
    λ _ t, if bool_decide (t < 100) then (inl TaskNotFoundError, 5%N) else (inr t, 5%N) in
  let w : World Z := {| now := 0; cache := ∅; fetched := [] |} in
  let w2 := (run fetcher [Tick 200; Sweep; Resolve "t-2"] (resolve fetcher "t-1" w).2).2 in
  (resolve fetcher "t-1" w2).1 = inr 210
  ∧ fetched (resolve fetcher "t-1" w2).2 = ["t-1"; "t-2"; "t-1"].
Proof.
  intros fetcher w w2.
  exact (proj2 (rejected_fetch_is_not_cached fetcher w "t-1" TaskNotFoundError
                  [Tick 200; Sweep; Resolve "t-2"] eq_refl eq_refl)).
Defined.

End CacheHistoryFacts.

(** ** The sandbox routes behind their middleware *)

Module SandboxRouteFacts.
Import Sandbox SandboxOutcomes.

Section facts.
Context {Listing Payload : Type}.
Variable env : EnvVars.
Variable ext : Collaborators Listing Payload.
Implicit Types (w : @HWorld Listing Payload) (req : Request).

Lemma gateway_try_flow req w (flow : Flow) w1 :
  gateway_try env ext req w = (inr flow, w1) → flow = FellThrough.
Proof.
  unfold gateway_try. destruct (_ && _); [|by intros [= <- _]].
  unfold mbind, H_bind, h_bind.
  destruct (sandboxCache ext (query_taskID req) w) as [[err|sb] w2]; [done|].
  simpl. unfold await; simpl.
  destruct (CheckTaskAuthorization ext _ _ _ _) as [[err|[]] d]; [done|].
  by intros [= <- _].
Qed.

(** The [catch] block of a route on a response that has been sent:
    nothing more is sent, and the [send] of a text throws. *)
Lemma route_catch_sent (err : Error) w x :
  sent (res w) = Some x →
  ((route_catch err w).1 = inr ()
   ∨ (route_catch err w).1 = inl (OtherError "ERR_HTTP_HEADERS_SENT"))
  ∧ sent (res (route_catch err w).2) = Some x.
Proof.
  intros Hsent.
  destruct err; unfold route_catch, mbind, H_bind, h_bind, log, status, send;
    simpl; rewrite Hsent; auto.
Qed.

Lemma route_catch_fresh (err : Error) w :
  sent (res w) = None →
  (route_catch err w).1 = inr ()
  ∧ ∃ code body, sent (res (route_catch err w).2) = Some (code, body)
                 ∧ code ∈ [400; 403; 404; 503].
Proof.
  intros Hfresh. rewrite (SandboxFacts.route_catch_spec err w Hfresh). split; [done|].
  destruct err; simpl; eexists _, _; (split; [done|]);
    rewrite !elem_of_cons; auto 6.
Qed.

Lemma browse_outcome req w :
  match sent (res w) with
  | None =>
      (browse ext req w).1 = inr ()
      ∧ ∃ code body, sent (res (browse ext req w).2) = Some (code, body)
                     ∧ code ∈ [statusCode (res w); 400; 403; 404; 503]
  | Some x =>
      ((browse ext req w).1 = inr ()
       ∨ (browse ext req w).1 = inl (OtherError "ERR_HTTP_HEADERS_SENT"))
      ∧ sent (res (browse ext req w).2) = Some x
  end.
Proof.
  unfold browse, try_catch, mbind, H_bind, h_bind.
  destruct (sandboxCache ext (query_taskID req) w) as [[err|sb] w1] eqn:Hsb;
    apply SandboxFacts.sandboxCache_res in Hsb as [Hres _].
  { destruct (sent (res w)) as [x|] eqn:Hsent.
    - apply route_catch_sent. by rewrite Hres.
    - destruct (route_catch_fresh err w1) as (Hr & code & body & Hs & Hc);
        [by rewrite Hres|].
      split; [done|]. exists code, body. split; [done|]. apply elem_of_cons. by right. }
  simpl. unfold await; simpl.
  destruct (browseSandbox ext _ _ _ _ _ _ _ _) as [[err|files] d]; simpl.
  { destruct (sent (res w)) as [x|] eqn:Hsent.
    - apply route_catch_sent. simpl. by rewrite Hres.
    - match goal with |- context [route_catch err ?w2] =>
        destruct (route_catch_fresh err w2) as (Hr & code & body & Hs & Hc) end;
        [simpl; by rewrite Hres|].
      split; [done|]. exists code, body. split; [done|]. apply elem_of_cons. by right. }
  unfold send; simpl. rewrite Hres.
  destruct (sent (res w)) as [x|] eqn:Hsent; simpl.
  - by apply route_catch_sent.
  - split; [done|]. eexists _, _. split; [done|]. apply elem_of_cons. by left.
Qed.

Lemma read_outcome req w :
  match sent (res w) with
  | None =>
      (read ext req w).1 = inr ()
      ∧ ∃ code body, sent (res (read ext req w).2) = Some (code, body)
                     ∧ code ∈ [statusCode (res w); 400; 403; 404; 503]
  | Some x =>
      ((read ext req w).1 = inr ()
       ∨ (read ext req w).1 = inl (OtherError "ERR_HTTP_HEADERS_SENT"))
      ∧ sent (res (read ext req w).2) = Some x
  end.
Proof.
  unfold read, try_catch, mbind, H_bind, h_bind.
  destruct (sandboxCache ext (query_taskID req) w) as [[err|sb] w1] eqn:Hsb;
    apply SandboxFacts.sandboxCache_res in Hsb as [Hres _].
  { destruct (sent (res w)) as [x|] eqn:Hsent.
    - apply route_catch_sent. by rewrite Hres.
    - destruct (route_catch_fresh err w1) as (Hr & code & body & Hs & Hc);
        [by rewrite Hres|].
      split; [done|]. exists code, body. split; [done|]. apply elem_of_cons. by right. }
  simpl. unfold await; simpl.
  destruct (readSandboxFile ext _ _ _ _ _ _ _ _ _ _) as [[err|files] d]; simpl.
  { destruct (sent (res w)) as [x|] eqn:Hsent.
    - apply route_catch_sent. simpl. by rewrite Hres.
    - match goal with |- context [route_catch err ?w2] =>
        destruct (route_catch_fresh err w2) as (Hr & code & body & Hs & Hc) end;
        [simpl; by rewrite Hres|].
      split; [done|]. exists code, body. split; [done|]. apply elem_of_cons. by right. }
  unfold send; simpl. rewrite Hres.
  destruct (sent (res w)) as [x|] eqn:Hsent; simpl.
  - by apply route_catch_sent.
  - split; [done|]. eexists _, _. split; [done|]. apply elem_of_cons. by left.
Qed.

Lemma gateway_answered req (route : H unit) (c : Cache.World SandboxDescriptor) :
  (∀ w, match sent (res w) with
        | None =>
            (route w).1 = inr ()
            ∧ ∃ code body, sent (res (route w).2) = Some (code, body)
                           ∧ code ∈ [statusCode (res w); 400; 403; 404; 503]
        | Some x =>
            ((route w).1 = inr ()
             ∨ (route w).1 = inl (OtherError "ERR_HTTP_HEADERS_SENT"))
            ∧ sent (res (route w).2) = Some x
        end) →
  answered (gateway env ext req route (request_on c)).
Proof.
  intros Hroute.
  destruct (gateway_try env ext req (request_on c)) as [[err|flow] w1] eqn:Htry.
  - pose proof (SandboxFacts.gateway_on_rejection env ext req route _ err w1 Htry eq_refl)
      as Hrej.
    assert (∀ w2 x, sent (res w2) = Some x → x = (500, BEmpty) →
              answered (route w2)) as Hthrown.
    { intros w2 x Hsent ->. specialize (Hroute w2). rewrite Hsent in Hroute.
      destruct Hroute as [Hr Hs]. exists 500, BEmpty. split; [done|]. right. done. }
    destruct err; rewrite Hrej;
      try (eapply Hthrown; [done|done]);
      eexists _, _; (split; [done|]); left; (split; [done|]);
      rewrite !elem_of_cons; auto 6.
  - pose proof (gateway_try_flow _ _ _ _ Htry) as ->.
    pose proof (SandboxFacts.gateway_try_res env ext req (request_on c)) as Hres.
    rewrite Htry in Hres; simpl in Hres.
    rewrite (SandboxFacts.gateway_passes env ext req route _ _ Htry), Hres.
    match goal with |- answered (route ?w2) => specialize (Hroute w2) end.
    simpl in Hroute.
    destruct Hroute as (Hr & code & body & Hs & Hc).
    exists code, body. split; [exact Hs|]. left. split; [exact Hr|exact Hc].
Qed.

(** Every request for a listing or for a piece of a file is sent
    exactly one answer, whatever the cache holds and whatever the
    cluster and the authorizations do. It goes under status 200, 400,
    403, 404 or 503 and the handlers return; or it is the 500 with an
    empty body of the middleware, in the one case where the route runs
    after the middleware has answered: the route then sends nothing
    more, and it returns or throws [ERR_HTTP_HEADERS_SENT]. No other
    exception leaves the handlers. *)
Theorem sandbox_requests_are_answered req (c : Cache.World SandboxDescriptor) :
  answered (GET_browse env ext req (request_on c))
  ∧ answered (GET_read env ext req (request_on c)).
Proof.
  split; apply gateway_answered; intros w.
  - apply browse_outcome.
  - apply read_outcome.
Qed.

(** The authorization of a sandbox request is decided on the task as
    the cache holds it, and the route resolves the descriptor a second
    time. With enforcement on and an entry of the task still served,
    the check is given the task of that entry and the route starts when
    the check has settled. If the entry is still served then, the route
    works on the descriptor that was checked and the cluster is not
    asked; if the entry expired during the check, the route fetches a
    new descriptor, which no check has seen. *)
Theorem route_resolves_again req w (e : Cache.Entry SandboxDescriptor) (d : N) :
  AUTHORIZATIONS_ENABLED env && negb (AUTHORIZE_ALL_SANDBOXES env) = true →
  Cache.cache (cw w) !! query_taskID req = Some e →
  Cache.now (cw w) < Cache.expireAt e →
  CheckTaskAuthorization ext (user req) (task (Cache.locator e)) (query_access_token req)
    (Cache.now (cw w)) = (inr (), d) →
  let start :=
    {| cw := Cache.elapse d (cw w); res := res w;
       calls := calls w ++ [CCheckAuthorization (query_taskID req); CNext] |} in
  GET_browse env ext req w = browse ext req start
  ∧ GET_read env ext req w = read ext req start
  ∧ if decide (Cache.now (cw w) + Z.of_N d < Cache.expireAt e) then
      sandboxCache ext (query_taskID req) start = (inr (Cache.locator e), start)
    else
      (sandboxCache ext (query_taskID req) start).1
      = (sandboxFetcher ext (query_taskID req) (Cache.now (cw w) + Z.of_N d)).1
      ∧ Cache.fetched (cw (sandboxCache ext (query_taskID req) start).2)
        = Cache.fetched (cw w) ++ [query_taskID req].
Proof.
  intros Hon He Hlive Hcheck start.
  assert (gateway_try env ext req w
          = (inr FellThrough,
             {| cw := Cache.elapse d (cw w); res := res w;
                calls := calls w ++ [CCheckAuthorization (query_taskID req)] |})) as Htry.
  { unfold gateway_try. rewrite Hon. unfold mbind, H_bind, h_bind, sandboxCache.
    rewrite (CacheFacts.resolve_hit _ _ _ e He Hlive). simpl.
    unfold await; simpl. by rewrite Hcheck. }
  split_and!.
  - unfold GET_browse. rewrite (SandboxFacts.gateway_passes env ext req _ _ _ Htry).
    simpl. by rewrite <- (assoc_L (++)).
  - unfold GET_read. rewrite (SandboxFacts.gateway_passes env ext req _ _ _ Htry).
    simpl. by rewrite <- (assoc_L (++)).
  - unfold sandboxCache. destruct (decide _) as [Hstill|Hgone].
    + rewrite (CacheFacts.resolve_hit _ (cw start) _ e); [done|done|done].
    + rewrite (CacheFacts.resolve_expired _ (cw start) _ e); [|done|simpl; lia].
      destruct (CacheFacts.refetch_spec (sandboxFetcher ext) (cw start) (query_taskID req))
        as (Hr & Hf & _).
      destruct (Cache.refetch _ _ _) as [r c']. simpl in *. done.
Qed.

End facts.

Lemma route_resolves_again_witness :
  let w : @HWorld (list string) string :=
    request_on {| Cache.now := 9999;
                  Cache.cache := {[ "t-1" := {| Cache.expireAt := 10000;
                                                Cache.locator :=
                                                  {| agentURL := "http://agent-0:5051";
                                                     workDir := "/var/lib/mesos";
                                                     slaveID := "agent-0";
                                                     frameworkID := "framework-1";
                                                     containerID := "container-1";
                                                     task := Samples.task_t1;
                                                     last_status := "TASK_RUNNING" |} |} ]};
                  Cache.fetched := [] |} in
  Cache.fetched
    (cw (GET_browse Samples.env_on (Samples.cluster Samples.check_allows)
           (Samples.request Samples.carol "t-1") w).2)
  = ["t-1"].
Proof.
  intros w.
  destruct (route_resolves_again Samples.env_on (Samples.cluster Samples.check_allows)
              (Samples.request Samples.carol "t-1") w _ 1%N eq_refl eq_refl eq_refl eq_refl)
    as (Hb & _ & _).
  rewrite Hb. vm_compute. reflexivity.
Defined.

End SandboxRouteFacts.

(** ** Sessions and their viewers *)

Module SessionFacts.
Import Terminals Sessions TerminalFacts.

Implicit Types (st : State) (t : Term) (ev : Event) (evs : list Event).

Lemma reachable_run evs st :
  reachable st → admissible_run evs st → reachable (run evs st).
Proof.
  revert st. induction evs as [|ev evs IH]; intros st Hreach Hadm; [done|].
  destruct Hadm as [Hev Hevs]. rewrite run_cons. apply IH; [|done].
  by apply reachable_step.
Qed.

Lemma update_term_lookup_at i (f : Term → Term) st j t :
  heap st !! j = Some t →
  heap (update_term i f st) !! j = Some (if decide (j = i) then f t else t).
Proof.
  intros Hj. unfold update_term.
  destruct (heap st !! i) as [ti|] eqn:Hi.
  - simpl. destruct (decide (j = i)) as [->|Hne].
    + rewrite list_lookup_insert_eq by (by eapply lookup_lt_Some). congruence.
    + by rewrite list_lookup_insert_ne.
  - destruct (decide (j = i)) as [->|Hne]; [congruence|done].
Qed.

(** *** The registry and the processes *)

Lemma alive_frame st st' :
  heap st' = heap st → terminals st' = terminals st →
  registered_while_alive st → registered_while_alive st'.
Proof. intros Hh Ht Ha i t. rewrite Hh, Ht. apply Ha. Qed.

Lemma alive_update_term i (f : Term → Term) st :
  (∀ t, pid (f t) = pid t ∧ killed (f t) = killed t) →
  registered_while_alive st → registered_while_alive (update_term i f st).
Proof.
  intros Hf Ha j tj Hj.
  destruct (update_term_frame i f st) as (_ & -> & _).
  apply update_term_lookup_inv in Hj as (tj0 & Hj0 & [->|[-> ->]]); [by apply Ha|].
  destruct (Hf tj0) as [-> ->]. by apply Ha.
Qed.

Lemma alive_step ev st :
  invariant st → admissible ev st →
  registered_while_alive st → registered_while_alive (handle ev st).2.
Proof.
  intros Hinv Hadm Ha.
  destruct ev as [tid spawned|h cols rows|h|term data|ws msg|ws]; simpl.
  - unfold post_terminal. destruct (String.eqb tid ""); [done|].
    destruct spawned as [e|p]; [done|]. simpl in *.
    intros i t [[Hlt Hi]|[-> <-]]%lookup_snoc_Some; simpl.
    + rewrite lookup_insert_ne; [by apply Ha|].
      intros Heq. eapply Hadm; [|done]. by eapply list_elem_of_lookup_2.
    + by rewrite lookup_insert_eq.
  - unfold post_size. destruct (get h st); [|done]. simpl.
    by apply alive_update_term.
  - unfold ws_connect.
    set (st1 := set_sockets _ st).
    destruct (get h st1 ≫= _) as [[term t]|]; [|done].
    unfold t_bind, ws_send. destruct (sockets st1 !! _) as [c|]; [|done].
    destruct (opened c); [|done]. unfold subscribe. cbn [fst snd].
    by apply alive_update_term.
  - unfold term_data. destruct (heap st !! term) as [t|]; [|done].
    destruct (emit_frame (on_data t) data (update_term term (add_emitted data) st))
      as (Hh & Ht & _).
    eapply alive_frame; [done..|]. by apply alive_update_term.
  - unfold ws_message. destruct (_ ≫= _); [|done]. simpl.
    by apply alive_update_term.
  - unfold ws_close.
    set (st1 := set_sockets _ st).
    destruct (_ ≫= _) as [term|]; [|done].
    destruct (heap st1 !! term) as [t|] eqn:Hterm; [|done]. cbn [fst snd].
    destruct Hinv as [_ Hpids _].
    intros i ti Hi. simpl in Hi |- *.
    pose proof Hi as (ti0 & Hi0 & _)%update_term_lookup_inv.
    rewrite (update_term_lookup_at _ _ _ _ _ Hi0) in Hi. injection Hi as <-.
    destruct (decide (i = term)) as [->|Hne].
    + simpl. assert (ti0 = t) as -> by congruence. by rewrite lookup_delete_eq.
    + rewrite lookup_delete_ne; [by apply Ha|].
      intros Heq. apply Hne. symmetry. by eapply (Hpids term i t ti0).
Qed.

(** In a run in which no pid is handed out twice, a session is in the
    registry exactly as long as its process has not been killed: the
    handle of a term that was killed is never resolved to it again, and
    a term that was not killed can always be resized and attached to
    through its pid. *)
Theorem sessions_are_registered_while_alive st i t :
  reachable st →
  heap st !! i = Some t →
  (killed t = false ↔ terminals st !! pid t = Some i).
Proof.
  intros Hreach. revert i t.
  change (registered_while_alive st).
  induction Hreach as [|st ev Hreach IH Hadm]; [done|].
  apply alive_step; [by apply reachable_invariant|done|done].
Qed.

(** *** Closing *)

Lemma ws_close_attached st ws c term t :
  sockets st !! ws = Some c → peer c = Some term → heap st !! term = Some t →
  ws_close ws st
  = (inr (), set_logs (delete (pid t) (logs st))
               (set_terminals (delete (pid t) (terminals st))
                  (update_term term kill
                     (set_sockets (alter (λ c, {| opened := false;
                                                  received := received c;
                                                  peer := peer c |}) ws (sockets st))
                        st)))).
Proof.
  intros Hc Hpeer Ht. unfold ws_close. simpl.
  rewrite list_lookup_alter_eq, Hc. simpl. rewrite Hpeer. simpl. by rewrite Ht.
Qed.

Lemma run_listener_closed ws l (data : string) st :
  writable ws st = false →
  sockets (run_listener l data st).2 !! ws = sockets st !! ws.
Proof.
  intros Hclosed. destruct l as [term|ws']; simpl.
  - unfold log_append. by destruct (heap st !! term).
  - unfold t_try, ws_send. destruct (sockets st !! ws') as [c|] eqn:Hc; [|done].
    destruct (opened c) eqn:Ho; [|done]. simpl.
    rewrite list_lookup_insert_ne; [done|]. intros ->.
    unfold writable in Hclosed. rewrite Hc in Hclosed. congruence.
Qed.

Lemma emit_closed ws ls (data : string) st :
  writable ws st = false →
  sockets (emit ls data st).2 !! ws = sockets st !! ws.
Proof.
  revert st. induction ls as [|l ls IH]; intros st Hclosed; [done|].
  simpl. unfold mbind, T_bind, t_bind.
  pose proof (run_listener_returns l data st) as Hl.
  pose proof (run_listener_closed ws l data st Hclosed) as Hs.
  destruct (run_listener l data st) as [[e|[]] st']; [done|]. simpl in Hs.
  rewrite IH; [done|]. unfold writable in *. by rewrite Hs.
Qed.

Lemma term_data_logs term (data : string) st t :
  invariant st → heap st !! term = Some t →
  logs (term_data term data st).2
  = <[pid t := default "undefined" (logs st !! pid t) +:+ data]> (logs st).
Proof.
  intros [_ _ Hls] Hterm. unfold term_data. rewrite Hterm.
  destruct (Hls term t Hterm) as (wss & Hon & _).
  destruct (update_term_lookup term (add_emitted data) st t Hterm)
    as (Hfi & _ & _ & _ & Hl).
  rewrite Hon. cbn [emit]. unfold mbind, T_bind, t_bind. cbn [run_listener].
  unfold log_append. rewrite Hfi. rewrite emit_forwarders_logs. simpl.
  by rewrite Hl.
Qed.

Lemma term_data_frame term (data : string) st :
  terminals (term_data term data st).2 = terminals st
  ∧ length (heap (term_data term data st).2) = length (heap st).
Proof.
  unfold term_data. destruct (heap st !! term) as [t|]; [|done].
  destruct (emit_frame (on_data t) data (update_term term (add_emitted data) st))
    as (-> & -> & _).
  by destruct (update_term_frame term (add_emitted data) st) as (_ & -> & _ & ->).
Qed.

(** The logging listener outlives the session. When the websocket of a
    session has closed, the entry of the log is deleted, but the
    listener that appends to it stays on the term: a chunk the killed
    process still emits raises no exception, reaches no client through
    the closed websocket, leaves the handle unregistered, and puts the
    entry back, holding the text [undefined] followed by the chunk. *)
Theorem late_output_leaves_a_log st ws c term t (data : string) :
  reachable st →
  sockets st !! ws = Some c →
  peer c = Some term →
  heap st !! term = Some t →
  let st1 := (ws_close ws st).2 in
  let st2 := (term_data term data st1).2 in
  logs st1 !! pid t = None
  ∧ (term_data term data st1).1 = inr ()
  ∧ logs st2 !! pid t = Some ("undefined" +:+ data)
  ∧ terminals st2 !! pid t = None
  ∧ inbox ws st2 = Some (received c).
Proof.
  intros Hreach Hc Hpeer Ht st1 st2.
  pose proof (ws_close_invariant ws st (reachable_invariant st Hreach)) as Hinv1.
  fold st1 in Hinv1.
  pose proof (ws_close_attached st ws c term t Hc Hpeer Ht) as Hclose.
  set (st0 := set_sockets _ st) in Hclose.
  assert (st1 = set_logs (delete (pid t) (logs st))
                  (set_terminals (delete (pid t) (terminals st))
                     (update_term term kill st0))) as Hst1.
  { unfold st1. by rewrite Hclose. }
  destruct (update_term_lookup term kill st0 t Ht) as (Hk & _ & Hs & _).
  assert (heap st1 !! term = Some (kill t)) as Hterm1 by (by rewrite Hst1).
  assert (logs st1 !! pid t = None) as Hlog1.
  { rewrite Hst1. simpl. apply lookup_delete_eq. }
  assert (terminals st1 !! pid t = None) as Hreg1.
  { rewrite Hst1. simpl. apply lookup_delete_eq. }
  assert (sockets st1 !! ws
          = Some {| opened := false; received := received c; peer := peer c |}) as Hws1.
  { rewrite Hst1. simpl. rewrite Hs. simpl. by rewrite list_lookup_alter_eq, Hc. }
  split; [done|]. split; [apply term_data_returns|]. split; [|split].
  - unfold st2. rewrite (term_data_logs term data st1 (kill t) Hinv1 Hterm1).
    simpl. by rewrite lookup_insert_eq, Hlog1.
  - unfold st2. by destruct (term_data_frame term data st1) as [-> _].
  - unfold st2, term_data. rewrite Hterm1. unfold inbox.
    rewrite emit_closed.
    + destruct (update_term_frame term (add_emitted data) st1) as (-> & _).
      by rewrite Hws1.
    + unfold writable.
      destruct (update_term_frame term (add_emitted data) st1) as (-> & _).
      by rewrite Hws1.
Qed.

(** One viewer leaving ends the session for every viewer. When two
    websockets are attached to a session and one of them closes, the
    other stays open and attached and has lost nothing, and it is still
    sent what the process emits; but the process has been killed and the
    handle is gone, so that a resize asked for by the viewer that stays
    is a [TypeError]. *)
Theorem one_close_ends_the_session_for_all st ws1 ws2 c1 term t :
  ws1 ≠ ws2 →
  sockets st !! ws1 = Some c1 →
  peer c1 = Some term →
  heap st !! term = Some t →
  subscribed ws2 term st →
  let st' := (ws_close ws1 st).2 in
  subscribed ws2 term st'
  ∧ inbox ws2 st' = inbox ws2 st
  ∧ killed <$> heap st' !! term = Some true
  ∧ get (Some (pid t)) st' = None
  ∧ (∀ cols rows,
       (post_size (Some (pid t)) cols rows st').1
       = inl (TypeError "Cannot read property 'resize' of undefined"))
  ∧ (∀ (data : string) m,
       inbox ws2 st' = Some m →
       inbox ws2 (term_data term data st').2 = Some (m ++ [data])).
Proof.
  intros Hne Hc Hpeer Ht Hsub st'.
  destruct (ws_close_subscribed ws2 term ws1 st Hne Hsub) as [Hsub' Hin'].
  fold st' in Hsub', Hin'.
  pose proof (ws_close_attached st ws1 c1 term t Hc Hpeer Ht) as Hclose.
  set (st0 := set_sockets _ st) in Hclose.
  assert (st' = set_logs (delete (pid t) (logs st))
                  (set_terminals (delete (pid t) (terminals st))
                     (update_term term kill st0))) as Hst'.
  { unfold st'. by rewrite Hclose. }
  destruct (update_term_lookup term kill st0 t Ht) as (Hk & _).
  assert (get (Some (pid t)) st' = None) as Hget.
  { rewrite Hst'. simpl. apply lookup_delete_eq. }
  split_and!; [done|done| | done | |].
  - rewrite Hst'. simpl. by rewrite Hk.
  - intros cols rows. unfold post_size. by rewrite Hget.
  - intros data m Hm.
    destruct (term_data_subscribed ws2 term term data st' m Hsub' Hm) as [_ ->].
    by rewrite decide_True.
Qed.

(** *** Input *)

Lemma ws_message_attached st ws c term t (msg : string) :
  sockets st !! ws = Some c → peer c = Some term → heap st !! term = Some t →
  (handle (Message ws msg) st).2
  = set_heap (<[term := add_written msg t]> (heap st)) st.
Proof.
  intros Hc Hpeer Ht. simpl. unfold ws_message. rewrite Hc. simpl. rewrite Hpeer. simpl.
  unfold update_term. by rewrite Ht.
Qed.

(** What a viewer types reaches the process of its session, and
    nothing else: the messages of a websocket attached to a term are
    written to that term in the order they arrive, and neither the other
    terms, the websockets, the registry nor the logs change. *)
Theorem input_reaches_the_process st ws c term t (msgs : list string) :
  sockets st !! ws = Some c →
  peer c = Some term →
  heap st !! term = Some t →
  run (Message ws <$> msgs) st
  = set_heap (<[term := {| pid := pid t; task_id := task_id t; on_data := on_data t;
                           emitted := emitted t; written := written t ++ msgs;
                           size := size t; killed := killed t |}]> (heap st)) st.
Proof.
  revert st t. induction msgs as [|msg msgs IH]; intros st t Hc Hpeer Ht.
  - simpl. rewrite app_nil_r. destruct st as [h s tm l], t. unfold set_heap. simpl in *.
    f_equal. symmetry. by apply list_insert_id.
  - rewrite fmap_cons, run_cons, (ws_message_attached st ws c term t msg Hc Hpeer Ht).
    rewrite (IH _ (add_written msg t)); [|done|done|]; last first.
    { simpl. apply list_lookup_insert_eq. by eapply lookup_lt_Some. }
    unfold set_heap. simpl. rewrite list_insert_insert_eq. by rewrite <- (assoc_L (++)).
Qed.

(** *** Viewers of sessions that do not exist *)

(** A websocket opened on a handle the registry does not hold belongs
    to no session. The handler throws a [TypeError] before it registers
    any listener: the websocket is left open and is sent nothing, what
    the client sends on it is dropped, and when it closes no process is
    killed and no entry deleted. *)
Theorem unknown_viewer_is_inert st (h : option Z) (msgs : list string) :
  get h st = None →
  let ws := length (sockets st) in
  let st1 := (ws_connect h st).2 in
  let st2 := run ((Message ws <$> msgs) ++ [Close ws]) st1 in
  (ws_connect h st).1 = inl (TypeError "Cannot read property 'pid' of undefined")
  ∧ st1 = set_sockets (sockets st ++ [{| opened := true; received := []; peer := None |}]) st
  ∧ st2 = set_sockets (sockets st ++ [{| opened := false; received := []; peer := None |}]) st.
Proof.
  intros Hget ws st1 st2.
  set (new := {| opened := true; received := []; peer := None |}).
  assert (ws_connect h st
          = (inl (TypeError "Cannot read property 'pid' of undefined"),
             set_sockets (sockets st ++ [new]) st)) as Hconn.
  { unfold ws_connect, get in *. simpl. by rewrite Hget. }
  assert (st1 = set_sockets (sockets st ++ [new]) st) as Hst1.
  { unfold st1. by rewrite Hconn. }
  split; [by rewrite Hconn|]. split; [done|].
  assert (sockets st1 !! ws = Some new) as Hws.
  { rewrite Hst1. simpl. rewrite lookup_app_r by done. by rewrite Nat.sub_diag. }
  assert (run (Message ws <$> msgs) st1 = st1) as Hmsgs.
  { clear st2. induction msgs as [|msg msgs IH]; [done|].
    rewrite fmap_cons, run_cons. simpl. unfold ws_message. rewrite Hws. simpl. done. }
  unfold st2, run. rewrite foldl_app. fold (run (Message ws <$> msgs) st1).
  rewrite Hmsgs. simpl. unfold ws_close. simpl.
  rewrite list_lookup_alter_eq, Hws. simpl. rewrite Hst1. unfold set_sockets. simpl.
  f_equal. unfold ws. rewrite alter_app_r_alt by done. by rewrite Nat.sub_diag.
Qed.

(** *** Viewers that come later *)

Lemma seen_app (m1 m2 : list string) : seen (m1 ++ m2) = seen m1 +:+ seen m2.
Proof.
  unfold seen. induction m1 as [|a m1 IH]; [done|].
  simpl. by rewrite IH, append_assoc.
Qed.

Lemma handle_emitted term ev st t :
  heap st !! term = Some t →
  ∃ t', heap (handle ev st).2 !! term = Some t'
        ∧ emitted t' = emitted t ++ data_of term [ev].
Proof.
  intros Ht.
  assert (∀ i (f : Term → Term) st0,
            heap st0 = heap st → (∀ t0, emitted (f t0) = emitted t0) →
            ∃ t', heap (update_term i f st0) !! term = Some t' ∧ emitted t' = emitted t)
    as Hupd.
  { intros i f st0 Hh Hf. rewrite <- Hh in Ht.
    rewrite (update_term_lookup_at i f st0 term t Ht).
    destruct (decide (term = i)); eauto. }
  destruct ev as [tid spawned|h cols rows|h|j data|ws msg|ws]; simpl;
    rewrite ?app_nil_r.
  - unfold post_terminal. destruct (String.eqb tid ""); [by eauto|].
    destruct spawned as [e|p]; [by eauto|]. simpl.
    exists t. split; [|done]. by apply lookup_app_l_Some.
  - unfold post_size. destruct (get h st); [|by eauto]. simpl. by apply Hupd.
  - unfold ws_connect.
    set (st1 := set_sockets _ st).
    destruct (get h st1 ≫= _) as [[term' t']|]; [|by eauto].
    unfold t_bind, ws_send. destruct (sockets st1 !! _) as [c|]; [|by eauto].
    destruct (opened c); [|by eauto]. unfold subscribe. cbn [fst snd].
    by apply Hupd.
  - unfold term_data. destruct (heap st !! j) as [tj|] eqn:Hj.
    + destruct (emit_frame (on_data tj) data (update_term j (add_emitted data) st))
        as (-> & _).
      rewrite (update_term_lookup_at j (add_emitted data) st term t Ht).
      destruct (decide (j = term)) as [->|Hne].
      * rewrite decide_True by done. eauto.
      * rewrite decide_False by done. rewrite app_nil_r. eauto.
    + destruct (decide (j = term)) as [->|Hne]; [congruence|].
      rewrite app_nil_r. eauto.
  - unfold ws_message. destruct (_ ≫= _); [|by eauto]. simpl. by apply Hupd.
  - unfold ws_close.
    set (st1 := set_sockets _ st).
    destruct (_ ≫= _) as [term'|]; [|by eauto].
    destruct (heap st1 !! term') as [t'|]; [|by eauto]. cbn [fst snd].
    simpl. by apply Hupd.
Qed.

Lemma run_emitted term evs st t :
  heap st !! term = Some t →
  ∃ t', heap (run evs st) !! term = Some t'
        ∧ emitted t' = emitted t ++ data_of term evs.
Proof.
  revert st t. induction evs as [|ev evs IH]; intros st t Ht.
  { exists t. by rewrite app_nil_r. }
  destruct (handle_emitted term ev st t Ht) as (t1 & Ht1 & He1).
  destruct (IH _ t1 Ht1) as (t2 & Ht2 & He2).
  exists t2. rewrite run_cons. split; [done|].
  by rewrite He2, He1, (data_of_cons term ev evs), <- (assoc_L (++)).
Qed.

(** A viewer that comes late is shown what a viewer that came early has
    seen. In a run in which no pid is handed out twice, let a websocket
    attach to a session and stay open while anything happens on the
    server, the session staying registered; the first message sent to a
    second websocket that attaches then is the messages the first has
    been sent so far, put end to end. *)
Theorem late_viewer_sees_the_same st (p : Z) term t evs :
  reachable st →
  terminals st !! p = Some term →
  heap st !! term = Some t →
  let early := length (sockets st) in
  let st1 := (ws_connect (Some p) st).2 in
  let st2 := run evs st1 in
  let late := length (sockets st2) in
  admissible_run evs st1 →
  forallb (λ ev, negb (closes early ev)) evs = true →
  terminals st2 !! p = Some term →
  ∃ m, inbox early st2 = Some m
       ∧ inbox late (ws_connect (Some p) st2).2 = Some [seen m].
Proof.
  intros Hreach Hp Ht early st1 st2 late Hadm Hopen Hp2.
  pose proof (reachable_invariant st Hreach) as Hinv.
  destruct (ws_connect_attaches st p term t Hinv Hp Ht) as (_ & Hsub & Hin).
  fold early st1 in Hsub, Hin.
  pose proof (run_subscribed early term evs st1 [history t] Hsub Hin Hopen) as Hin2.
  fold st2 in Hin2.
  exists ([history t] ++ data_of term evs). split; [done|].
  assert (reachable st1) as Hreach1.
  { apply (reachable_step st (Connect (Some p))); done. }
  pose proof (reachable_invariant st2 (reachable_run evs st1 Hreach1 Hadm)) as Hinv2.
  destruct (handle_emitted term (Connect (Some p)) st t Ht) as (t1 & Ht1 & He1).
  change (handle (Connect (Some p)) st).2 with st1 in Ht1.
  simpl in He1. rewrite app_nil_r in He1.
  destruct (run_emitted term evs st1 t1 Ht1) as (t2 & Ht2 & He2). fold st2 in Ht2.
  destruct (ws_connect_attaches st2 p term t2 Hinv2 Hp2 Ht2) as (_ & _ & Hin3).
  fold late in Hin3. rewrite Hin3.
  do 2 f_equal. rewrite seen_app. unfold history at 1. rewrite He2, He1.
  fold (seen (emitted t ++ data_of term evs)). rewrite seen_app.
  unfold seen at 3, history. simpl. by rewrite append_empty_r.
Qed.

(** *** A session with two viewers *)

Lemma viewers_reachable :
  reachable (run [Open "t-2" (inr 4242); Data 0 "hello"; Connect (Some 4242);
                  Connect (Some 4242)] init).
Proof.
  apply (reachable_step _ (Connect (Some 4242))); [|done].
  apply (reachable_step _ (Connect (Some 4242))); [|done].
  apply (reachable_step _ (Data 0 "hello")); [|done].
  apply (reachable_step init (Open "t-2" (inr 4242))); [apply reachable_init|].
  intros t Ht. by apply elem_of_nil in Ht.
Qed.

Lemma sessions_are_registered_while_alive_witness :
  let st := run [Open "t-2" (inr 4242); Data 0 "hello"; Connect (Some 4242);
                 Connect (Some 4242)] init in
  terminals st !! 4242 = Some 0%nat.
Proof.
  intros st.
  exact (proj1 (sessions_are_registered_while_alive st 0
                  {| pid := 4242; task_id := "t-2";
                     on_data := [LogData 0; WsSend 0; WsSend 1];
                     emitted := ["hello"]; written := []; size := None; killed := false |}
                  viewers_reachable eq_refl) eq_refl).
Defined.

Lemma late_output_leaves_a_log_witness :
  let st := run [Open "t-2" (inr 4242); Data 0 "hello"; Connect (Some 4242);
                 Connect (Some 4242)] init in
  logs (term_data 0 "exit" (ws_close 0 st).2).2 !! 4242 = Some "undefinedexit".
Proof.
  intros st.
  exact (proj1 (proj2 (proj2
    (late_output_leaves_a_log st 0
       {| opened := true; received := ["hello"]; peer := Some 0%nat |} 0
       {| pid := 4242; task_id := "t-2"; on_data := [LogData 0; WsSend 0; WsSend 1];
          emitted := ["hello"]; written := []; size := None; killed := false |}
       "exit" viewers_reachable eq_refl eq_refl eq_refl)))).
Defined.

Lemma one_close_ends_the_session_for_all_witness :
  let st := run [Open "t-2" (inr 4242); Data 0 "hello"; Connect (Some 4242);
                 Connect (Some 4242)] init in
  inbox 1 (ws_close 0 st).2 = Some ["hello"]
  ∧ get (Some 4242) (ws_close 0 st).2 = None.
Proof.
  intros st.
  assert (subscribed 1 0 st) as Hsub.
  { split; [done|]. split; [by eexists|].
    intros [|j] tj; [|done]. intros [= <-]. reflexivity. }
  destruct (one_close_ends_the_session_for_all st 0 1
              {| opened := true; received := ["hello"]; peer := Some 0%nat |} 0
              {| pid := 4242; task_id := "t-2"; on_data := [LogData 0; WsSend 0; WsSend 1];
                 emitted := ["hello"]; written := []; size := None; killed := false |}
              ltac:(done) eq_refl eq_refl eq_refl Hsub) as (_ & Hin & _ & Hget & _).
  split; [by rewrite Hin | exact Hget].
Defined.

Lemma input_reaches_the_process_witness :
  let st := run [Open "t-2" (inr 4242); Data 0 "hello"; Connect (Some 4242);
                 Connect (Some 4242)] init in
  written <$> heap (run (Message 1 <$> ["l"; "s"]) st) !! 0%nat = Some ["l"; "s"].
Proof.
  intros st.
  rewrite (input_reaches_the_process st 1
             {| opened := true; received := ["hello"]; peer := Some 0%nat |} 0
             {| pid := 4242; task_id := "t-2"; on_data := [LogData 0; WsSend 0; WsSend 1];
                emitted := ["hello"]; written := []; size := None; killed := false |}
             ["l"; "s"] eq_refl eq_refl eq_refl).
  reflexivity.
Defined.

Lemma unknown_viewer_is_inert_witness :
  run [Connect (Some 7); Message 0 "ls"; Close 0] init
  = set_sockets [{| opened := false; received := []; peer := None |}] init.
Proof.
  exact (proj2 (proj2 (unknown_viewer_is_inert init (Some 7) ["ls"] eq_refl))).
Defined.

Lemma late_viewer_sees_the_same_witness :
  let st := run [Open "t-2" (inr 4242); Data 0 "hello"] init in
  ∃ m, inbox 0 (run [Data 0 " world"] (ws_connect (Some 4242) st).2) = Some m
       ∧ inbox 1 (ws_connect (Some 4242)
                    (run [Data 0 " world"] (ws_connect (Some 4242) st).2)).2
         = Some [seen m].
Proof.
  intros st.
  refine (late_viewer_sees_the_same st 4242 0
            {| pid := 4242; task_id := "t-2"; on_data := [LogData 0];
               emitted := ["hello"]; written := []; size := None; killed := false |}
            [Data 0 " world"] _ eq_refl eq_refl _ eq_refl eq_refl).
  - apply (reachable_step _ (Data 0 "hello")); [|done].
    apply (reachable_step init (Open "t-2" (inr 4242))); [apply reachable_init|].
    intros t Ht. by apply elem_of_nil in Ht.
  - done.
Defined.

End SessionFacts.
